(** * JON: the scanner and the schema validator

    A shallow embedding of [include/jon/Lexer.h] (class [Lexer]),
    [include/jon/schema.h] (class [Schema], struct [ValidationResult]) and of
    the [Int] node constructor of the value header, followed by the
    properties established about them.

    C++ control flow that is not an ordinary return is explicit in the
    result type [outcome]: a thrown exception, control flowing off the end
    of a value-returning function, and a loop that never exits. *)

From Stdlib Require Import ZArith List String Ascii Bool Lia Floats.
From Stdlib Require Import Sorted Permutation.
Import ListNotations.

Local Open Scope string_scope.
Local Open Scope Z_scope.

(* ================================================================== *)
(** ** Outcomes of a C++ call *)

(** The exceptions the modelled code can raise. *)
Inductive exn : Type :=
| out_of_range                    (* std::out_of_range: string::at, map::at, stoull *)
| invalid_argument                (* std::invalid_argument: stoull *)
| logic_error (msg : string)      (* std::logic_error *)
| parse_error (msg : string)      (* jon parse_error, thrown by Lexer::error *)
| type_error (requested : string) (* jon typed retrieval on another variant *)
| not_found (key : string)        (* jon navigation to an absent key *)
| assertion_failed.               (* assert(...) *)

Inductive outcome (A : Type) : Type :=
| Returns (a : A)     (* the call returns a *)
| Throws (e : exn)    (* the call exits by an exception *)
| NoReturn            (* control reaches the closing brace of a non-void function *)
| Diverges.           (* the loop bound of the model was exhausted *)

Arguments Returns {A} a.
Arguments Throws {A} e.
Arguments NoReturn {A}.
Arguments Diverges {A}.

Definition obind {A B} (m : outcome A) (k : A -> outcome B) : outcome B :=
  match m with
  | Returns a => k a
  | Throws e => Throws e
  | NoReturn => NoReturn
  | Diverges => Diverges
  end.

Declare Scope outcome_scope.
Delimit Scope outcome_scope with outcome.
Notation "x <- m ;; k" := (obind m (fun x => k))
  (at level 61, m at next level, right associativity) : outcome_scope.

(** Unsigned 64-bit ([size_t]) and signed 64-bit ([int64_t]) wrap-around. *)
Definition u64 (z : Z) : Z := z mod 2 ^ 64.
Definition i64 (z : Z) : Z := (z + 2 ^ 63) mod 2 ^ 64 - 2 ^ 63.

(* ================================================================== *)
(** ** The value model *)

(** [jon::Type]. *)
Module Type_.
Inductive t : Set := Null | Bool | Int | Float | String | Object | Array.

Definition eqb (a b : t) : bool :=
  match a, b with
  | Null, Null | Bool, Bool | Int, Int | Float, Float
  | String, String | Object, Object | Array, Array => true
  | _, _ => false
  end.

End Type_.

#[local] Set Warnings "-register-all".

(** A [jon] value: one constructor per alternative of the variant, named
    after the alternative's payload type.  [obj_t] keeps its entries as an
    association list; the map's invariant (no key occurs twice) is stated
    where a property needs it. *)
Inductive jon : Type :=
| null_t
| bool_t (b : bool)
| int_t (i : Z)
| float_t (f : float)
| str_t (s : string)
| obj_t (entries : list (string * jon))
| arr_t (items : list jon).

Module Jon.

(** Modelled from the spec: [jon.h] is not part of the sources at hand.
    "[type()] returns the variant tag". *)
Definition type (v : jon) : Type_.t :=
  match v with
  | null_t => Type_.Null
  | bool_t _ => Type_.Bool
  | int_t _ => Type_.Int
  | float_t _ => Type_.Float
  | str_t _ => Type_.String
  | obj_t _ => Type_.Object
  | arr_t _ => Type_.Array
  end.

(** Modelled from the spec: "[isNull()] and sibling predicates are O(1)
    tag checks". *)
Definition isNull (v : jon) : bool :=
  match v with null_t => true | _ => false end.

(** Modelled from the spec: "typed retrieval ([get<T>]) fails with a
    type-mismatch error [...] when they differ". *)
Definition get_bool (v : jon) : outcome bool :=
  match v with bool_t b => Returns b | _ => Throws (type_error "bool") end.
Definition get_int (v : jon) : outcome Z :=
  match v with int_t i => Returns i | _ => Throws (type_error "int") end.
Definition get_float (v : jon) : outcome float :=
  match v with float_t f => Returns f | _ => Throws (type_error "float") end.
Definition get_str (v : jon) : outcome string :=
  match v with str_t s => Returns s | _ => Throws (type_error "string") end.
Definition get_obj (v : jon) : outcome (list (string * jon)) :=
  match v with obj_t o => Returns o | _ => Throws (type_error "object") end.
Definition get_arr (v : jon) : outcome (list jon) :=
  match v with arr_t a => Returns a | _ => Throws (type_error "array") end.

(** [obj_t::find]: the entry stored under a key. *)
Fixpoint find (key : string) (o : list (string * jon)) : option jon :=
  match o with
  | [] => None
  | (k, v) :: o' => if String.eqb k key then Some v else find key o'
  end.

(** [obj_t::at]: [std::out_of_range] when the key is absent. *)
Definition map_at (o : list (string * jon)) (key : string) : outcome jon :=
  match find key o with Some v => Returns v | None => Throws out_of_range end.

(** Modelled from the spec: "[has(key)] / [at(key)] [...] perform Object
    navigation and fail with a not-found error naming the missing key";
    on a value that is not an object the retrieval of the object payload
    fails first. *)
Definition has (v : jon) (key : string) : outcome bool :=
  (o <- get_obj v ;;
   Returns (match find key o with Some _ => true | None => false end))%outcome.

Definition at_ (v : jon) (key : string) : outcome jon :=
  (o <- get_obj v ;;
   match find key o with Some x => Returns x | None => Throws (not_found key) end)%outcome.

(** [at<T>(key)] is [at(key).get<T>()]. *)
Definition at_str v key := (x <- at_ v key ;; get_str x)%outcome.
Definition at_int v key := (x <- at_ v key ;; get_int x)%outcome.
Definition at_float v key := (x <- at_ v key ;; get_float x)%outcome.
Definition at_obj v key := (x <- at_ v key ;; get_obj x)%outcome.

End Jon.

(* ================================================================== *)
(** ** [schema.h] *)

(** [struct ValidationResult]: the list of error strings and [err()]. *)
Record ValidationResult : Type := { errors : list string }.

Definition err (r : ValidationResult) : bool :=
  Z.of_nat (List.length (errors r)) >? 0.

Module Schema.
Import Jon.
Local Open Scope outcome_scope.

(** [Schema::typeNames]. *)
Definition typeNames : list (string * Type_.t) :=
  [ ("null", Type_.Null); ("bool", Type_.Bool); ("int", Type_.Int);
    ("float", Type_.Float); ("string", Type_.String);
    ("object", Type_.Object); ("array", Type_.Array) ].

(** [typeNames.at(name)]. *)
Fixpoint typeNames_find (name : string) (m : list (string * Type_.t)) : option Type_.t :=
  match m with
  | [] => None
  | (k, ty) :: m' => if String.eqb k name then Some ty else typeNames_find name m'
  end.

Definition typeNames_at (name : string) : outcome Type_.t :=
  match typeNames_find name typeNames with
  | Some ty => Returns ty
  | None => Throws out_of_range
  end.

(** [container.size() OP schema.at<int_t>(key)]: the size is a [size_t],
    the bound an [int64_t], so the bound is converted to unsigned. *)
Definition size_ge (size : nat) (bound : Z) : bool := Z.of_nat size >=? u64 bound.
Definition size_le (size : nat) (bound : Z) : bool := Z.of_nat size <=? u64 bound.

(** [if (schema.has(key)) { status &= cmp(schema.at<int_t>(key)); }] *)
Definition check_int (schema : jon) (key : string) (cmp : Z -> bool)
           (status : bool) : outcome bool :=
  h <- has schema key ;;
  if h then (bound <- at_int schema key ;; Returns (status && cmp bound)%bool)
  else Returns status.

Definition check_float (schema : jon) (key : string) (cmp : float -> bool)
           (status : bool) : outcome bool :=
  h <- has schema key ;;
  if h then (bound <- at_float schema key ;; Returns (status && cmp bound)%bool)
  else Returns status.

(** [schema.has("nullable") and schema["nullable"].get<jon::bool_t>()] *)
Definition nullable_of (schema : jon) : outcome bool :=
  h <- has schema "nullable" ;;
  if h then (n <- at_ schema "nullable" ;; get_bool n) else Returns false.

Section Loops.
(** The recursive call, abstracted so that the two [for] loops are
    ordinary recursions over the container. *)
Variable validate : jon -> jon -> outcome bool.

(** [for (const auto & value : arrayValue) status &= validate(value, itemsSchema);] *)
Fixpoint array_loop (itemsSchema : jon) (arrayValue : list jon)
         (status : bool) : outcome bool :=
  match arrayValue with
  | [] => Returns status
  | value :: rest =>
      b <- validate value itemsSchema ;;
      array_loop itemsSchema rest (status && b)%bool
  end.

(** The loop over [objectValue]; the state is [status] and
    [checkedProps]. *)
Fixpoint object_loop (props : list (string * jon))
         (objectValue : list (string * jon))
         (status : bool) (checkedProps : list string)
  : outcome (bool * list string) :=
  match objectValue with
  | [] => Returns (status, checkedProps)
  | (first, second) :: rest =>
      match find first props with
      | None => object_loop props rest false checkedProps
      | Some _ =>
          sub <- map_at props first ;;
          b <- validate second sub ;;
          object_loop props rest (status && b)%bool (checkedProps ++ [first])
      end
  end.
End Loops.

(** [Schema::validate].  The recursion is on the value: every recursive
    call is on an element of the array or on the value of an entry of the
    object. *)
Fixpoint validate (value schema : jon) {struct value} : outcome bool :=
  expectedTypeName <- at_str schema "type" ;;
  expectedType <- typeNames_at expectedTypeName ;;
  nullable <- nullable_of schema ;;
  if (nullable && isNull value)%bool then Returns true
  else if negb (Type_.eqb (type value) expectedType) then Returns false
  else match expectedType with
  | Type_.Int =>
      intValue <- get_int value ;;
      status <- check_int schema "mini" (fun mini => intValue <=? mini) true ;;
      status <- check_int schema "maxi" (fun maxi => intValue >=? maxi) status ;;
      Returns status
  | Type_.Float =>
      floatValue <- get_float value ;;
      status <- check_float schema "minf" (fun minf => PrimFloat.leb floatValue minf) true ;;
      status <- check_float schema "maxf" (fun maxf => PrimFloat.leb maxf floatValue) status ;;
      Returns status
  | Type_.String =>
      stringValue <- get_str value ;;
      let size := String.length stringValue in
      status <- check_int schema "minLen" (size_ge size) true ;;
      status <- check_int schema "maxLen" (size_le size) status ;;
      Returns status
  | Type_.Array =>
      match value with (* value.get<jon::arr_t>() *)
      | arr_t arrayValue =>
          let size := List.length arrayValue in
          status <- check_int schema "minSize" (size_ge size) true ;;
          status <- check_int schema "maxSize" (size_le size) status ;;
          itemsSchema <- at_ schema "items" ;;
          status <- array_loop validate itemsSchema arrayValue status ;;
          Returns status
      | _ => Throws (type_error "array")
      end
  | Type_.Object =>
      match value with (* value.get<jon::obj_t>() *)
      | obj_t objectValue =>
          let size := List.length objectValue in
          status <- check_int schema "minProps" (size_ge size) true ;;
          status <- check_int schema "maxProps" (size_le size) status ;;
          props <- at_obj schema "props" ;;
          r <- object_loop validate props objectValue status [] ;;
          let '(status, checkedProps) := r in
          if negb (Nat.eqb (List.length checkedProps) (List.length props))
          then Returns false
          else Returns status
      | _ => Throws (type_error "object")
      end
  | Type_.Null | Type_.Bool => NoReturn
  end.

End Schema.

(* ================================================================== *)
(** ** [Lexer.h]: tokens *)

(** [enum class TokenKind]. *)
Module TokenKind.
Inductive t : Set :=
| Eof | NL
| Comma | Colon | LBrace | RBrace | LBracket | RBracket
| Null | False | True | NaN | Inf | NegInf
| BinInt | HexInt | OctoInt | DecInt
| Float
| String.
End TokenKind.

Record Span : Set := mkSpan { pos : nat; len : nat }.

Record Token : Set := mkToken { kind : TokenKind.t; val : string; span : Span }.

Definition TokenStream := list Token.

(** [Token::intBase]. *)
Definition intBase (tok : Token) : outcome Z :=
  match kind tok with
  | TokenKind.DecInt => Returns 0
  | TokenKind.HexInt => Returns 16
  | TokenKind.OctoInt => Returns 8
  | TokenKind.BinInt => Returns 2
  | _ => Throws (logic_error "Called `Token::intBase` with non-int token")
  end.

(* ------------------------------------------------------------------ *)
(** *** Characters and strings *)

Definition NL : ascii := "010"%char.
Definition NUL : ascii := "000"%char.
Definition TAB : ascii := "009"%char.
Definition CR : ascii := "013"%char.
Definition DQUOTE : ascii := "034"%char.

Definition str1 (c : ascii) : string := String c EmptyString.

(** [std::string(n, c)]. *)
Fixpoint string_fill (n : nat) (c : ascii) : string :=
  match n with
  | O => EmptyString
  | S n' => String c (string_fill n' c)
  end.

(** [std::string::at]. *)
Definition string_at (s : string) (i : nat) : outcome ascii :=
  match String.get i s with
  | Some c => Returns c
  | None => Throws out_of_range
  end.

(** [std::string::substr(pos, count)]: throws when [pos] is past the end,
    clips [count] to the rest of the string. *)
Definition substr (s : string) (pos count : nat) : outcome string :=
  if Nat.ltb (String.length s) pos then Throws out_of_range
  else Returns (String.substring pos count s).

(** [c >= lo and c <= hi] on characters. *)
Definition char_in_range (lo hi c : ascii) : bool :=
  (Nat.leb (nat_of_ascii lo) (nat_of_ascii c)
   && Nat.leb (nat_of_ascii c) (nat_of_ascii hi))%bool.

(** [isCharAnyOf(c, chars...)]. *)
Definition isCharAnyOf (c : ascii) (chars : list ascii) : bool :=
  existsb (Ascii.eqb c) chars.

(** Modelled from the spec: [utils.h] is not part of the sources at hand.
    [rtrim] is the "trimming [of] trailing horizontal whitespace" applied
    to a candidate identifier. *)
Fixpoint rtrim (s : string) : string :=
  match s with
  | EmptyString => EmptyString
  | String c s' =>
      match rtrim s' with
      | EmptyString =>
          if isCharAnyOf c [" "%char; TAB] then EmptyString else str1 c
      | t => String c t
      end
  end.

(* ------------------------------------------------------------------ *)
(** *** [std::stoull] and the [Int] node *)

Definition isspace (c : ascii) : bool :=
  isCharAnyOf c [" "%char; TAB; NL; "011"%char; "012"%char; CR].

Fixpoint skip_spaces (s : string) : string :=
  match s with
  | String c s' => if isspace c then skip_spaces s' else s
  | EmptyString => s
  end.

Definition digit_value (c : ascii) : option Z :=
  if char_in_range "0" "9" c
  then Some (Z.of_nat (nat_of_ascii c) - 48)
  else None.

(** The longest prefix of decimal digits, as a number; [None] when the
    string does not start with a digit. *)
Fixpoint decimal_prefix (s : string) (acc : option Z) : option Z :=
  match s with
  | String c s' =>
      match digit_value c with
      | Some d =>
          decimal_prefix s' (Some (10 * match acc with Some a => a | None => 0 end + d))
      | None => acc
      end
  | EmptyString => acc
  end.

(** [std::stoull(str, nullptr)]: base 10 (the default third argument),
    leading white space and an optional sign accepted, a minus sign negates
    in [unsigned long long]. *)
Definition stoull (str : string) : outcome Z :=
  let s := skip_spaces str in
  let '(neg, digits) :=
    match s with
    | String "-" r => (true, r)
    | String "+" r => (false, r)
    | _ => (false, s)
    end in
  match decimal_prefix digits None with
  | None => Throws invalid_argument
  | Some v =>
      if v >? 2 ^ 64 - 1 then Throws out_of_range
      else Returns (if neg then u64 (- v) else v)
  end.

(** [Int::Int(const Token &)]: the payload [val] of the new node. *)
Definition Int_ctor (token : Token) : outcome Z :=
  match kind token with
  | TokenKind.DecInt | TokenKind.HexInt | TokenKind.OctoInt | TokenKind.BinInt =>
      obind (stoull (val token)) (fun v => Returns (i64 v))
  | _ => Throws assertion_failed
  end.

(* ================================================================== *)
(** ** [Lexer.h]: class [Lexer] *)

Module Lexer.

(** The data members.  [col] is a [uint16_t]; [tokenPos] is assigned
    before every [addToken]. *)
Record state : Type := mkState {
  source : string;
  index : nat;
  lastNl : nat;
  col : Z;
  tokenPos : nat;
  tokens : TokenStream
}.

(** A member function: reads and updates the members, and returns, throws
    or spins. *)
Definition M (A : Type) : Type := state -> outcome (A * state).

Definition ret {A} (a : A) : M A := fun st => Returns (a, st).

Definition bind {A B} (m : M A) (k : A -> M B) : M B :=
  fun st =>
    match m st with
    | Returns (a, st') => k a st'
    | Throws e => Throws e
    | NoReturn => NoReturn
    | Diverges => Diverges
    end.

Definition throw {A} (e : exn) : M A := fun _ => Throws e.
Definition spin {A} : M A := fun _ => Diverges.
Definition get : M state := fun st => Returns (st, st).
Definition put (st : state) : M unit := fun _ => Returns (tt, st).

Declare Scope lexer_scope.
Delimit Scope lexer_scope with lexer.
Notation "x <- m ;; k" := (bind m (fun x => k))
  (at level 61, m at next level, right associativity) : lexer_scope.
Notation "m ;; k" := (bind m (fun _ => k))
  (at level 61, right associativity) : lexer_scope.
Local Open Scope lexer_scope.

Definition u8 (z : Z) : Z := z mod 2 ^ 8.
Definition u16 (z : Z) : Z := z mod 2 ^ 16.

Definition size (st : state) : nat := String.length (source st).

(** [peek]. *)
Definition peek : M ascii :=
  fun st =>
    match string_at (source st) (index st) with
    | Returns c => Returns (c, st)
    | Throws e => Throws e
    | NoReturn => NoReturn
    | Diverges => Diverges
    end.

(** [eof]. *)
Definition eof : M bool :=
  fun st => Returns (Nat.leb (size st) (index st), st).

(** [isNL]. *)
Definition isNL : M bool := c <- peek ;; ret (Ascii.eqb c NL).

(** One round of the [for] loop of [advance]. *)
Definition advance_step : M unit :=
  nl <- isNL ;;
  st <- get ;;
  put (if nl
       then mkState (source st) (S (index st)) (index st) 0
                    (tokenPos st) (tokens st)
       else mkState (source st) (S (index st)) (lastNl st) (u16 (col st + 1))
                    (tokenPos st) (tokens st)).

Fixpoint advance_steps (dist : nat) : M unit :=
  match dist with
  | O => ret tt
  | S d => advance_step ;; advance_steps d
  end.

(** [advance(dist)]. *)
Definition advance (dist : nat) : M ascii :=
  cur <- peek ;;
  advance_steps dist ;;
  e <- eof ;;
  if e then ret NUL else ret cur.

(** [lookup(dist)]: [source.size() - dist] is computed in [size_t]. *)
Definition lookup (dist : nat) : M ascii :=
  fun st =>
    if Z.of_nat (index st) <? u64 (Z.of_nat (size st) - Z.of_nat dist)
    then match string_at (source st) (index st + dist) with
         | Returns c => Returns (c, st)
         | Throws e => Throws e
         | NoReturn => NoReturn
         | Diverges => Diverges
         end
    else Returns (NUL, st).

(** [isSeq(a, b, c)]: a left fold of [and], so a mismatch stops the
    lookups. *)
Definition isSeq (a b c : ascii) : M bool :=
  x <- lookup 0 ;;
  if negb (Ascii.eqb x a) then ret false else
  y <- lookup 1 ;;
  if negb (Ascii.eqb y b) then ret false else
  z <- lookup 2 ;;
  ret (Ascii.eqb z c).

(** [is(c)]. *)
Definition is_ (c : ascii) : M bool := p <- peek ;; ret (Ascii.eqb p c).

(** [isAnyOf(chars...)]. *)
Definition isAnyOf (chars : list ascii) : M bool :=
  p <- peek ;; ret (isCharAnyOf p chars).

(** [isHidden]. *)
Definition isHidden : M bool := isAnyOf [" "%char; TAB; CR].

(** [isDigit(c)] and [isDigit()]. *)
Definition isDigit_c (c : ascii) : bool := char_in_range "0" "9" c.
Definition isDigit : M bool := p <- peek ;; ret (isDigit_c p).

(** [isHexDigit]. *)
Definition isHexDigit : M bool :=
  d <- isDigit ;;
  if d then ret true else
  p <- peek ;;
  ret (char_in_range "a" "f" p || char_in_range "A" "F" p)%bool.

(** [isOctDigit]. *)
Definition isOctDigit : M bool := p <- peek ;; ret (char_in_range "0" "7" p).

(** [addToken(kind, val)]. *)
Definition addToken (k : TokenKind.t) (v : string) : M unit :=
  st <- get ;;
  put (mkState (source st) (index st) (lastNl st) (col st) (tokenPos st)
         (tokens st ++ [mkToken k v (mkSpan (tokenPos st) (String.length v))])%list).

(** [addToken(kind, len)]. *)
Definition addToken_len (k : TokenKind.t) (l : nat) : M unit :=
  st <- get ;;
  put (mkState (source st) (index st) (lastNl st) (col st) (tokenPos st)
         (tokens st ++ [mkToken k "" (mkSpan (tokenPos st) l)])%list).

(** [addTokenAdvance(kind, len)]. *)
Definition addTokenAdvance (k : TokenKind.t) (l : nat) : M unit :=
  advance l ;; addToken_len k l.

(** The [while] loop of [error]: the result is [sliceTo]. *)
Fixpoint error_loop (fuel : nat) (sliceTo : nat) : M nat :=
  match fuel with
  | O => spin
  | S fuel' =>
      e <- eof ;;
      if e then ret sliceTo else
      st <- get ;;
      nl <- isNL ;;
      if nl then ret (index st) else
      advance 1 ;; error_loop fuel' (index st)
  end.

(** The caret line built by [error]. *)
Definition pointLine (c : Z) (msg : string) : string :=
  let n := Z.of_nat (String.length msg) in
  if n + 2 <? c
  then string_fill (Z.to_nat (u64 (c - n - 1))) " " ++ msg ++ " ^"
  else string_fill (Z.to_nat c) " " ++ "^ " ++ msg.

(** [error(msg)]: never returns. *)
Definition error {A} (fuel : nat) (msg : string) : M A :=
  st0 <- get ;;
  sliceTo <- error_loop fuel (index st0) ;;
  st <- get ;;
  match substr (source st) (lastNl st)
               (Z.to_nat (u64 (Z.of_nat sliceTo - Z.of_nat (lastNl st)))) with
  | Returns line =>
      throw (parse_error (str1 NL ++ line ++ str1 NL ++ pointLine (col st) msg))
  | Throws e => throw e
  | NoReturn | Diverges => spin
  end.

(** [expectedError(expected)]: never returns. *)
Definition expectedError {A} (fuel : nat) (expected : string) : M A :=
  nl <- isNL ;;
  got <- (if nl then ret "new line"
          else p <- peek ;; ret ("`" ++ str1 p ++ "`")) ;;
  error fuel ("Expected " ++ expected ++ ", got " ++ got).

(** [skip(c)]. *)
Definition skip (fuel : nat) (c : ascii) : M unit :=
  p <- peek ;;
  (if negb (Ascii.eqb p c)
   then expectedError fuel ("`" ++ str1 c ++ "`")
   else ret tt) ;;
  advance 1 ;;
  ret tt.

(** [skipOpt(c)]. *)
Definition skipOpt (c : ascii) : M bool :=
  i <- is_ c ;;
  if i then advance 1 ;; ret true else ret false.

(** [peek() == a and lookup() == b]: [lookup] is called only when the
    first test holds. *)
Definition peek_then_lookup (a b : ascii) : M bool :=
  p <- peek ;;
  if Ascii.eqb p a then l <- lookup 1 ;; ret (Ascii.eqb l b) else ret false.

(** [lexComment].  The block-comment loop: [depth] is a [uint8_t]. *)
Fixpoint lexComment_block (fuel : nat) (depth : Z) : M unit :=
  match fuel with
  | O => spin
  | S fuel' =>
      e <- eof ;;
      if e then ret tt else
      opens <- peek_then_lookup "/" "*" ;;
      let depth := if opens then u8 (depth + 1) else depth in
      closes <- peek_then_lookup "*" "/" ;;
      let depth := if closes then u8 (depth - 1) else depth in
      if depth =? 0 then ret tt
      else lexComment_block fuel' depth
  end.

(** The line-comment loop. *)
Fixpoint lexComment_line (fuel : nat) : M unit :=
  match fuel with
  | O => spin
  | S fuel' =>
      e <- eof ;;
      if e then ret tt else
      advance 1 ;;
      nl <- isNL ;;
      if nl then ret tt else lexComment_line fuel'
  end.

Definition lexComment (fuel : nat) : M unit :=
  p <- peek ;;
  if negb (Ascii.eqb p "/")
  then throw (logic_error "Called `Lexer::lexComment` with not the '/' char")
  else
    l <- lookup 1 ;;
    if Ascii.eqb l "*" then advance 2 ;; lexComment_block fuel 1
    else if Ascii.eqb l "/" then lexComment_line fuel
    else ret tt.

(** The loop of [lexMLString]: the result is [(closed, val)]. *)
Fixpoint lexMLString_loop (fuel : nat) (quote : ascii) (v : string)
  : M (bool * string) :=
  match fuel with
  | O => spin
  | S fuel' =>
      e <- eof ;;
      if e then ret (false, v) else
      s <- isSeq quote quote quote ;;
      if s then ret (true, v) else
      c <- advance 1 ;;
      lexMLString_loop fuel' quote (v ++ str1 c)
  end.

(** [lexMLString]. *)
Definition lexMLString (fuel : nat) : M unit :=
  quote <- peek ;;
  advance 3 ;;
  r <- lexMLString_loop fuel quote "" ;;
  let '(closed, v) := r in
  (if negb closed
   then expectedError fuel (str1 quote ++ str1 quote ++ str1 quote)
   else ret tt) ;;
  advance 3 ;;
  addToken TokenKind.String v.

(** The loop of [lexNormalString]. *)
Fixpoint lexNormalString_loop (fuel : nat) (quote : ascii) (v : string)
  : M string :=
  match fuel with
  | O => spin
  | S fuel' =>
      e <- eof ;;
      if e then ret v else
      nl <- isNL ;;
      q <- (if nl then ret true else is_ quote) ;;
      if q then ret v else
      c <- advance 1 ;;
      lexNormalString_loop fuel' quote (v ++ str1 c)
  end.

(** [lexNormalString]. *)
Definition lexNormalString (fuel : nat) : M unit :=
  quote <- advance 1 ;;
  v <- lexNormalString_loop fuel quote "" ;;
  skip fuel quote ;;
  addToken TokenKind.String v.

(** [lexString]. *)
Definition lexString (fuel : nat) : M unit :=
  quote <- peek ;;
  s <- isSeq quote quote quote ;;
  if s then lexMLString fuel else lexNormalString fuel.

(** The digit loops of [lexNum] all read
    [while (not eof()) { skipOpt('_'); if (not isD()) break; val += advance(); }]. *)
Fixpoint digits_loop (fuel : nat) (isD : M bool) (v : string) : M string :=
  match fuel with
  | O => spin
  | S fuel' =>
      e <- eof ;;
      if e then ret v else
      skipOpt "_" ;;
      d <- isD ;;
      if negb d then ret v else
      c <- advance 1 ;;
      digits_loop fuel' isD (v ++ str1 c)
  end.

(** The locals [kind], [val] and [baseSpecific] of [lexNum]. *)
Definition num_locals : Type := (TokenKind.t * string * bool)%type.

(** One of the three blocks of [lexNum] for a base prefix [0b], [0x] or
    [0o]: they differ in the prefix letter, the message, the digit test
    and the kind assigned at the end. *)
Definition based_block (fuel : nat) (sign : bool) (lower upper : ascii)
           (signedMsg : string) (isD : M bool) (expected : string)
           (assigned : TokenKind.t) (locals : num_locals) : M num_locals :=
  let '(_, v, _) := locals in
  p <- peek ;;
  prefixed <- (if Ascii.eqb p "0"
               then l <- lookup 1 ;; ret (Ascii.eqb l lower || Ascii.eqb l upper)%bool
               else ret false) ;;
  if prefixed then
    (if sign then error fuel signedMsg else ret tt) ;;
    advance 2 ;;
    d <- isD ;;
    (if negb d then expectedError fuel expected else ret tt) ;;
    v' <- digits_loop fuel isD v ;;
    ret (assigned, v', true)
  else ret locals.

(** [lexNum]. *)
Definition lexNum (fuel : nat) : M unit :=
  plus <- is_ "+" ;;
  r <- (if plus then advance 1 ;; ret ("", false)
        else minus <- is_ "-" ;;
             if minus then advance 1 ;; ret ("-", true)
             else ret ("", false)) ;;
  let '(v, sign) := r in
  (* [TokenKind kind;] is assigned on every path before [addToken] *)
  let locals : num_locals := (TokenKind.DecInt, v, false) in
  locals <- based_block fuel sign "b" "B" "Signed binary numbers are not allowed"
              (isAnyOf ["0"%char; "1"%char]) "binary digit"
              TokenKind.OctoInt locals ;;
  locals <- based_block fuel sign "x" "X" "Signed hexadecimal numbers are not allowed"
              isHexDigit "hexadecimal digit"
              TokenKind.HexInt locals ;;
  locals <- based_block fuel sign "o" "O" "Signed octal numbers are not allowed"
              isOctDigit "octal digit"
              TokenKind.OctoInt locals ;;
  let '(k, v, baseSpecific) := locals in
  if baseSpecific then addToken k v else
  v <- digits_loop fuel isDigit v ;;
  dot <- is_ "." ;;
  if dot then
    c <- advance 1 ;;
    let v := v ++ str1 c in
    d <- isDigit ;;
    (if negb d then expectedError fuel "fractional part of number" else ret tt) ;;
    v <- digits_loop fuel isDigit v ;;
    addToken TokenKind.Float v
  else addToken TokenKind.DecInt v.

(** The identifier loop of [lexMisc]. *)
Fixpoint lexMisc_loop (fuel : nat) (v : string) : M string :=
  match fuel with
  | O => spin
  | S fuel' =>
      e <- eof ;;
      if e then ret v else
      a <- isAnyOf [","%char; ":"%char; "{"%char; "}"%char; "["%char;
                    "]"%char; "'"%char; DQUOTE] ;;
      stop <- (if a then ret true else isNL) ;;
      if stop then ret v else
      c <- advance 1 ;;
      lexMisc_loop fuel' (v ++ str1 c)
  end.

(** [lexMisc]. *)
Definition lexMisc (fuel : nat) : M unit :=
  nl <- isNL ;;
  if nl then addTokenAdvance TokenKind.NL 1 else
  h <- isHidden ;;
  if h then advance 1 ;; ret tt else
  d <- isDigit ;;
  num <- (if d then ret true
          else minus <- is_ "-" ;;
               signed <- (if minus then ret true else is_ "+") ;;
               if signed then l <- lookup 1 ;; ret (isDigit_c l)
               else ret false) ;;
  if num then lexNum fuel else
  v <- lexMisc_loop fuel "" ;;
  let trimmed := rtrim v in
  if String.eqb trimmed "null" then addToken_len TokenKind.Null 4
  else if String.eqb trimmed "false" then addToken_len TokenKind.False 5
  else if String.eqb trimmed "true" then addToken_len TokenKind.False 4
  else if String.eqb trimmed "nan" then addToken_len TokenKind.NaN 3
  else if String.eqb trimmed "inf" then addToken_len TokenKind.Inf 3
  else if String.eqb trimmed "-inf" then addToken_len TokenKind.NegInf 3
  else addToken TokenKind.String v.

(** [lexCurrent]. *)
Definition lexCurrent (fuel : nat) : M unit :=
  p <- peek ;;
  if Ascii.eqb p "/" then lexComment fuel
  else if (Ascii.eqb p "'" || Ascii.eqb p DQUOTE)%bool then lexString fuel
  else if Ascii.eqb p "," then addTokenAdvance TokenKind.Comma 1
  else if Ascii.eqb p ":" then addTokenAdvance TokenKind.Colon 1
  else if Ascii.eqb p "{" then addTokenAdvance TokenKind.LBrace 1
  else if Ascii.eqb p "}" then addTokenAdvance TokenKind.RBrace 1
  else if Ascii.eqb p "[" then addTokenAdvance TokenKind.LBracket 1
  else if Ascii.eqb p "]" then addTokenAdvance TokenKind.RBracket 1
  else lexMisc fuel.

Definition set_tokenPos : M unit :=
  st <- get ;;
  put (mkState (source st) (index st) (lastNl st) (col st) (index st) (tokens st)).

(** The main loop of [lex]; [inner] bounds the loops of one
    [lexCurrent]. *)
Fixpoint lex_loop (fuel inner : nat) : M unit :=
  match fuel with
  | O => spin
  | S fuel' =>
      e <- eof ;;
      if e then ret tt else
      set_tokenPos ;;
      lexCurrent inner ;;
      lex_loop fuel' inner
  end.

(** [lex(source)].  Every loop may take up to [fuel] rounds. *)
Definition lex (fuel : nat) (src : string) : outcome TokenStream :=
  match (lex_loop fuel fuel ;;
         set_tokenPos ;;
         addToken_len TokenKind.Eof 0) (mkState src 0 0 0 0 []) with
  | Returns (_, st) => Returns (tokens st)
  | Throws e => Throws e
  | NoReturn => NoReturn
  | Diverges => Diverges
  end.

(** *** States and messages named in the statements *)

(** The members after [advance] has passed a character that is not a
    newline. *)
Definition bump (st : state) : state :=
  mkState (source st) (S (index st)) (lastNl st) (u16 (col st + 1))
          (tokenPos st) (tokens st).

(** The members once [lex] has recorded where the next token begins. *)
Definition at_token (st : state) : state :=
  mkState (source st) (index st) (lastNl st) (col st) (index st) (tokens st).

(** The kinds of token that no path of the scanner creates. *)
Definition never_emitted (k : TokenKind.t) : bool :=
  match k with
  | TokenKind.True | TokenKind.BinInt => true
  | _ => false
  end.

(** A token stream without a token of such a kind. *)
Definition clean (ts : TokenStream) : Prop :=
  Forall (fun t => never_emitted (kind t) = false) ts.

(** A call that, when it returns, keeps the token stream clean and returns
    a value satisfying [Q]. *)
Definition post {A} (m : M A) (Q : A -> Prop) : Prop :=
  forall st a st',
    m st = Returns (a, st') -> clean (tokens st) -> clean (tokens st') /\ Q a.


End Lexer.

(* ================================================================== *)
(** ** The validation rules in the words of the specification *)

Module Spec.

(** Modelled from the spec: the violations of section 4.4.  The spec
    fixes when a violation arises and in which order violations are
    reported, not their wording, so a violation is kept as data. *)
Inductive violation : Type :=
| type_mismatch (expected got : Type_.t)  (* "expected type - got type" *)
| below (key : string)                    (* a lower bound fails *)
| above (key : string)                    (* an upper bound fails *)
| unknown_property (name : string)        (* "unknown property => violation naming it" *)
| uncovered_property (name : string)      (* a declared property absent from the data *)
| in_item (i : nat) (v : violation)       (* "prefixed with its index" *)
| in_property (name : string) (v : violation).

Definition lookup (schema : jon) (key : string) : option jon :=
  match schema with obj_t o => Jon.find key o | _ => None end.

Definition declared_type (schema : jon) : option Type_.t :=
  match lookup schema "type" with
  | Some (str_t name) => Schema.typeNames_find name Schema.typeNames
  | _ => None
  end.

Definition nullable (schema : jon) : bool :=
  match lookup schema "nullable" with Some (bool_t b) => b | _ => false end.

(** An optional inclusive bound on an integer quantity. *)
Definition int_bound (schema : jon) (key : string)
           (holds : Z -> bool) (v : violation) : list violation :=
  match lookup schema key with
  | Some (int_t b) => if holds b then [] else [v]
  | _ => []
  end.

Definition float_bound (schema : jon) (key : string)
           (holds : float -> bool) (v : violation) : list violation :=
  match lookup schema key with
  | Some (float_t b) => if holds b then [] else [v]
  | _ => []
  end.

Definition size_bounds (schema : jon) (lo hi : string) (n : nat) : list violation :=
  (int_bound schema lo (fun b => b <=? Z.of_nat n) (below lo)
   ++ int_bound schema hi (fun b => Z.of_nat n <=? b) (above hi))%list.

Definition mem (k : string) (l : list string) : bool := existsb (String.eqb k) l.

Section Children.
Variable violations : jon -> jon -> list violation.

(** "a mandatory [items] sub-schema applied to every element, each
    element's violations prefixed with its index". *)
Fixpoint items_violations (itemsSchema : jon) (i : nat) (l : list jon)
  : list violation :=
  match l with
  | [] => []
  | v :: l' =>
      (map (in_item i) (violations v itemsSchema)
       ++ items_violations itemsSchema (S i) l')%list
  end.

(** "every data property must have a matching schema property (unknown
    property => violation naming it)". *)
Fixpoint props_violations (props : list (string * jon))
         (entries : list (string * jon)) : list violation :=
  match entries with
  | [] => []
  | (k, v) :: rest =>
      (match Jon.find k props with
       | None => [unknown_property k]
       | Some sub => map (in_property k) (violations v sub)
       end ++ props_violations props rest)%list
  end.
End Children.

(** "the full set of schema property names must be exactly covered by
    the data": one violation for every declared name the data lacks. *)
Definition uncovered (props entries : list (string * jon)) : list violation :=
  map uncovered_property
      (filter (fun k => negb (mem k (map fst entries))) (map fst props)).

(** Modelled from the spec: the algorithm of section 4.4, steps 1 to 4. *)
Fixpoint violations (value schema : jon) {struct value} : list violation :=
  if (nullable schema && Jon.isNull value)%bool then []
  else match declared_type schema with
  | None => []
  | Some expected =>
      if negb (Type_.eqb (Jon.type value) expected)
      then [type_mismatch expected (Jon.type value)]
      else match value with
      | null_t | bool_t _ => []
      | int_t i =>
          (int_bound schema "mini" (fun b => b <=? i) (below "mini")
           ++ int_bound schema "maxi" (fun b => i <=? b) (above "maxi"))%list
      | float_t f =>
          (float_bound schema "minf" (fun b => PrimFloat.leb b f) (below "minf")
           ++ float_bound schema "maxf" (fun b => PrimFloat.leb f b) (above "maxf"))%list
      | str_t s => size_bounds schema "minLen" "maxLen" (String.length s)
      | arr_t l =>
          (size_bounds schema "minSize" "maxSize" (List.length l)
           ++ match lookup schema "items" with
              | Some itemsSchema => items_violations violations itemsSchema 0 l
              | None => []
              end)%list
      | obj_t entries =>
          (size_bounds schema "minProps" "maxProps" (List.length entries)
           ++ match lookup schema "props" with
              | Some (obj_t props) =>
                  props_violations violations props entries ++ uncovered props entries
              | _ => []
              end)%list
      end
  end.

(** Modelled from the spec: "the mathematical value of the literal with
    underscores removed, in the declared base". *)
Definition digit_of (c : ascii) : option Z :=
  let n := Z.of_nat (nat_of_ascii c) in
  if char_in_range "0" "9" c then Some (n - 48)
  else if char_in_range "a" "f" c then Some (n - 87)
  else if char_in_range "A" "F" c then Some (n - 55)
  else None.

Fixpoint literal_value_from (base acc : Z) (digits : string) : option Z :=
  match digits with
  | EmptyString => Some acc
  | String c rest =>
      if Ascii.eqb c "_" then literal_value_from base acc rest
      else match digit_of c with
           | Some d => if d <? base
                       then literal_value_from base (base * acc + d) rest
                       else None
           | None => None
           end
  end.

Definition literal_value (base : Z) (digits : string) : option Z :=
  literal_value_from base 0 digits.

(** "empty sequence <=> success". *)
Definition success (l : list violation) : bool :=
  match l with [] => true | _ => false end.

End Spec.

(* ================================================================== *)
(** ** Well-formed values and schemas *)

Fixpoint nodupb (l : list string) : bool :=
  match l with
  | [] => true
  | k :: l' => negb (Spec.mem k l') && nodupb l'
  end.

(** The invariant of the value model: "within one Object, keys are unique
    strings", at every depth. *)
Fixpoint unique_keys (v : jon) : bool :=
  match v with
  | obj_t entries =>
      nodupb (map fst entries) && forallb (fun kv => unique_keys (snd kv)) entries
  | arr_t l => forallb unique_keys l
  | _ => true
  end.

Section OnKey.
Variable P : jon -> bool.

(** [P] holds of the value stored under [key], which is present. *)
Fixpoint on_key (key : string) (o : list (string * jon)) : bool :=
  match o with
  | [] => false
  | (k, x) :: o' => if String.eqb k key then P x else on_key key o'
  end.

Fixpoint all_values (o : list (string * jon)) : bool :=
  match o with
  | [] => true
  | (_, x) :: o' => P x && all_values o'
  end.
End OnKey.

(** [key] is absent or holds a value accepted by [P]. *)
Definition optional (P : jon -> bool) (key : string) (o : list (string * jon)) : bool :=
  match Jon.find key o with None => true | Some x => P x end.

Definition absent (key : string) (o : list (string * jon)) : bool :=
  match Jon.find key o with None => true | Some _ => false end.

Definition is_bool (x : jon) : bool := match x with bool_t _ => true | _ => false end.

(** A size bound: an [int_t] that is not negative. *)
Definition is_size (x : jon) : bool :=
  match x with int_t b => (0 <=? b) && (b <? 2 ^ 63) | _ => false end.

(** The schemas on which [Schema::validate] is compared with the rules of
    the specification: every node is an object with a [type] among int,
    float, string, array and object, a boolean [nullable] when present,
    no bound on an int or float, size bounds when present, [items] for an
    array and [props], an object with unique keys, for an object. *)
Fixpoint schema_ok (schema : jon) : bool :=
  match schema with
  | obj_t o =>
      optional is_bool "nullable" o &&
      match Jon.find "type" o with
      | Some (str_t name) =>
          if String.eqb name "int" then absent "mini" o && absent "maxi" o
          else if String.eqb name "float" then absent "minf" o && absent "maxf" o
          else if String.eqb name "string" then
            optional is_size "minLen" o && optional is_size "maxLen" o
          else if String.eqb name "array" then
            optional is_size "minSize" o && optional is_size "maxSize" o
            && on_key schema_ok "items" o
          else if String.eqb name "object" then
            optional is_size "minProps" o && optional is_size "maxProps" o
            && on_key (fun x => match x with
                                | obj_t props =>
                                    nodupb (map fst props) && all_values schema_ok props
                                | _ => false
                                end) "props" o
          else false
      | _ => false
      end
  | _ => false
  end.


(** *** What the validator reads from a schema node *)

Definition is_int (x : jon) : bool := match x with int_t _ => true | _ => false end.

(** The bound stored under [key], when there is one, satisfies [cmp]. *)
Definition bound_holds (o : list (string * jon)) (key : string) (cmp : Z -> bool) : bool :=
  match Jon.find key o with Some (int_t b) => cmp b | _ => true end.

(** The names [checkedProps] collects: the data keys the schema knows. *)
Definition known (props : list (string * jon)) (k : string) : bool :=
  match Jon.find k props with Some _ => true | None => false end.

(** The conjunction of the recursive verdicts over the entries; an entry
    the schema does not know counts as a failure. *)
Definition entries_pass (g : jon -> jon -> bool) (props o : list (string * jon)) : bool :=
  forallb (fun kv => match Jon.find (fst kv) props with
                     | Some sub => g (snd kv) sub
                     | None => false
                     end) o.

(** The shapes of node that [schema_ok] admits for each declared type. *)
Inductive node_shape (o : list (string * jon)) : string -> Prop :=
| shape_int :
    absent "mini" o = true -> absent "maxi" o = true -> node_shape o "int"
| shape_float :
    absent "minf" o = true -> absent "maxf" o = true -> node_shape o "float"
| shape_string :
    optional is_size "minLen" o = true -> optional is_size "maxLen" o = true ->
    node_shape o "string"
| shape_array itemsSchema :
    optional is_size "minSize" o = true -> optional is_size "maxSize" o = true ->
    Jon.find "items" o = Some itemsSchema -> schema_ok itemsSchema = true ->
    node_shape o "array"
| shape_object props :
    optional is_size "minProps" o = true -> optional is_size "maxProps" o = true ->
    Jon.find "props" o = Some (obj_t props) ->
    nodupb (map fst props) = true -> all_values schema_ok props = true ->
    node_shape o "object".

(* ================================================================== *)
(** ** The inputs of the worked cases *)

Module Cases.

(** The schema [{"type":"int","mini":0,"maxi":10}]. *)
Definition int_0_10 : jon :=
  obj_t [("type", str_t "int"); ("mini", int_t 0); ("maxi", int_t 10)].

(** The schema [{"type":"float","minf":0.0,"maxf":10.0}]. *)
Definition float_0_10 : jon :=
  obj_t [("type", str_t "float"); ("minf", float_t 0%float); ("maxf", float_t 10%float)].

(** The schema [{"type":"string","nullable":true,"minLen":3}]. *)
Definition nullable_string : jon :=
  obj_t [("type", str_t "string"); ("nullable", bool_t true); ("minLen", int_t 3)].

(** The schema [{"type":"object","props":{"a":{"type":"int"},"b":{"type":"int"}}}]. *)
Definition object_a_b : list (string * jon) :=
  [("type", str_t "object");
   ("props", obj_t [("a", obj_t [("type", str_t "int")]);
                    ("b", obj_t [("type", str_t "int")])])].

(** The schema [{type: array, items: {type: object, props: {x: {type: int}}}}]
    and the data [[{x: 1}, {x: "a"}]]. *)
Definition array_of_x : jon :=
  obj_t [("type", str_t "array");
         ("items", obj_t [("type", str_t "object");
                          ("props", obj_t [("x", obj_t [("type", str_t "int")])])])].

Definition two_items : jon :=
  arr_t [obj_t [("x", int_t 1)]; obj_t [("x", str_t "a")]].

(** The schema [{type: object, props: {}}] and two objects that violate
    it, by one and by two unknown properties. *)
Definition no_props : jon := obj_t [("type", str_t "object"); ("props", obj_t [])].
Definition one_unknown : jon := obj_t [("a", int_t 1)].
Definition two_unknown : jon := obj_t [("a", int_t 1); ("b", int_t 2)].

(** The source [true] followed by a newline. *)
Definition true_line : string := "true" ++ str1 NL.

(** The sources [0b101] and [0x1F], each followed by a newline. *)
Definition binary_line : string := "0b101" ++ str1 NL.
Definition hex_line : string := "0x1F" ++ str1 NL.

Definition binary_token : Token := mkToken TokenKind.OctoInt "101" (mkSpan 0 3).
Definition hex_token : Token := mkToken TokenKind.HexInt "1F" (mkSpan 0 2).

(** The source of the nested block comment followed by [null]. *)
Definition nested_comment : string := "/* a /* b */ c */null".

(** The source ['abc] followed by a newline. *)
Definition unterminated_line : string := "'abc" ++ str1 NL.

(** The source made of one quote. *)
Definition lone_quote : string := "'".

(** The schema [{type: object, props: {flag: {type: bool}}}] and the data
    [{extra: 1, flag: true}]. *)
Definition flag_schema : jon :=
  obj_t [("type", str_t "object");
         ("props", obj_t [("flag", obj_t [("type", str_t "bool")])])].
Definition extra_and_flag : jon := obj_t [("extra", int_t 1); ("flag", bool_t true)].

(** The data [{a: 1, b: 2, y: 3}] and [{a: 1, b: 2, y: 3, z: 4}], with one
    and two properties that [object_a_b] does not declare. *)
Definition one_undeclared : jon :=
  obj_t [("a", int_t 1); ("b", int_t 2); ("y", int_t 3)].
Definition two_undeclared : jon :=
  obj_t [("a", int_t 1); ("b", int_t 2); ("y", int_t 3); ("z", int_t 4)].


End Cases.

(* ================================================================== *)
(** ** Definitions for the further properties *)

(** [Bool::Bool(const Token &)]: the payload [val] of the new node. *)
Definition Bool_ctor (token : Token) : outcome bool :=
  match kind token with
  | TokenKind.True => Returns true
  | TokenKind.False => Returns false
  | _ => Throws assertion_failed
  end.

Module Steps.
Import Lexer.

(** The members after one round of the loop of [advance] over the
    character [c]. *)
Definition stepped (c : ascii) (st : state) : state :=
  if Ascii.eqb c NL
  then mkState (source st) (S (index st)) (index st) 0 (tokenPos st) (tokens st)
  else bump st.

(** The members after [tokens.emplace_back]. *)
Definition with_token (t : Token) (st : state) : state :=
  mkState (source st) (index st) (lastNl st) (col st) (tokenPos st)
          (tokens st ++ [t])%list.

(** The character at offset [i], NUL past the end: what [lookup] reads. *)
Definition char_at (s : string) (i : nat) : ascii :=
  match String.get i s with Some c => c | None => NUL end.

(** Three consecutive [q] start at offset [i]. *)
Definition triple_at (q : ascii) (s : string) (i : nat) : bool :=
  (Ascii.eqb (char_at s i) q
   && (Ascii.eqb (char_at s (S i)) q && Ascii.eqb (char_at s (S (S i))) q))%bool.

(** The members after [n] rounds of the loop of [advance]. *)
Fixpoint advanced (n : nat) (st : state) : state :=
  match n with
  | O => st
  | S n' => advanced n' (stepped (char_at (source st) (index st)) st)
  end.

(** The kind [lexCurrent] and [lexMisc] give to a punctuation character or
    a newline. *)
Definition punct_kind (c : ascii) : option TokenKind.t :=
  if Ascii.eqb c "," then Some TokenKind.Comma
  else if Ascii.eqb c ":" then Some TokenKind.Colon
  else if Ascii.eqb c "{" then Some TokenKind.LBrace
  else if Ascii.eqb c "}" then Some TokenKind.RBrace
  else if Ascii.eqb c "[" then Some TokenKind.LBracket
  else if Ascii.eqb c "]" then Some TokenKind.RBracket
  else if Ascii.eqb c NL then Some TokenKind.NL
  else None.

(** Punctuation, newline and the hidden characters of [isHidden]. *)
Definition structural_chars : list ascii :=
  [","%char; ":"%char; "{"%char; "}"%char; "["%char; "]"%char; NL;
   " "%char; TAB; CR].

(** One token of length 1 per punctuation character or newline of [s],
    whose first character stands at offset [from]. *)
Fixpoint structural_tokens (s : string) (from : nat) : list Token :=
  match s with
  | EmptyString => []
  | String c s' =>
      match punct_kind c with
      | Some k => mkToken k "" (mkSpan from 1) :: structural_tokens s' (S from)
      | None => structural_tokens s' (S from)
      end
  end.

(** Digits in which single underscores may stand before a digit: what the
    digit loop of [lexNum] passes in full. *)
Fixpoint grouped (s : string) : bool :=
  match s with
  | EmptyString => true
  | String c s' =>
      if isDigit_c c then grouped s'
      else if Ascii.eqb c "_"
           then match s' with
                | String d s'' => isDigit_c d && grouped s''
                | EmptyString => false
                end
           else false
  end.

(** [s] without its underscores. *)
Fixpoint without_underscores (s : string) : string :=
  match s with
  | EmptyString => EmptyString
  | String c s' =>
      if Ascii.eqb c "_" then without_underscores s'
      else String c (without_underscores s')
  end.

(** The message of [lexNum] for a sign before the base prefix with letter
    [l]. *)
Definition signed_message (l : ascii) : string :=
  if isCharAnyOf l ["b"%char; "B"%char]
  then "Signed binary numbers are not allowed"
  else if isCharAnyOf l ["x"%char; "X"%char]
       then "Signed hexadecimal numbers are not allowed"
       else "Signed octal numbers are not allowed".

(** The characters that end a bare word, the newline apart. *)
Definition word_ends : list ascii :=
  [","%char; ":"%char; "{"%char; "}"%char; "["%char; "]"%char; "'"%char; DQUOTE].

(** The characters [lexCurrent] and [lexMisc] handle before the word loop. *)
Definition not_word_start : list ascii :=
  ["/"%char; "'"%char; DQUOTE; ","%char; ":"%char; "{"%char; "}"%char;
   "["%char; "]"%char; NL; " "%char; TAB; CR].

(** A call that, when it returns, keeps the property [I] of the members and
    returns a value satisfying [Q]. *)
Definition keeps (I : state -> Prop) {A} (m : M A) (Q : A -> Prop) : Prop :=
  forall st a st', m st = Returns (a, st') -> I st -> I st' /\ Q a.

(** The kinds of token the scanner loop adds. *)
Definition scanned_kinds : list TokenKind.t :=
  [ TokenKind.NL; TokenKind.Comma; TokenKind.Colon; TokenKind.LBrace;
    TokenKind.RBrace; TokenKind.LBracket; TokenKind.RBracket; TokenKind.Null;
    TokenKind.False; TokenKind.NaN; TokenKind.Inf; TokenKind.NegInf;
    TokenKind.HexInt; TokenKind.OctoInt; TokenKind.DecInt; TokenKind.Float;
    TokenKind.String ].

(** The offsets of a token stream. *)
Definition offsets (ts : TokenStream) : list nat := map (fun t => pos (span t)) ts.

(** What the members satisfy all along the scan of [src]: the source is
    unchanged, [lastNl <= index <= size], the current token does not start
    after [index], and the tokens added so far were scanned by the loop and
    start at non-decreasing offsets up to [tokenPos]. *)
Definition scanning (src : string) (st : state) : Prop :=
  source st = src
  /\ (lastNl st <= index st)%nat
  /\ (index st <= String.length src)%nat
  /\ (tokenPos st <= index st)%nat
  /\ Forall (fun t => In (kind t) scanned_kinds /\ (pos (span t) <= tokenPos st)%nat)
            (tokens st)
  /\ Sorted le (offsets (tokens st)).


End Steps.

(* ================================================================== *)
(** * Properties of the validator *)

Module SchemaFacts.
Import Jon Schema Cases.

(** On an int schema with both bounds, [validate] accepts exactly the
    integers [i] with [maxi <= i <= mini]. *)
Lemma validate_int_both_bounds (i mini maxi : Z) :
  validate (int_t i)
    (obj_t [("type", str_t "int"); ("mini", int_t mini); ("maxi", int_t maxi)])
  = Returns ((i <=? mini) && (i >=? maxi))%bool.
Proof. reflexivity. Qed.

(** C2: with [mini = 0] and [maxi = 10] the code tests [i <= 0] and
    [i >= 10], so it rejects every integer, the in-range value 5
    included, where the specification has 5 accepted; the float branch is
    inverted the same way and rejects 5.0. *)
Theorem validate_bounds_inverted :
  (forall i : Z, validate (int_t i) int_0_10 = Returns false)
  /\ validate (int_t 5) int_0_10 = Returns false
  /\ validate (float_t 5%float) float_0_10 = Returns false
  /\ Spec.violations (int_t 5) int_0_10 = []
  /\ Spec.violations (float_t 5%float) float_0_10 = [].
Proof.
  repeat split; try reflexivity.
  intro i. unfold int_0_10. rewrite validate_int_both_bounds.
  f_equal. destruct (i <=? 0) eqn:Hlo; destruct (i >=? 10) eqn:Hhi; try reflexivity.
  apply Z.leb_le in Hlo. apply Z.geb_le in Hhi. lia.
Qed.

Lemma at_has (schema : jon) (key : string) (x : jon) :
  at_ schema key = Returns x -> has schema key = Returns true.
Proof.
  destruct schema; try discriminate.
  unfold at_, has; simpl. destruct (find key entries); [reflexivity | discriminate].
Qed.

(** C6: on a schema node with a recognised [type] and [nullable: true],
    the Null value passes, whatever the declared type and whatever other
    keys the node holds. *)
Theorem nullable_null_passes (schema : jon) (name : string) (ty : Type_.t) :
  at_str schema "type" = Returns name ->
  typeNames_at name = Returns ty ->
  at_ schema "nullable" = Returns (bool_t true) ->
  validate null_t schema = Returns true.
Proof.
  intros Hname Hty Hnull. simpl.
  rewrite Hname; simpl. rewrite Hty; simpl.
  unfold nullable_of. rewrite (at_has _ _ _ Hnull); simpl.
  rewrite Hnull; reflexivity.
Qed.

Lemma nullable_null_passes_witness :
  validate null_t nullable_string = Returns true.
Proof.
  apply (nullable_null_passes nullable_string "string" Type_.String); reflexivity.
Defined.

(** *** Where control can flow off the end *)

Lemma has_returns_or_throws (schema : jon) (key : string) :
  (exists b, has schema key = Returns b) \/ (exists e, has schema key = Throws e).
Proof. unfold has. destruct schema; simpl; eauto. Qed.

Lemma at_int_returns_or_throws (schema : jon) (key : string) :
  (exists z, at_int schema key = Returns z) \/ (exists e, at_int schema key = Throws e).
Proof.
  unfold at_int, at_. destruct schema; simpl; eauto.
  destruct (find key entries) as [[]|]; simpl; eauto.
Qed.

Lemma at_float_returns_or_throws (schema : jon) (key : string) :
  (exists z, at_float schema key = Returns z) \/ (exists e, at_float schema key = Throws e).
Proof.
  unfold at_float, at_. destruct schema; simpl; eauto.
  destruct (find key entries) as [[]|]; simpl; eauto.
Qed.

Lemma at_returns_or_throws (schema : jon) (key : string) :
  (exists x, at_ schema key = Returns x) \/ (exists e, at_ schema key = Throws e).
Proof.
  unfold at_. destruct schema; simpl; eauto.
  destruct (find key entries); simpl; eauto.
Qed.

Lemma at_obj_returns_or_throws (schema : jon) (key : string) :
  (exists o, at_obj schema key = Returns o) \/ (exists e, at_obj schema key = Throws e).
Proof.
  unfold at_obj, at_. destruct schema; simpl; eauto.
  destruct (find key entries) as [[]|]; simpl; eauto.
Qed.

Lemma check_int_returns_or_throws schema key cmp status :
  (exists b, check_int schema key cmp status = Returns b)
  \/ (exists e, check_int schema key cmp status = Throws e).
Proof.
  unfold check_int.
  destruct (has_returns_or_throws schema key) as [[b ->] | [e ->]]; simpl; eauto.
  destruct b; eauto.
  destruct (at_int_returns_or_throws schema key) as [[z ->] | [e ->]]; simpl; eauto.
Qed.

Lemma check_float_returns_or_throws schema key cmp status :
  (exists b, check_float schema key cmp status = Returns b)
  \/ (exists e, check_float schema key cmp status = Throws e).
Proof.
  unfold check_float.
  destruct (has_returns_or_throws schema key) as [[b ->] | [e ->]]; simpl; eauto.
  destruct b; eauto.
  destruct (at_float_returns_or_throws schema key) as [[z ->] | [e ->]]; simpl; eauto.
Qed.

Lemma array_loop_NoReturn (f : jon -> jon -> outcome bool) itemsSchema l status :
  array_loop f itemsSchema l status = NoReturn ->
  exists v, In v l /\ f v itemsSchema = NoReturn.
Proof.
  revert status. induction l as [|v l IH]; intros status H; simpl in H.
  - discriminate.
  - destruct (f v itemsSchema) eqn:Ev; simpl in H; try discriminate.
    + destruct (IH _ H) as [v' [Hin Hv']]. exists v'. split; [right|]; assumption.
    + exists v. split; [left; reflexivity | assumption].
Qed.

Lemma object_loop_NoReturn (f : jon -> jon -> outcome bool) props o status checked :
  object_loop f props o status checked = NoReturn ->
  exists k v sub, In (k, v) o /\ find k props = Some sub /\ f v sub = NoReturn.
Proof.
  revert status checked. induction o as [|[k v] o IH]; intros status checked H; simpl in H.
  - discriminate.
  - destruct (find k props) as [sub|] eqn:Ek.
    + unfold map_at in H. rewrite Ek in H. simpl in H.
      destruct (f v sub) eqn:Ev; simpl in H; try discriminate.
      * destruct (IH _ _ H) as (k' & v' & sub' & Hin & Hf & Hv).
        exists k', v', sub'. repeat split; [right|..]; assumption.
      * exists k, v, sub. repeat split; [left; reflexivity|..]; assumption.
    + destruct (IH _ _ H) as (k' & v' & sub' & Hin & Hf & Hv).
      exists k', v', sub'. repeat split; [right|..]; assumption.
Qed.

Ltac no_fall_off chk :=
  let b := fresh "b" in let e := fresh "e" in let E := fresh "E" in
  destruct chk as [[b E] | [e E]]; rewrite E; simpl; try discriminate.

(** C9: when the declared type is the value's own type and the nullable
    rule does not apply, a Null or Bool value takes no [return]: control
    reaches the end of [validate].  The int, float and string branches
    always return or throw, and through the array and object branches
    control can fall off the end only inside a nested call. *)
Theorem validate_falls_off_end_for_null_and_bool
        (value schema : jon) (name : string) (nullable : bool) :
  at_str schema "type" = Returns name ->
  typeNames_at name = Returns (type value) ->
  nullable_of schema = Returns nullable ->
  (nullable && isNull value)%bool = false ->
  match value with
  | null_t | bool_t _ => validate value schema = NoReturn
  | int_t _ | float_t _ | str_t _ => validate value schema <> NoReturn
  | arr_t l =>
      validate value schema = NoReturn ->
      exists v itemsSchema,
        In v l /\ at_ schema "items" = Returns itemsSchema
        /\ validate v itemsSchema = NoReturn
  | obj_t o =>
      validate value schema = NoReturn ->
      exists k v props sub,
        In (k, v) o /\ at_obj schema "props" = Returns props
        /\ find k props = Some sub /\ validate v sub = NoReturn
  end.
Proof.
  intros Hname Hty Hnull Hshort.
  destruct value; simpl in *; rewrite Hname; simpl; rewrite Hty; simpl;
    rewrite Hnull; simpl; try rewrite Hshort; simpl.
  - reflexivity.
  - reflexivity.
  - no_fall_off (check_int_returns_or_throws schema "mini" (fun mini => i <=? mini) true).
    no_fall_off (check_int_returns_or_throws schema "maxi" (fun maxi => i >=? maxi) b).
  - no_fall_off (check_float_returns_or_throws schema "minf"
                   (fun minf => PrimFloat.leb f minf) true).
    no_fall_off (check_float_returns_or_throws schema "maxf"
                   (fun maxf => PrimFloat.leb maxf f) b).
  - no_fall_off (check_int_returns_or_throws schema "minLen"
                   (size_ge (String.length s)) true).
    no_fall_off (check_int_returns_or_throws schema "maxLen"
                   (size_le (String.length s)) b).
  - no_fall_off (check_int_returns_or_throws schema "minProps"
                   (size_ge (List.length entries)) true).
    no_fall_off (check_int_returns_or_throws schema "maxProps"
                   (size_le (List.length entries)) b).
    no_fall_off (at_obj_returns_or_throws schema "props").
    destruct (object_loop validate b1 entries b0 []) as [[st ck]| | |] eqn:El;
      simpl; try discriminate.
    + destruct (negb _); discriminate.
    + intros _. destruct (object_loop_NoReturn _ _ _ _ _ El) as (k & v & sub & ? & ? & ?).
      exists k, v, b1, sub. auto.
  - no_fall_off (check_int_returns_or_throws schema "minSize"
                   (size_ge (List.length items)) true).
    no_fall_off (check_int_returns_or_throws schema "maxSize"
                   (size_le (List.length items)) b).
    no_fall_off (at_returns_or_throws schema "items").
    destruct (array_loop validate b1 items b0) eqn:El; simpl; try discriminate.
    intros _. destruct (array_loop_NoReturn _ _ _ _ El) as (v & ? & ?).
    exists v, b1. auto.
Qed.

Lemma validate_falls_off_end_for_null_and_bool_witness :
  validate (bool_t true) (obj_t [("type", str_t "bool")]) = NoReturn.
Proof.
  apply (validate_falls_off_end_for_null_and_bool
           (bool_t true) (obj_t [("type", str_t "bool")]) "bool" false);
    reflexivity.
Defined.

(** *** Reading a schema node *)

Lemma at_str_obj o key s :
  find key o = Some (str_t s) -> at_str (obj_t o) key = Returns s.
Proof. intros H. unfold at_str, at_; simpl. rewrite H. reflexivity. Qed.

Lemma at_obj_obj o key props :
  find key o = Some (obj_t props) -> at_obj (obj_t o) key = Returns props.
Proof. intros H. unfold at_obj, at_; simpl. rewrite H. reflexivity. Qed.

Lemma at_obj_key o key x :
  find key o = Some x -> at_ (obj_t o) key = Returns x.
Proof. intros H. unfold at_; simpl. rewrite H. reflexivity. Qed.

Lemma nullable_of_obj o :
  optional is_bool "nullable" o = true ->
  nullable_of (obj_t o) = Returns (Spec.nullable (obj_t o)).
Proof.
  unfold optional, nullable_of, has, at_, Spec.nullable; simpl.
  destruct (find "nullable" o) as [[]|]; simpl; intros H;
    try discriminate; reflexivity.
Qed.

Lemma check_int_obj o key cmp status :
  optional is_int key o = true ->
  check_int (obj_t o) key cmp status = Returns (status && bound_holds o key cmp)%bool.
Proof.
  unfold optional, check_int, has, at_int, at_, bound_holds; simpl.
  destruct (find key o) as [[]|]; simpl; intros H; try discriminate;
    try reflexivity.
  now rewrite andb_true_r.
Qed.

Lemma is_size_is_int key o :
  optional is_size key o = true -> optional is_int key o = true.
Proof.
  unfold optional. destruct (find key o) as [[]|]; simpl; congruence.
Qed.

Lemma absent_is_int key o :
  absent key o = true -> optional is_int key o = true.
Proof.
  unfold optional, absent. destruct (find key o); simpl; congruence.
Qed.

(** *** Keys of an object *)

Lemma mem_In k l : Spec.mem k l = true <-> In k l.
Proof.
  unfold Spec.mem. rewrite existsb_exists. split.
  - intros [x [Hin Heq]]. apply String.eqb_eq in Heq. now subst.
  - intros Hin. exists k. split; [assumption | apply String.eqb_refl].
Qed.

Lemma nodupb_NoDup l : nodupb l = true -> NoDup l.
Proof.
  induction l as [|k l IH]; simpl; intros H.
  - constructor.
  - apply andb_true_iff in H as [Hk Hl]. constructor.
    + intros Hin. apply mem_In in Hin. rewrite Hin in Hk. discriminate.
    + auto.
Qed.

Lemma find_Some_In k o x : find k o = Some x -> In k (map fst o).
Proof.
  induction o as [|[k' v] o IH]; simpl; intros H.
  - discriminate.
  - destruct (String.eqb k' k) eqn:E.
    + left. now apply String.eqb_eq.
    + right. auto.
Qed.

Lemma find_None_notin k o : find k o = None -> ~ In k (map fst o).
Proof.
  induction o as [|[k' v] o IH]; simpl; intros H.
  - tauto.
  - destruct (String.eqb k' k) eqn:E; [discriminate|].
    intros [He | Hin]; [|now apply IH].
    subst. rewrite String.eqb_refl in E. discriminate.
Qed.

Lemma In_find k o : In k (map fst o) -> exists x, find k o = Some x.
Proof.
  intros Hin. destruct (find k o) eqn:E; [eauto|].
  now apply find_None_notin in E.
Qed.

Lemma object_loop_returns f g props o status checked :
  (forall k v sub, In (k, v) o -> find k props = Some sub ->
                   f v sub = Returns (g v sub)) ->
  object_loop f props o status checked
  = Returns ((status && entries_pass g props o)%bool,
             (checked ++ filter (known props) (map fst o))%list).
Proof.
  revert status checked.
  induction o as [|[k v] o IH]; intros status checked Hf; simpl.
  - now rewrite andb_true_r, app_nil_r.
  - unfold known at 1. destruct (find k props) as [sub|] eqn:Ek.
    + unfold map_at. rewrite Ek; simpl.
      rewrite (Hf k v sub (or_introl eq_refl) Ek); simpl.
      rewrite IH by (intros; eapply Hf; eauto; now right).
      now rewrite andb_assoc, <- app_assoc.
    + rewrite IH by (intros; eapply Hf; eauto; now right).
      simpl. now rewrite andb_false_r.
Qed.

Lemma entries_pass_unknown g props o k :
  In k (map fst o) -> find k props = None -> entries_pass g props o = false.
Proof.
  intros Hin Hnone. unfold entries_pass.
  apply in_map_iff in Hin as [[k' v] [Hk Hin]]. simpl in Hk; subst k'.
  destruct (forallb _ o) eqn:E; [|reflexivity].
  rewrite forallb_forall in E. specialize (E _ Hin). simpl in E.
  rewrite Hnone in E. discriminate.
Qed.

Lemma checked_incl props keys : incl (filter (known props) keys) (map fst props).
Proof.
  intros k Hin. apply filter_In in Hin as [_ Hk]. unfold known in Hk.
  destruct (find k props) eqn:E; [|discriminate]. eapply find_Some_In; eauto.
Qed.

(** A declared property the data lacks leaves [checkedProps] shorter than
    [props]. *)
Lemma checked_short props keys k :
  NoDup keys -> In k (map fst props) -> ~ In k keys ->
  (List.length (filter (known props) keys) < List.length props)%nat.
Proof.
  intros Hnd Hin Hnot.
  assert (Hnd' : NoDup (k :: filter (known props) keys)).
  { constructor.
    - intros H. apply filter_In in H. tauto.
    - now apply NoDup_filter. }
  assert (Hincl : incl (k :: filter (known props) keys) (map fst props)).
  { intros x [<- | Hx]; [assumption | now apply (checked_incl props keys)]. }
  pose proof (NoDup_incl_length Hnd' Hincl) as Hlen.
  simpl in Hlen. rewrite length_map in Hlen. lia.
Qed.

(** *** The object branch *)

Lemma validate_object objectValue o props g :
  find "type" o = Some (str_t "object") ->
  optional is_bool "nullable" o = true ->
  optional is_int "minProps" o = true ->
  optional is_int "maxProps" o = true ->
  find "props" o = Some (obj_t props) ->
  (forall k v sub, In (k, v) objectValue -> find k props = Some sub ->
                   validate v sub = Returns (g v sub)) ->
  validate (obj_t objectValue) (obj_t o)
  = Returns
      (if negb (Nat.eqb (List.length (filter (known props) (map fst objectValue)))
                        (List.length props))
       then false
       else (bound_holds o "minProps" (size_ge (List.length objectValue))
             && bound_holds o "maxProps" (size_le (List.length objectValue))
             && entries_pass g props objectValue)%bool).
Proof.
  intros Hty Hnull Hmin Hmax Hprops Hsub. simpl.
  rewrite (at_str_obj _ _ _ Hty); simpl.
  rewrite (nullable_of_obj _ Hnull); simpl.
  rewrite andb_false_r.
  rewrite (check_int_obj _ _ _ _ Hmin); simpl.
  rewrite (check_int_obj _ _ _ _ Hmax); simpl.
  rewrite (at_obj_obj _ _ _ Hprops); simpl.
  rewrite (object_loop_returns validate g props objectValue _ [] Hsub); simpl.
  now destruct (negb _).
Qed.

(** On an object schema whose own keys are well typed and whose
    nested validations return, a data property that [props] does not
    declare, or a declared property that the data lacks, makes
    [validate] return [false]. *)
Lemma validate_object_not_covered
        (o objectValue props : list (string * jon)) :
  find "type" o = Some (str_t "object") ->
  optional is_bool "nullable" o = true ->
  optional is_int "minProps" o = true ->
  optional is_int "maxProps" o = true ->
  find "props" o = Some (obj_t props) ->
  nodupb (map fst objectValue) = true ->
  (forall k v sub, In (k, v) objectValue -> find k props = Some sub ->
                   exists b, validate v sub = Returns b) ->
  (exists k, In k (map fst objectValue) /\ find k props = None)
  \/ (exists k, In k (map fst props) /\ ~ In k (map fst objectValue)) ->
  validate (obj_t objectValue) (obj_t o) = Returns false.
Proof.
  intros Hty Hnull Hmin Hmax Hprops Hnd Hsub Hbad.
  set (g := fun v sub => match validate v sub with Returns b => b | _ => false end).
  rewrite (validate_object objectValue o props g Hty Hnull Hmin Hmax Hprops).
  - destruct Hbad as [[k [Hin Hnone]] | [k [Hin Hnot]]].
    + rewrite (entries_pass_unknown g props objectValue k Hin Hnone).
      rewrite !andb_false_r. now destruct (negb _).
    + pose proof (checked_short props _ k (nodupb_NoDup _ Hnd) Hin Hnot) as Hlt.
      destruct (Nat.eqb _ _) eqn:E; [|reflexivity].
      apply Nat.eqb_eq in E. lia.
  - intros k v sub Hin Hf. destruct (Hsub k v sub Hin Hf) as [b Hb].
    unfold g. now rewrite Hb.
Qed.

(** *** The array branch *)

Lemma array_loop_returns f (g : jon -> jon -> bool) itemsSchema l status :
  (forall v, In v l -> f v itemsSchema = Returns (g v itemsSchema)) ->
  array_loop f itemsSchema l status
  = Returns (status && forallb (fun v => g v itemsSchema) l)%bool.
Proof.
  revert status. induction l as [|v l IH]; intros status Hf; simpl.
  - now rewrite andb_true_r.
  - rewrite (Hf v (or_introl eq_refl)); simpl.
    rewrite IH by (intros; apply Hf; now right).
    now rewrite andb_assoc.
Qed.

Lemma validate_array l o itemsSchema g :
  find "type" o = Some (str_t "array") ->
  optional is_bool "nullable" o = true ->
  optional is_int "minSize" o = true ->
  optional is_int "maxSize" o = true ->
  find "items" o = Some itemsSchema ->
  (forall v, In v l -> validate v itemsSchema = Returns (g v itemsSchema)) ->
  validate (arr_t l) (obj_t o)
  = Returns (bound_holds o "minSize" (size_ge (List.length l))
             && bound_holds o "maxSize" (size_le (List.length l))
             && forallb (fun v => g v itemsSchema) l)%bool.
Proof.
  intros Hty Hnull Hmin Hmax Hitems Hsub. simpl.
  rewrite (at_str_obj _ _ _ Hty); simpl.
  rewrite (nullable_of_obj _ Hnull); simpl.
  rewrite andb_false_r.
  rewrite (check_int_obj _ _ _ _ Hmin); simpl.
  rewrite (check_int_obj _ _ _ _ Hmax); simpl.
  rewrite (at_obj_key _ _ _ Hitems); simpl.
  rewrite (array_loop_returns validate g itemsSchema l _ Hsub); simpl.
  reflexivity.
Qed.

(** *** Emptiness of the violation list *)

Lemma success_app l1 l2 :
  Spec.success (l1 ++ l2) = (Spec.success l1 && Spec.success l2)%bool.
Proof. destruct l1; reflexivity. Qed.

Lemma success_map {A} (f : A -> Spec.violation) (l : list A) :
  Spec.success (map f l) = match l with [] => true | _ => false end.
Proof. destruct l; reflexivity. Qed.

Lemma success_items viol itemsSchema i l :
  Spec.success (Spec.items_violations viol itemsSchema i l)
  = forallb (fun v => Spec.success (viol v itemsSchema)) l.
Proof.
  revert i. induction l as [|v l IH]; intros i; simpl.
  - reflexivity.
  - rewrite success_app, success_map, IH. now destruct (viol v itemsSchema).
Qed.

Lemma success_props viol props o :
  Spec.success (Spec.props_violations viol props o)
  = entries_pass (fun v sub => Spec.success (viol v sub)) props o.
Proof.
  induction o as [|[k v] o IH]; simpl.
  - reflexivity.
  - rewrite success_app, IH. destruct (find k props) as [sub|].
    + rewrite success_map. now destruct (viol v sub).
    + reflexivity.
Qed.

Lemma success_uncovered props o :
  Spec.success (Spec.uncovered props o)
  = forallb (fun k => Spec.mem k (map fst o)) (map fst props).
Proof.
  unfold Spec.uncovered. rewrite success_map.
  induction (map fst props) as [|k ks IH]; simpl.
  - reflexivity.
  - destruct (Spec.mem k (map fst o)); simpl; [assumption | reflexivity].
Qed.

Lemma size_ge_spec n b :
  0 <= b < 2 ^ 63 -> size_ge n b = (b <=? Z.of_nat n).
Proof.
  intros Hb. unfold size_ge, u64. rewrite Z.mod_small by lia. apply Z.geb_leb.
Qed.

Lemma size_le_spec n b :
  0 <= b < 2 ^ 63 -> size_le n b = (Z.of_nat n <=? b).
Proof.
  intros Hb. unfold size_le, u64. now rewrite Z.mod_small by lia.
Qed.

Lemma success_size_bounds o lo hi n :
  optional is_size lo o = true ->
  optional is_size hi o = true ->
  Spec.success (Spec.size_bounds (obj_t o) lo hi n)
  = (bound_holds o lo (size_ge n) && bound_holds o hi (size_le n))%bool.
Proof.
  unfold optional, Spec.size_bounds, Spec.int_bound, bound_holds; simpl.
  intros Hlo Hhi. rewrite success_app. f_equal.
  - destruct (find lo o) as [[]|]; try reflexivity; simpl in Hlo; try discriminate.
    apply andb_true_iff in Hlo as [H0 H1].
    apply Z.leb_le in H0. apply Z.ltb_lt in H1.
    rewrite size_ge_spec by lia. now destruct (_ <=? _).
  - destruct (find hi o) as [[]|]; try reflexivity; simpl in Hhi; try discriminate.
    apply andb_true_iff in Hhi as [H0 H1].
    apply Z.leb_le in H0. apply Z.ltb_lt in H1.
    rewrite size_le_spec by lia. now destruct (_ <=? _).
Qed.

(** With unique keys on both sides and every data key declared, the two
    sizes agree exactly when every declared key occurs in the data. *)
Lemma coverage (ko kp : list string) :
  NoDup ko -> NoDup kp -> incl ko kp ->
  Nat.eqb (List.length ko) (List.length kp) = forallb (fun k => Spec.mem k ko) kp.
Proof.
  intros Hko Hkp Hincl.
  destruct (forallb _ kp) eqn:Hc.
  - apply Nat.eqb_eq. rewrite forallb_forall in Hc.
    assert (Hrev : incl kp ko) by (intros k Hk; apply mem_In; auto).
    pose proof (NoDup_incl_length Hko Hincl).
    pose proof (NoDup_incl_length Hkp Hrev). lia.
  - apply Nat.eqb_neq. intros Hlen.
    assert (Hrev : incl kp ko).
    { apply NoDup_length_incl; [assumption | lia | assumption]. }
    assert (Hall : forallb (fun k => Spec.mem k ko) kp = true).
    { apply forallb_forall. intros k Hk. apply mem_In. auto. }
    congruence.
Qed.

Lemma entries_pass_known g props o :
  entries_pass g props o = true ->
  filter (known props) (map fst o) = map fst o.
Proof.
  unfold entries_pass. induction o as [|[k v] o IH]; simpl; intros H.
  - reflexivity.
  - apply andb_true_iff in H as [Hk Ho]. unfold known at 1.
    destruct (find k props); [|discriminate]. now rewrite IH.
Qed.

Lemma entries_pass_ext g g' props o :
  (forall k v sub, In (k, v) o -> find k props = Some sub -> g v sub = g' v sub) ->
  entries_pass g props o = entries_pass g' props o.
Proof.
  unfold entries_pass. induction o as [|[k v] o IH]; intros H; simpl.
  - reflexivity.
  - rewrite IH by (intros; eapply H; eauto; now right). f_equal.
    destruct (find k props) as [sub|] eqn:E; [|reflexivity].
    apply (H k v sub); [now left | assumption].
Qed.

(** *** Induction on values *)

Lemma jon_rect_nested (P : jon -> Prop) :
  P null_t ->
  (forall b, P (bool_t b)) ->
  (forall i, P (int_t i)) ->
  (forall f, P (float_t f)) ->
  (forall s, P (str_t s)) ->
  (forall o, Forall (fun kv => P (snd kv)) o -> P (obj_t o)) ->
  (forall l, Forall P l -> P (arr_t l)) ->
  forall v, P v.
Proof.
  intros Hnull Hbool Hint Hfloat Hstr Hobj Harr.
  fix IH 1. intros [| b | i | f | s | o | l].
  - apply Hnull.
  - apply Hbool.
  - apply Hint.
  - apply Hfloat.
  - apply Hstr.
  - apply Hobj. induction o as [|[k v] o IHo]; constructor; [apply IH | exact IHo].
  - apply Harr. induction l as [|v l IHl]; constructor; [apply IH | exact IHl].
Qed.

(** *** What [schema_ok] says of a node *)

Lemma on_key_find P key o :
  on_key P key o = true -> exists x, find key o = Some x /\ P x = true.
Proof.
  induction o as [|[k x] o IH]; simpl; intros H.
  - discriminate.
  - destruct (String.eqb k key); eauto.
Qed.

Lemma all_values_find P o k x :
  all_values P o = true -> find k o = Some x -> P x = true.
Proof.
  induction o as [|[k' x'] o IH]; simpl; intros H Hf.
  - discriminate.
  - apply andb_true_iff in H as [Hx Ho].
    destruct (String.eqb k' k); [congruence | auto].
Qed.

Lemma schema_ok_inv schema :
  schema_ok schema = true ->
  exists o name,
    schema = obj_t o /\ optional is_bool "nullable" o = true
    /\ find "type" o = Some (str_t name) /\ node_shape o name.
Proof.
  destruct schema as [| | | | | o |]; simpl; try discriminate.
  intros H. apply andb_true_iff in H as [Hnull H].
  destruct (find "type" o) as [[| | | | name | |]|] eqn:Hty; try discriminate.
  exists o, name. repeat split; try assumption.
  destruct (String.eqb name "int") eqn:E1.
  { apply String.eqb_eq in E1; subst.
    apply andb_true_iff in H as [? ?]. now constructor. }
  destruct (String.eqb name "float") eqn:E2.
  { apply String.eqb_eq in E2; subst.
    apply andb_true_iff in H as [? ?]. now constructor. }
  destruct (String.eqb name "string") eqn:E3.
  { apply String.eqb_eq in E3; subst.
    apply andb_true_iff in H as [? ?]. now constructor. }
  destruct (String.eqb name "array") eqn:E4.
  { apply String.eqb_eq in E4; subst.
    apply andb_true_iff in H as [H Hitems]. apply andb_true_iff in H as [? ?].
    apply on_key_find in Hitems as [x [? ?]]. now apply (shape_array o x). }
  destruct (String.eqb name "object") eqn:E5; [|discriminate].
  apply String.eqb_eq in E5; subst.
  apply andb_true_iff in H as [H Hprops]. apply andb_true_iff in H as [? ?].
  apply on_key_find in Hprops as [[| | | | | props |] [? Hp]]; try discriminate.
  apply andb_true_iff in Hp as [? ?]. now apply (shape_object o props).
Qed.

(** *** The verdict against the rules of the specification *)

Lemma violations_head o name ty :
  find "type" o = Some (str_t name) ->
  typeNames_find name typeNames = Some ty ->
  Spec.declared_type (obj_t o) = Some ty.
Proof. intros H1 H2. unfold Spec.declared_type; simpl. now rewrite H1. Qed.

Lemma absent_find key o : absent key o = true -> find key o = None.
Proof. unfold absent. now destruct (find key o). Qed.

Lemma check_int_absent o key cmp status :
  absent key o = true -> check_int (obj_t o) key cmp status = Returns status.
Proof.
  intros H. unfold check_int, has; simpl. now rewrite (absent_find _ _ H).
Qed.

Lemma check_float_absent o key cmp status :
  absent key o = true -> check_float (obj_t o) key cmp status = Returns status.
Proof.
  intros H. unfold check_float, has; simpl. now rewrite (absent_find _ _ H).
Qed.

Lemma int_bound_absent o key holds v :
  absent key o = true -> Spec.int_bound (obj_t o) key holds v = [].
Proof.
  intros H. unfold Spec.int_bound; simpl. now rewrite (absent_find _ _ H).
Qed.

Lemma float_bound_absent o key holds v :
  absent key o = true -> Spec.float_bound (obj_t o) key holds v = [].
Proof.
  intros H. unfold Spec.float_bound; simpl. now rewrite (absent_find _ _ H).
Qed.

(** C1, as the code has it: on a value with unique keys and a schema of
    the shape [schema_ok], [validate] raises nothing and returns one
    boolean, [true] exactly when the rules of the specification find no
    violation of the schema by the value; the violations themselves are
    not returned. *)
Theorem validate_returns_verdict (value schema : jon) :
  unique_keys value = true ->
  schema_ok schema = true ->
  validate value schema = Returns (Spec.success (Spec.violations value schema)).
Proof.
  revert schema.
  induction value as [| b | i | f | s | o IHo | l IHl] using jon_rect_nested;
    intros schema Hu Hs;
    destruct (schema_ok_inv schema Hs) as (sc & name & -> & Hnull & Hty & Hshape);
    destruct Hshape as [Hlo Hhi | Hlo Hhi | Hlo Hhi
                       | itemsSchema Hlo Hhi Hitems Hok
                       | props Hlo Hhi Hprops Hnd Hall].
  all: simpl validate; rewrite (at_str_obj _ _ _ Hty); simpl obind.
  all: rewrite (nullable_of_obj _ Hnull); simpl.
  all: rewrite (violations_head _ _ _ Hty eq_refl); simpl.
  all: try (destruct (Spec.nullable (obj_t sc)); reflexivity).
  all: rewrite andb_false_r.
  - (* int *)
    rewrite (check_int_absent _ _ _ _ Hlo); simpl.
    rewrite (check_int_absent _ _ _ _ Hhi); simpl.
    now rewrite (int_bound_absent _ _ _ _ Hlo), (int_bound_absent _ _ _ _ Hhi).
  - (* float *)
    rewrite (check_float_absent _ _ _ _ Hlo); simpl.
    rewrite (check_float_absent _ _ _ _ Hhi); simpl.
    now rewrite (float_bound_absent _ _ _ _ Hlo), (float_bound_absent _ _ _ _ Hhi).
  - (* string *)
    rewrite (check_int_obj _ _ _ _ (is_size_is_int _ _ Hlo)); simpl.
    rewrite (check_int_obj _ _ _ _ (is_size_is_int _ _ Hhi)); simpl.
    now rewrite (success_size_bounds _ _ _ _ Hlo Hhi).
  - (* object *)
    simpl in Hu. apply andb_true_iff in Hu as [Hkeys Hu].
    rewrite forallb_forall in Hu. rewrite Forall_forall in IHo.
    rewrite (check_int_obj _ _ _ _ (is_size_is_int _ _ Hlo)); simpl.
    rewrite (check_int_obj _ _ _ _ (is_size_is_int _ _ Hhi)); simpl.
    rewrite (at_obj_obj _ _ _ Hprops); simpl. rewrite Hprops.
    rewrite (object_loop_returns validate
               (fun v sub => Spec.success (Spec.violations v sub)) props o _ []).
    2:{ intros k v sub Hin Hf. apply (IHo (k, v) Hin).
        - apply (Hu (k, v) Hin).
        - apply (all_values_find _ _ _ _ Hall Hf). }
    simpl. rewrite !success_app, (success_size_bounds _ _ _ _ Hlo Hhi).
    rewrite success_props, success_uncovered.
    destruct (entries_pass _ props o) eqn:Hpass.
    + rewrite (entries_pass_known _ _ _ Hpass).
      rewrite length_map, <- (length_map fst props), <- (length_map fst o).
      rewrite (coverage (map fst o) (map fst props)).
      * rewrite andb_true_r.
        destruct (forallb _ (map fst props)); simpl;
          now rewrite ?andb_true_r, ?andb_false_r.
      * now apply nodupb_NoDup.
      * now apply nodupb_NoDup.
      * rewrite <- (entries_pass_known _ _ _ Hpass). apply checked_incl.
    + rewrite !andb_false_r. simpl. now destruct (negb _).
  - (* array *)
    simpl in Hu. rewrite forallb_forall in Hu. rewrite Forall_forall in IHl.
    rewrite (check_int_obj _ _ _ _ (is_size_is_int _ _ Hlo)); simpl.
    rewrite (check_int_obj _ _ _ _ (is_size_is_int _ _ Hhi)); simpl.
    rewrite (at_obj_key _ _ _ Hitems); simpl. rewrite Hitems.
    rewrite (array_loop_returns validate
               (fun v sub => Spec.success (Spec.violations v sub)) itemsSchema l).
    2:{ intros v Hin. apply (IHl v Hin); [now apply Hu | assumption]. }
    simpl. now rewrite success_app, (success_size_bounds _ _ _ _ Hlo Hhi), success_items.
Qed.

Lemma validate_returns_verdict_witness :
  validate two_items array_of_x
  = Returns (Spec.success (Spec.violations two_items array_of_x)).
Proof.
  exact (validate_returns_verdict two_items array_of_x eq_refl eq_refl).
Defined.

(** The rules of the specification on its own example: one violation, at
    property [x] of the second element; the code answers [false]. *)
Example nested_example :
  Spec.violations two_items array_of_x
  = [Spec.in_item 1 (Spec.in_property "x"
       (Spec.type_mismatch Type_.Int Type_.String))]
  /\ validate two_items array_of_x = Returns false.
Proof. split; reflexivity. Qed.

(** C1, as stated, fails: the two values have different violation lists
    under the rules of the specification, yet [validate] returns the same
    boolean for both, so no [ValidationResult] computed from what
    [validate] returns holds the list of violations of each. *)
Lemma validate_result_is_not_the_violation_list :
  Spec.violations one_unknown no_props = [Spec.unknown_property "a"]
  /\ Spec.violations two_unknown no_props
     = [Spec.unknown_property "a"; Spec.unknown_property "b"]
  /\ validate one_unknown no_props = Returns false
  /\ validate two_unknown no_props = Returns false
  /\ ~ (exists result : outcome bool -> ValidationResult,
          List.length (errors (result (validate one_unknown no_props)))
          = List.length (Spec.violations one_unknown no_props)
          /\ List.length (errors (result (validate two_unknown no_props)))
             = List.length (Spec.violations two_unknown no_props)).
Proof.
  repeat split; try reflexivity.
  intros [result [H1 H2]].
  change (validate two_unknown no_props) with (validate one_unknown no_props) in H2.
  rewrite H1 in H2. discriminate.
Qed.

End SchemaFacts.

(* ================================================================== *)
(** * Properties of the scanner *)

Module LexerFacts.
Import Lexer Cases.
Local Open Scope lexer_scope.

(** *** Sequencing *)

Lemma bind_Returns {A B} (m : M A) (k : A -> M B) st a st' :
  m st = Returns (a, st') -> bind m k st = k a st'.
Proof. intros H. unfold bind. now rewrite H. Qed.

Lemma bind_Throws {A B} (m : M A) (k : A -> M B) st e :
  m st = Throws e -> bind m k st = Throws e.
Proof. intros H. unfold bind. now rewrite H. Qed.

Lemma bind_Diverges {A B} (m : M A) (k : A -> M B) st :
  m st = Diverges -> bind m k st = Diverges.
Proof. intros H. unfold bind. now rewrite H. Qed.

(** *** Kinds of token that are never created *)

Lemma post_ret {A} (a : A) (Q : A -> Prop) : Q a -> post (ret a) Q.
Proof. intros H st a' st' E Hts. inversion E; subst. auto. Qed.

Lemma post_bind {A B} (m : M A) (k : A -> M B) (Q : A -> Prop) (R : B -> Prop) :
  post m Q -> (forall a, Q a -> post (k a) R) -> post (bind m k) R.
Proof.
  intros Hm Hk st b st' E Hts. unfold bind in E.
  destruct (m st) as [[a st1]| | |] eqn:Em; try discriminate.
  destruct (Hm _ _ _ Em Hts) as [Hts1 Ha]. exact (Hk a Ha _ _ _ E Hts1).
Qed.

Lemma post_weaken {A} (m : M A) (Q R : A -> Prop) :
  post m Q -> (forall a, Q a -> R a) -> post m R.
Proof. intros Hm HQR st a st' E Hts. destruct (Hm _ _ _ E Hts). auto. Qed.

Lemma post_throw {A} (e : exn) (Q : A -> Prop) : post (throw e) Q.
Proof. intros st a st' E. discriminate. Qed.

Lemma post_spin {A} (Q : A -> Prop) : post spin Q.
Proof. intros st a st' E. discriminate. Qed.

(** A call that leaves the token stream as it is. *)
Lemma post_same_tokens {A} (m : M A) :
  (forall st a st', m st = Returns (a, st') -> tokens st' = tokens st) ->
  post m (fun _ => True).
Proof. intros H st a st' E Hts. rewrite (H _ _ _ E). auto. Qed.

Lemma post_peek : post peek (fun _ => True).
Proof.
  apply post_same_tokens. intros st a st' E. unfold peek in E.
  destruct (string_at _ _); inversion E; reflexivity.
Qed.

Lemma post_eof : post eof (fun _ => True).
Proof. apply post_same_tokens. intros st a st' E. inversion E; reflexivity. Qed.

Lemma post_lookup d : post (lookup d) (fun _ => True).
Proof.
  apply post_same_tokens. intros st a st' E. unfold lookup in E.
  destruct (_ <? _); [destruct (string_at _ _)|]; inversion E; reflexivity.
Qed.

Lemma post_get_put (f : state -> state) :
  (forall st, clean (tokens st) -> clean (tokens (f st))) ->
  post (bind get (fun st => put (f st))) (fun _ => True).
Proof. intros H st a st' E Hts. inversion E; subst. auto. Qed.

Lemma clean_snoc ts t :
  clean ts -> never_emitted (kind t) = false -> clean (ts ++ [t])%list.
Proof. intros H Ht. apply Forall_app. split; [assumption | now constructor]. Qed.

(** Decomposes a goal [post m Q] along the structure of [m]. *)
Ltac post_step :=
  first
    [ apply post_ret
    | apply post_throw
    | apply post_spin
    | eapply post_bind with (Q := fun _ => True); [| intros ? _]
    | match goal with
      | |- post (if ?b then _ else _) _ => destruct b
      | |- post (let '(_, _) := ?r in _) _ => destruct r
      | |- post (match ?r with (_, _) => _ end) _ => destruct r
      end ].

Ltac post_auto lemmas := repeat (first [ lemmas | post_step ]); simpl in *; auto.

Ltac pure_calls :=
  first [ apply post_peek | apply post_eof | apply post_lookup ].

Lemma post_isNL : post isNL (fun _ => True).
Proof. unfold isNL. post_auto pure_calls. Qed.

Lemma post_is c : post (is_ c) (fun _ => True).
Proof. unfold is_. post_auto pure_calls. Qed.

Lemma post_isAnyOf l : post (isAnyOf l) (fun _ => True).
Proof. unfold isAnyOf. post_auto pure_calls. Qed.

Lemma post_isDigit : post isDigit (fun _ => True).
Proof. unfold isDigit. post_auto pure_calls. Qed.

Lemma post_isHexDigit : post isHexDigit (fun _ => True).
Proof. unfold isHexDigit. post_auto ltac:(first [apply post_isDigit | pure_calls]). Qed.

Lemma post_isOctDigit : post isOctDigit (fun _ => True).
Proof. unfold isOctDigit. post_auto pure_calls. Qed.

Lemma post_isSeq a b c : post (isSeq a b c) (fun _ => True).
Proof. unfold isSeq. post_auto pure_calls. Qed.

Lemma post_peek_then_lookup a b : post (peek_then_lookup a b) (fun _ => True).
Proof. unfold peek_then_lookup. post_auto pure_calls. Qed.

Lemma post_advance_step : post advance_step (fun _ => True).
Proof.
  unfold advance_step. eapply post_bind; [apply post_isNL|]. intros nl _.
  apply post_get_put. intros st H. now destruct nl.
Qed.

Lemma post_advance_steps d : post (advance_steps d) (fun _ => True).
Proof.
  induction d; simpl; post_auto ltac:(first [apply post_advance_step | apply IHd]).
Qed.

Lemma post_advance d : post (advance d) (fun _ => True).
Proof.
  unfold advance. post_auto ltac:(first [apply post_advance_steps | pure_calls]).
Qed.

Lemma post_addToken k v : never_emitted k = false -> post (addToken k v) (fun _ => True).
Proof.
  intros Hk. unfold addToken. apply post_get_put. intros st H. simpl.
  now apply clean_snoc.
Qed.

Lemma post_addToken_len k l :
  never_emitted k = false -> post (addToken_len k l) (fun _ => True).
Proof.
  intros Hk. unfold addToken_len. apply post_get_put. intros st H. simpl.
  now apply clean_snoc.
Qed.

Lemma post_addTokenAdvance k l :
  never_emitted k = false -> post (addTokenAdvance k l) (fun _ => True).
Proof.
  intros Hk. unfold addTokenAdvance.
  eapply post_bind; [apply post_advance|]. intros _ _. now apply post_addToken_len.
Qed.

Lemma post_set_tokenPos : post set_tokenPos (fun _ => True).
Proof. unfold set_tokenPos. apply post_get_put. auto. Qed.

(** [error] and [expectedError] do not return. *)
Lemma error_no_return {A} fuel msg st (r : A * state) : @error A fuel msg st <> Returns r.
Proof.
  unfold error, bind, get. destruct (error_loop _ _ _) as [[s st1]| | |]; try discriminate.
  destruct (substr _ _ _); discriminate.
Qed.

Lemma post_error {A} fuel msg (Q : A -> Prop) : post (error fuel msg) Q.
Proof. intros st a st' E. now apply error_no_return in E. Qed.

Lemma post_expectedError {A} fuel expected (Q : A -> Prop) :
  post (expectedError fuel expected) Q.
Proof.
  unfold expectedError.
  post_auto ltac:(first [apply post_error | apply post_isNL | pure_calls]).
Qed.

Ltac basic_calls :=
  first [ apply post_error | apply post_expectedError | apply post_advance
        | apply post_isNL | apply post_is | apply post_isAnyOf | apply post_isDigit
        | apply post_isHexDigit | apply post_isOctDigit | apply post_isSeq
        | apply post_peek_then_lookup | apply post_set_tokenPos
        | apply post_addToken; reflexivity
        | apply post_addToken_len; reflexivity
        | apply post_addTokenAdvance; reflexivity
        | pure_calls ].

Lemma post_skip fuel c : post (skip fuel c) (fun _ => True).
Proof. unfold skip. post_auto basic_calls. Qed.

Lemma post_skipOpt c : post (skipOpt c) (fun _ => True).
Proof. unfold skipOpt. post_auto basic_calls. Qed.

Lemma post_lexComment fuel : post (lexComment fuel) (fun _ => True).
Proof.
  assert (Hblock : forall n d, post (lexComment_block n d) (fun _ => True)).
  { induction n; intros d; simpl; post_auto ltac:(first [apply IHn | basic_calls]). }
  assert (Hline : forall n, post (lexComment_line n) (fun _ => True)).
  { induction n; simpl; post_auto ltac:(first [apply IHn | basic_calls]). }
  unfold lexComment.
  post_auto ltac:(first [apply Hblock | apply Hline | basic_calls]).
Qed.

Lemma post_lexString fuel : post (lexString fuel) (fun _ => True).
Proof.
  assert (Hml : forall n q v, post (lexMLString_loop n q v) (fun _ => True)).
  { induction n; intros q v; simpl; post_auto ltac:(first [apply IHn | basic_calls]). }
  assert (Hnormal : forall n q v, post (lexNormalString_loop n q v) (fun _ => True)).
  { induction n; intros q v; simpl; post_auto ltac:(first [apply IHn | basic_calls]). }
  unfold lexString, lexMLString, lexNormalString.
  post_auto ltac:(first [apply Hml | apply Hnormal | apply post_skip | basic_calls]).
Qed.

Lemma post_digits_loop fuel isD v :
  post isD (fun _ => True) -> post (digits_loop fuel isD v) (fun _ => True).
Proof.
  intros HD. revert v. induction fuel; intros v; simpl;
    post_auto ltac:(first [apply IHfuel | apply HD | apply post_skipOpt | basic_calls]).
Qed.

Lemma post_based_block fuel sign lo up msg isD expected k locals :
  post isD (fun _ => True) ->
  never_emitted k = false ->
  never_emitted (fst (fst locals)) = false ->
  post (based_block fuel sign lo up msg isD expected k locals)
       (fun r => never_emitted (fst (fst r)) = false).
Proof.
  intros HD Hk Hl. unfold based_block. destruct locals as [[k0 v] b].
  post_auto ltac:(first [apply (post_digits_loop fuel isD _ HD) | apply HD | basic_calls]).
Qed.

Lemma post_lexNum fuel : post (lexNum fuel) (fun _ => True).
Proof.
  unfold lexNum.
  eapply post_bind; [apply post_is|]. intros plus _.
  eapply post_bind with (Q := fun _ => True); [post_auto basic_calls|].
  intros [v sign] _.
  eapply post_bind;
    [apply post_based_block; [apply post_isAnyOf | reflexivity | reflexivity]|].
  intros l1 H1.
  eapply post_bind; [apply post_based_block; [apply post_isHexDigit | reflexivity | exact H1]|].
  intros l2 H2.
  eapply post_bind; [apply post_based_block; [apply post_isOctDigit | reflexivity | exact H2]|].
  intros [[k v'] baseSpecific] H3. simpl in H3.
  destruct baseSpecific; [now apply post_addToken|].
  post_auto ltac:(first [apply (post_digits_loop fuel isDigit _ post_isDigit) | basic_calls]).
Qed.

Lemma post_lexMisc fuel : post (lexMisc fuel) (fun _ => True).
Proof.
  assert (Hloop : forall n v, post (lexMisc_loop n v) (fun _ => True)).
  { induction n; intros v; simpl; post_auto ltac:(first [apply IHn | basic_calls]). }
  unfold lexMisc, isHidden.
  post_auto ltac:(first [apply Hloop | apply post_lexNum | basic_calls]).
Qed.

Lemma post_lexCurrent fuel : post (lexCurrent fuel) (fun _ => True).
Proof.
  unfold lexCurrent.
  post_auto ltac:(first [apply post_lexComment | apply post_lexString
                        | apply post_lexMisc | basic_calls]).
Qed.

Lemma post_lex_loop fuel inner : post (lex_loop fuel inner) (fun _ => True).
Proof.
  induction fuel; simpl;
    post_auto ltac:(first [apply IHfuel | apply post_lexCurrent | basic_calls]).
Qed.

(** No run of [lex] that returns holds a token of kind [True] or [BinInt]:
    the branch of [lexMisc] that recognises the spelling [true] adds a
    token of kind [False], and the binary block of [lexNum] assigns the
    kind [OctoInt]. *)
Lemma lex_tokens_clean (fuel : nat) (src : string) (toks : TokenStream) :
  lex fuel src = Returns toks -> clean toks.
Proof.
  unfold lex. intros E.
  destruct ((lex_loop fuel fuel;; set_tokenPos;; addToken_len TokenKind.Eof 0)
              (mkState src 0 0 0 0 [])) as [[u st]| | |] eqn:Erun; try discriminate.
  inversion E; subst.
  assert (Hpost : post (lex_loop fuel fuel;; set_tokenPos;; addToken_len TokenKind.Eof 0)
                       (fun _ => True)).
  { post_auto ltac:(first [apply post_lex_loop | basic_calls]). }
  apply (Hpost _ _ _ Erun). constructor.
Qed.

(** *** Keyword literals *)

(** C5: on the source [true] followed by a newline, [lexMisc] captures
    the candidate [true], whose trimmed text is the spelling of the true
    literal, and emits a token of kind [False]; the specification has it
    emit the true-literal token.  Any loop bound of 5 or more gives this
    result.  More generally no source makes [lex] return a token of kind
    [True]. *)
Theorem lexMisc_true_emits_False :
  (forall k : nat,
      lex (5 + k) true_line
      = Returns [mkToken TokenKind.False "" (mkSpan 0 4);
                 mkToken TokenKind.NL "" (mkSpan 4 1);
                 mkToken TokenKind.Eof "" (mkSpan 5 0)])
  /\ (forall (fuel : nat) (src : string) (toks : TokenStream),
         lex fuel src = Returns toks ->
         forall t, In t toks -> kind t <> TokenKind.True).
Proof.
  split.
  - intro k. reflexivity.
  - intros fuel src toks E t Hin.
    pose proof (lex_tokens_clean fuel src toks E) as H.
    unfold clean in H. rewrite Forall_forall in H.
    intros Hk. specialize (H t Hin). rewrite Hk in H. discriminate.
Qed.

(** *** Numeric literals *)

(** C4: the binary literal [0b101] is scanned to a token of kind
    [OctoInt], tagged with base 8, and the [Int] node built from it holds
    101, the base-10 reading of its digits, where the specification has
    base 2 and the value 5; the hexadecimal literal [0x1F] keeps its base
    tag but the node holds 1, not 31.  More generally no source makes [lex]
    return a token of kind [BinInt], and the payload of an [Int] node is
    [std::stoull] of the token's text whatever the token's kind. *)
Theorem lexNum_base_and_value_wrong :
  (forall k : nat,
      lex (4 + k) binary_line
      = Returns [binary_token;
                 mkToken TokenKind.NL "" (mkSpan 5 1);
                 mkToken TokenKind.Eof "" (mkSpan 6 0)]
      /\ lex (4 + k) hex_line
         = Returns [hex_token;
                    mkToken TokenKind.NL "" (mkSpan 4 1);
                    mkToken TokenKind.Eof "" (mkSpan 5 0)])
  /\ intBase binary_token = Returns 8
  /\ Int_ctor binary_token = Returns 101
  /\ Spec.literal_value 2 "101" = Some 5
  /\ intBase hex_token = Returns 16
  /\ Int_ctor hex_token = Returns 1
  /\ Spec.literal_value 16 "1F" = Some 31
  /\ (forall (fuel : nat) (src : string) (toks : TokenStream),
         lex fuel src = Returns toks ->
         forall t, In t toks -> kind t <> TokenKind.BinInt)
  /\ (forall (k : TokenKind.t) (text : string) (sp sp' : Span),
         In k [TokenKind.BinInt; TokenKind.HexInt; TokenKind.OctoInt] ->
         Int_ctor (mkToken k text sp) = Int_ctor (mkToken TokenKind.DecInt text sp')).
Proof.
  repeat split; try reflexivity.
  - intros fuel src toks E t Hin.
    pose proof (lex_tokens_clean fuel src toks E) as H.
    unfold clean in H. rewrite Forall_forall in H.
    intros Hk. specialize (H t Hin). rewrite Hk in H. discriminate.
  - intros k text sp sp' [<- | [<- | [<- | []]]]; reflexivity.
Qed.

(** *** Block comments *)

(** A round of the block-comment loop changes no member: the loop is
    left only at the end of the source or when [depth] is zero. *)
Lemma lexComment_block_spins (fuel : nat) (depth : Z) (st : state) (c : ascii) :
  String.get (index st) (source st) = Some c ->
  c <> "/"%char -> c <> "*"%char ->
  depth <> 0 ->
  lexComment_block fuel depth st = Diverges.
Proof.
  intros Hc Hslash Hstar Hdepth.
  assert (Hin : (index st < size st)%nat).
  { unfold size. revert Hc. generalize (index st). generalize (source st).
    induction s as [|a s IHs]; intros n Hn; simpl in *; [discriminate|].
    destruct n; [lia|]. apply IHs in Hn. lia. }
  assert (Hno : forall a b, c <> a -> peek_then_lookup a b st = Returns (false, st)).
  { intros a b Hca. unfold peek_then_lookup, bind, peek, string_at.
    rewrite Hc. apply Ascii.eqb_neq in Hca. now rewrite Hca. }
  induction fuel as [|fuel IH]; [reflexivity|].
  simpl. unfold bind at 1. unfold eof.
  replace (Nat.leb (size st) (index st)) with false
    by (symmetry; apply Nat.leb_gt; lia).
  unfold bind at 1. rewrite (Hno "/"%char "*"%char Hslash).
  unfold bind at 1. rewrite (Hno "*"%char "/"%char Hstar).
  apply Z.eqb_neq in Hdepth. rewrite Hdepth. exact IH.
Qed.

(** C3: on the nested block comment followed by [null], [lexComment]
    skips the opening [/*] and then repeats a loop round that never
    advances, so [lex] exhausts every loop bound: scanning does not
    terminate and no token stream is produced, where the specification
    has the comment consumed and the null-literal token emitted. *)
Theorem lexComment_nested_never_terminates :
  forall fuel : nat, lex fuel nested_comment = Diverges.
Proof.
  intros [|fuel]; [reflexivity|].
  assert (Hcur : lexCurrent (S fuel) (mkState nested_comment 0 0 0 0 [])
                 = lexComment_block (S fuel) 1 (mkState nested_comment 2 0 2 0 []))
    by reflexivity.
  rewrite (lexComment_block_spins (S fuel) 1 _ " "%char) in Hcur;
    [| reflexivity | discriminate | discriminate | discriminate ].
  unfold lex. simpl lex_loop.
  rewrite (bind_Diverges (bind eof _)); [reflexivity|].
  rewrite (bind_Returns eof _ _ false (mkState nested_comment 0 0 0 0 []))
    by reflexivity.
  rewrite (bind_Returns set_tokenPos _ _ tt (mkState nested_comment 0 0 0 0 []))
    by reflexivity.
  now apply bind_Diverges.
Qed.


(** *** Reading the source *)

Lemma get_lt (s : string) (i : nat) (c : ascii) :
  String.get i s = Some c -> (i < String.length s)%nat.
Proof.
  revert i. induction s as [|a s IH]; intros i H; simpl in *; [discriminate|].
  destruct i; [lia|]. apply IH in H. lia.
Qed.

Lemma get_ge (s : string) (i : nat) :
  (String.length s <= i)%nat -> String.get i s = None.
Proof.
  revert i. induction s as [|a s IH]; intros i H; simpl in *; [reflexivity|].
  destruct i; [lia|]. apply IH. lia.
Qed.

Lemma get_in_range (s : string) (i : nat) :
  (i < String.length s)%nat -> exists c, String.get i s = Some c.
Proof.
  intros H. destruct (String.get i s) as [c|] eqn:E; [eauto|].
  destruct (Nat.le_gt_cases (String.length s) i) as [Hle|Hgt]; [lia|].
  exfalso. revert i H E Hgt. induction s as [|a s IH]; intros i H E Hgt; simpl in *; [lia|].
  destruct i; [discriminate|]. apply (IH i); [lia | assumption | lia].
Qed.

Lemma peek_get st c :
  String.get (index st) (source st) = Some c -> peek st = Returns (c, st).
Proof. intros H. unfold peek, string_at. now rewrite H. Qed.

Lemma peek_past_end st :
  (size st <= index st)%nat -> peek st = Throws out_of_range.
Proof. intros H. unfold peek, string_at. now rewrite get_ge. Qed.

Lemma eof_inside st :
  (index st < size st)%nat -> eof st = Returns (false, st).
Proof. intros H. unfold eof. now replace (Nat.leb _ _) with false
    by (symmetry; apply Nat.leb_gt; lia). Qed.

Lemma eof_past_end st :
  (size st <= index st)%nat -> eof st = Returns (true, st).
Proof. intros H. unfold eof. now replace (Nat.leb _ _) with true
    by (symmetry; apply Nat.leb_le; lia). Qed.

Lemma isNL_get st c :
  String.get (index st) (source st) = Some c ->
  isNL st = Returns (Ascii.eqb c NL, st).
Proof. intros H. unfold isNL. now rewrite (bind_Returns _ _ _ _ _ (peek_get _ _ H)). Qed.

Lemma is_get st c x :
  String.get (index st) (source st) = Some c ->
  is_ x st = Returns (Ascii.eqb c x, st).
Proof. intros H. unfold is_. now rewrite (bind_Returns _ _ _ _ _ (peek_get _ _ H)). Qed.

(** [advance()] over a character that is not a newline. *)
Lemma advance_plain st c :
  String.get (index st) (source st) = Some c ->
  c <> NL ->
  advance 1 st
  = Returns (if Nat.leb (size st) (S (index st)) then NUL else c, bump st).
Proof.
  intros Hc Hnl. unfold advance.
  rewrite (bind_Returns _ _ _ _ _ (peek_get _ _ Hc)).
  unfold advance_steps, advance_step.
  unfold bind at 1. unfold bind at 1. unfold bind at 1.
  rewrite (isNL_get _ _ Hc).
  apply Ascii.eqb_neq in Hnl. rewrite Hnl.
  unfold get, put, ret, bind, eof. fold (bump st).
  change (size (bump st)) with (size st). change (index (bump st)) with (S (index st)).
  now destruct (Nat.leb _ _).
Qed.

Lemma iter_bump_source n st : source (Nat.iter n bump st) = source st.
Proof. induction n; simpl; auto. Qed.

Lemma iter_bump_size n st : size (Nat.iter n bump st) = size st.
Proof. unfold size. now rewrite iter_bump_source. Qed.

Lemma iter_bump_index n st : index (Nat.iter n bump st) = (index st + n)%nat.
Proof. induction n; simpl; [lia | rewrite IHn; lia]. Qed.

Lemma iter_bump_lastNl n st : lastNl (Nat.iter n bump st) = lastNl st.
Proof. induction n; simpl; auto. Qed.

Lemma iter_bump_col n st :
  col (Nat.iter (S n) bump st) = u16 (col st + Z.of_nat (S n)).
Proof.
  induction n as [|n IH].
  - reflexivity.
  - change (col (Nat.iter (S (S n)) bump st))
      with (u16 (col (Nat.iter (S n) bump st) + 1)).
    rewrite IH. unfold u16.
    rewrite Zplus_mod_idemp_l. f_equal. lia.
Qed.

Lemma iter_bump_shift n st : Nat.iter n bump (bump st) = Nat.iter (S n) bump st.
Proof. induction n; simpl; [reflexivity | now rewrite IHn]. Qed.

(** The loop of [lexNormalString] over [n] characters that are neither a
    newline nor the quote, up to a newline or the end of the source. *)
Lemma lexNormalString_loop_runs (n : nat) :
  forall (fuel : nat) (quote : ascii) (v : string) (st : state),
    (n < fuel)%nat ->
    (forall i, (i < n)%nat ->
       exists c, String.get (index st + i) (source st) = Some c
                 /\ c <> NL /\ c <> quote) ->
    (size st <= index st + n)%nat
    \/ String.get (index st + n) (source st) = Some NL ->
    exists v', lexNormalString_loop fuel quote v st = Returns (v', Nat.iter n bump st).
Proof.
  induction n as [|n IH]; intros fuel quote v st Hfuel Hbody Hstop;
    (destruct fuel as [|fuel]; [lia|]); simpl lexNormalString_loop.
  - rewrite Nat.add_0_r in Hstop. destruct Hstop as [Heof | Hnl].
    + rewrite (bind_Returns _ _ _ _ _ (eof_past_end _ Heof)). eexists; reflexivity.
    + rewrite (bind_Returns _ _ _ _ _ (eof_inside _ (get_lt _ _ _ Hnl))).
      rewrite (bind_Returns _ _ _ _ _ (isNL_get _ _ Hnl)).
      eexists; reflexivity.
  - destruct (Hbody 0%nat ltac:(lia)) as (c & Hc & Hcnl & Hcq).
    rewrite Nat.add_0_r in Hc.
    rewrite (bind_Returns _ _ _ _ _ (eof_inside _ (get_lt _ _ _ Hc))).
    rewrite (bind_Returns _ _ _ _ _ (isNL_get _ _ Hc)).
    pose proof Hcnl as Hcnl'. apply Ascii.eqb_neq in Hcnl'. rewrite Hcnl'.
    rewrite (bind_Returns _ _ _ _ _ (is_get _ _ quote Hc)).
    pose proof Hcq as Hcq'. apply Ascii.eqb_neq in Hcq'. rewrite Hcq'.
    rewrite (bind_Returns _ _ _ _ _ (advance_plain _ _ Hc Hcnl)).
    destruct (IH fuel quote
                 (v ++ str1 (if Nat.leb (size st) (S (index st)) then NUL else c))
                 (bump st)) as [v' Hv'].
    + lia.
    + intros i Hi. destruct (Hbody (S i) ltac:(lia)) as (c' & Hc' & ? & ?).
      exists c'. simpl. rewrite <- Nat.add_succ_r. auto.
    + simpl. change (size (bump st)) with (size st).
      rewrite <- Nat.add_succ_r. exact Hstop.
    + exists v'. rewrite Hv'. now rewrite iter_bump_shift.
Qed.

(** *** Unterminated single-line strings *)

(** One step of a sequence whose first call returns. *)
Ltac step H := rewrite (bind_Returns _ _ _ _ _ H); cbv beta.

Lemma substring_app (s : string) :
  forall a m k : nat,
    String.substring a (m + k) s
    = String.substring a m s ++ String.substring (a + m) k s.
Proof.
  induction s as [|c s IH]; intros a m k.
  - destruct a, m, k; reflexivity.
  - destruct a as [|a]; simpl.
    + destruct m as [|m]; simpl; [reflexivity|].
      f_equal. apply (IH 0%nat).
    + apply IH.
Qed.

Lemma lookup_inside st dist c :
  Z.of_nat (size st) < 2 ^ 64 ->
  String.get (index st + dist) (source st) = Some c ->
  lookup dist st = Returns (c, st).
Proof.
  intros Hsize Hc. pose proof (get_lt _ _ _ Hc) as Hlt. fold (size st) in Hlt.
  unfold lookup, string_at, u64. rewrite Z.mod_small by lia.
  replace (_ <? _) with true by (symmetry; apply Z.ltb_lt; lia).
  now rewrite Hc.
Qed.

Lemma lookup_past_end st dist :
  (0 < dist)%nat -> (dist <= size st)%nat -> Z.of_nat (size st) < 2 ^ 64 ->
  (size st <= index st + dist)%nat ->
  lookup dist st = Returns (NUL, st).
Proof.
  intros Hd Hds Hsize Hend. unfold lookup, u64. rewrite Z.mod_small by lia.
  now replace (_ <? _) with false by (symmetry; apply Z.ltb_ge; lia).
Qed.

(** [lexCurrent] on a quote that does not open a triple quote goes to
    [lexNormalString]. *)
Lemma lexCurrent_single_quote fuel st q c :
  q = "'"%char \/ q = DQUOTE ->
  String.get (index st) (source st) = Some q ->
  lookup 1 st = Returns (c, st) -> c <> q ->
  Z.of_nat (size st) < 2 ^ 64 ->
  lexCurrent fuel st = lexNormalString fuel st.
Proof.
  intros Hquote Hq Hnext Hc Hsize. unfold lexCurrent.
  step (peek_get _ _ Hq).
  replace (Ascii.eqb q "/") with false by (destruct Hquote; subst; reflexivity).
  replace (Ascii.eqb q "'" || Ascii.eqb q DQUOTE)%bool with true
    by (destruct Hquote; subst; reflexivity).
  unfold lexString. step (peek_get _ _ Hq).
  assert (H0 : lookup 0 st = Returns (q, st))
    by (apply lookup_inside; [assumption | now rewrite Nat.add_0_r]).
  assert (Hseq : isSeq q q q st = Returns (false, st)).
  { unfold isSeq. step H0.
    rewrite Ascii.eqb_refl. cbv beta iota delta [negb].
    step Hnext.
    apply Ascii.eqb_neq in Hc. now rewrite Hc. }
  now step Hseq.
Qed.




(** The first round of the main loop on a quote that does not open a
    triple quote. *)
Lemma lex_loop_single_quote outer inner st q :
  q = "'"%char \/ q = DQUOTE ->
  String.get (index st) (source st) = Some q ->
  (forall i, (index st < i < size st)%nat -> i = S (index st) ->
             String.get i (source st) <> Some q) ->
  Z.of_nat (size st) < 2 ^ 64 ->
  forall e, lexNormalString inner (at_token st) = Throws e ->
            lex_loop (S outer) inner st = Throws e.
Proof.
  intros Hquote Hq Hnext Hsize e He.
  pose proof (get_lt _ _ _ Hq) as Hin. fold (size st) in Hin.
  simpl lex_loop. step (eof_inside _ Hin).
  step (eq_refl : set_tokenPos st = Returns (tt, at_token st)).
  apply bind_Throws.
  assert (Hlook : exists c, lookup 1 (at_token st) = Returns (c, at_token st) /\ c <> q).
  { destruct (Nat.le_gt_cases (size st) (S (index st))) as [Hend | Hmore].
    - exists NUL. split.
      + apply lookup_past_end; simpl; unfold size in *; simpl; lia.
      + destruct Hquote; subst; discriminate.
    - destruct (get_in_range (source st) (S (index st))) as [c Hc];
        [unfold size in Hmore; lia|].
      exists c. split.
      + apply lookup_inside; [assumption|]. simpl.
        now replace (index st + 1)%nat with (S (index st)) by lia.
      + intros ->. apply (Hnext (S (index st))); [lia | reflexivity | assumption]. }
  destruct Hlook as (c & Hc & Hcq).
  now rewrite (lexCurrent_single_quote inner (at_token st) q c Hquote Hq Hc Hcq Hsize).
Qed.


(** *** A string opened at the end of the source *)

Lemma lexNormalString_end_of_source fuel st q :
  String.get (index st) (source st) = Some q ->
  q <> NL ->
  (forall i, (index st < i < size st)%nat ->
     String.get i (source st) <> Some q /\ String.get i (source st) <> Some NL) ->
  (size st - index st <= fuel)%nat ->
  lexNormalString fuel st = Throws out_of_range.
Proof.
  intros Hq Hqnl Hbody Hfuel.
  pose proof (get_lt _ _ _ Hq) as Hin. fold (size st) in Hin.
  unfold lexNormalString.
  step (advance_plain _ _ Hq Hqnl).
  set (quote := if Nat.leb (size st) (S (index st)) then NUL else q).
  set (n := (size st - index st - 1)%nat).
  destruct (lexNormalString_loop_runs n fuel quote "" (bump st)) as [v Hv].
  { lia. }
  { intros i Hi. simpl.
    assert (Hrange : (index st < S (index st + i) < size st)%nat) by lia.
    destruct (get_in_range (source st) (S (index st + i))) as [c Hc];
      [unfold size in Hrange; lia|].
    exists c. destruct (Hbody _ Hrange) as [H1 H2].
    split; [assumption|]. split; [intros ->; congruence|].
    unfold quote.
    replace (Nat.leb (size st) (S (index st))) with false
      by (symmetry; apply Nat.leb_gt; lia).
    intros ->; congruence. }
  { left. simpl. change (size (bump st)) with (size st). lia. }
  step Hv. apply bind_Throws. unfold skip. apply bind_Throws.
  apply peek_past_end.
  rewrite iter_bump_size, iter_bump_index. simpl.
  change (size (bump st)) with (size st). lia.
Qed.

(** C10: whenever the main loop of [lex] stands on a quote and the rest
    of the source holds neither that quote nor a newline, [skip] calls
    [peek] with [index] equal to the length of the source and [lex]
    exits by the [std::out_of_range] of [source.at], not by the
    [parse_error] that [error] builds. *)
Theorem lex_string_at_end_out_of_range
        (outer inner : nat) (st : state) (q : ascii) :
  q = "'"%char \/ q = DQUOTE ->
  String.get (index st) (source st) = Some q ->
  (forall i, (index st < i < size st)%nat ->
     String.get i (source st) <> Some q /\ String.get i (source st) <> Some NL) ->
  (size st - index st <= inner)%nat ->
  Z.of_nat (size st) < 2 ^ 64 ->
  lex_loop (S outer) inner st = Throws out_of_range.
Proof.
  intros Hquote Hq Hbody Hfuel Hsize.
  assert (Hqnl : q <> NL) by (destruct Hquote; subst; discriminate).
  apply (lex_loop_single_quote outer inner st q Hquote Hq); [|assumption|].
  - intros i Hi _. now apply Hbody.
  - now apply (lexNormalString_end_of_source inner (at_token st) q).
Qed.

Lemma lex_string_at_end_out_of_range_witness :
  lex 1 lone_quote = Throws out_of_range.
Proof.
  unfold lex.
  rewrite (bind_Throws _ _ _ _
    (lex_string_at_end_out_of_range
       0 1 (mkState lone_quote 0 0 0 0 []) "'"%char
       (or_introl eq_refl) eq_refl
       ltac:(intros i Hi; unfold size in Hi; simpl in Hi; lia)
       ltac:(unfold size; simpl; lia) ltac:(vm_compute; reflexivity))).
  reflexivity.
Defined.

End LexerFacts.

(* ================================================================== *)
(** * Further properties of the validator *)

Module SchemaMore.
Import Jon Schema Cases SchemaFacts.

(** *** Errors of the schema itself *)

Lemma typeNames_find_absent name (m : list (string * Type_.t)) :
  ~ In name (map fst m) -> typeNames_find name m = None.
Proof.
  induction m as [|[k ty] m IH]; simpl; intros H; [reflexivity|].
  destruct (String.eqb k name) eqn:E.
  - apply String.eqb_eq in E. tauto.
  - apply IH. tauto.
Qed.

(** X1: A [type] that names none of the seven types makes [typeNames.at]
    throw [std::out_of_range], whatever the value and the other keys. *)
Theorem validate_unknown_type_name (value schema : jon) (name : string) :
  at_str schema "type" = Returns name ->
  ~ In name ["null"; "bool"; "int"; "float"; "string"; "object"; "array"] ->
  validate value schema = Throws out_of_range.
Proof.
  intros Hname Hnot.
  assert (Hfind : typeNames_at name = Throws out_of_range).
  { unfold typeNames_at. now rewrite (typeNames_find_absent name typeNames Hnot). }
  destruct value; simpl; rewrite Hname; simpl; rewrite Hfind; reflexivity.
Qed.

Lemma validate_unknown_type_name_witness :
  validate (int_t 1) (obj_t [("type", str_t "number")]) = Throws out_of_range.
Proof.
  apply (validate_unknown_type_name _ _ "number"); [reflexivity|].
  simpl. intros H. repeat destruct H as [H | H]; try discriminate H. exact H.
Defined.

(** *** A value of another type *)

(** X2: When the value's type is not the declared one and the nullable rule
    does not apply, [validate] returns [false] before it reads any
    constraint key, so also on a node whose constraint keys are ill
    typed or lack [items] or [props]. *)
Theorem validate_type_mismatch
        (value schema : jon) (name : string) (ty : Type_.t) (nullable : bool) :
  at_str schema "type" = Returns name ->
  typeNames_at name = Returns ty ->
  nullable_of schema = Returns nullable ->
  (nullable && isNull value)%bool = false ->
  type value <> ty ->
  validate value schema = Returns false.
Proof.
  intros Hname Hty Hnull Hshort Hne.
  assert (Heqb : Type_.eqb (type value) ty = false).
  { destruct (type value), ty; try reflexivity; congruence. }
  destruct value; simpl in *; rewrite Hname; simpl; rewrite Hty; simpl;
    rewrite Hnull; simpl; rewrite ?Hshort; rewrite Heqb; reflexivity.
Qed.

Lemma validate_type_mismatch_witness :
  validate (int_t 5) (obj_t [("type", str_t "array"); ("minSize", str_t "two")])
  = Returns false.
Proof.
  apply (validate_type_mismatch _ _ "array" Type_.Array false);
    try reflexivity. discriminate.
Defined.

(** *** What an accepted value looks like *)

Lemma array_loop_true f itemsSchema l status :
  array_loop f itemsSchema l status = Returns true ->
  status = true /\ forall v, In v l -> f v itemsSchema = Returns true.
Proof.
  revert status. induction l as [|v l IH]; intros status H; simpl in H.
  - inversion H. split; [reflexivity | intros v []].
  - destruct (f v itemsSchema) as [b| | |] eqn:Ev; simpl in H; try discriminate.
    destruct (IH _ H) as [Hst Hall].
    apply andb_true_iff in Hst as [-> ->].
    split; [reflexivity|]. intros u [<- | Hin]; auto.
Qed.

Lemma object_loop_true f props o status checked status' checked' :
  object_loop f props o status checked = Returns (status', checked') ->
  status' = true ->
  status = true
  /\ checked' = (checked ++ map fst o)%list
  /\ forall k v, In (k, v) o ->
       exists sub, find k props = Some sub /\ f v sub = Returns true.
Proof.
  revert status checked. induction o as [|[k v] o IH];
    intros status checked H Htrue; simpl in H.
  - inversion H; subst. rewrite app_nil_r. repeat split. intros k v [].
  - destruct (find k props) as [sub|] eqn:Ek.
    + unfold map_at in H. rewrite Ek in H. simpl in H.
      destruct (f v sub) as [b| | |] eqn:Ev; simpl in H; try discriminate.
      destruct (IH _ _ H Htrue) as (Hst & Hck & Hall).
      apply andb_true_iff in Hst as [-> ->].
      split; [reflexivity|]. split.
      * rewrite Hck, <- app_assoc. reflexivity.
      * intros k' v' [Heq | Hin]; [inversion Heq; subst; eauto | auto].
    + destruct (IH _ _ H Htrue) as (Hst & _ & _). discriminate.
Qed.

(** The shape of [validate] once the head of the schema node is read. *)
Lemma validate_head (value schema : jon) (r : bool) :
  validate value schema = Returns r ->
  exists name ty nullable,
    at_str schema "type" = Returns name
    /\ typeNames_at name = Returns ty
    /\ nullable_of schema = Returns nullable.
Proof.
  intros H.
  destruct (at_str schema "type") as [name| | |] eqn:Hname;
    [| destruct value; simpl in H; rewrite Hname in H; discriminate ..].
  destruct (typeNames_at name) as [ty| | |] eqn:Hty;
    [| destruct value; simpl in H; rewrite Hname in H; simpl in H;
       rewrite Hty in H; discriminate ..].
  destruct (nullable_of schema) as [nullable| | |] eqn:Hnull;
    [| destruct value; simpl in H; rewrite Hname in H; simpl in H;
       rewrite Hty in H; simpl in H; rewrite Hnull in H; discriminate ..].
  exists name, ty, nullable. auto.
Qed.

(** X3: An accepted value is Null under [nullable: true], or has the declared
    type, which is then int, float, string, array or object: no bool value
    is ever accepted, and Null only through the nullable rule. *)
Theorem validate_accepts_only (value schema : jon) :
  validate value schema = Returns true ->
  (value = null_t /\ nullable_of schema = Returns true)
  \/ (exists name,
        at_str schema "type" = Returns name
        /\ typeNames_at name = Returns (type value)
        /\ In (type value)
              [Type_.Int; Type_.Float; Type_.String; Type_.Array; Type_.Object]).
Proof.
  intros H.
  destruct (validate_head _ _ _ H) as (name & ty & nullable & Hname & Hty & Hnull).
  destruct value; simpl in H; rewrite Hname in H; simpl in H; rewrite Hty in H;
    simpl in H; rewrite Hnull in H; simpl in H.
  1: destruct nullable; simpl in H; [left; auto|].
  2-7: rewrite andb_false_r in H.
  all: destruct ty; simpl in H; try discriminate.
  all: right; exists name; simpl; rewrite Hty; tauto.
Qed.

Lemma validate_accepts_only_witness :
  (null_t = null_t /\ nullable_of nullable_string = Returns true)
  \/ (exists name,
        at_str nullable_string "type" = Returns name
        /\ typeNames_at name = Returns (type null_t)
        /\ In (type null_t)
              [Type_.Int; Type_.Float; Type_.String; Type_.Array; Type_.Object]).
Proof. exact (validate_accepts_only null_t nullable_string eq_refl). Defined.

(** X4: An accepted array has every element accepted by the [items] schema. *)
Theorem validate_array_accepted (l : list jon) (schema : jon) :
  validate (arr_t l) schema = Returns true ->
  exists itemsSchema,
    at_ schema "items" = Returns itemsSchema
    /\ forall v, In v l -> validate v itemsSchema = Returns true.
Proof.
  intros H.
  destruct (validate_head _ _ _ H) as (name & ty & nullable & Hname & Hty & Hnull).
  simpl in H. rewrite Hname in H; simpl in H. rewrite Hty in H; simpl in H.
  rewrite Hnull in H; simpl in H. rewrite andb_false_r in H.
  destruct ty; simpl in H; try discriminate.
  destruct (check_int schema "minSize" _ true) as [s1| | |]; simpl in H; try discriminate.
  destruct (check_int schema "maxSize" _ s1) as [s2| | |]; simpl in H; try discriminate.
  destruct (at_ schema "items") as [itemsSchema| | |]; simpl in H; try discriminate.
  destruct (array_loop validate itemsSchema l s2) as [s3| | |] eqn:El;
    simpl in H; try discriminate.
  inversion H; subst. exists itemsSchema. split; [reflexivity|].
  now apply (array_loop_true _ _ _ _ El).
Qed.

Lemma validate_array_accepted_witness :
  exists itemsSchema,
    at_ array_of_x "items" = Returns itemsSchema
    /\ forall v, In v [obj_t [("x", int_t 1)]] -> validate v itemsSchema = Returns true.
Proof.
  exact (validate_array_accepted [obj_t [("x", int_t 1)]] array_of_x eq_refl).
Defined.

(** X5: An accepted object has every entry declared in [props] and accepted by
    the schema declared for it, and as many entries as [props]. *)
Theorem validate_object_accepted (o : list (string * jon)) (schema : jon) :
  validate (obj_t o) schema = Returns true ->
  exists props,
    at_obj schema "props" = Returns props
    /\ (forall k v, In (k, v) o ->
          exists sub, find k props = Some sub /\ validate v sub = Returns true)
    /\ List.length o = List.length props.
Proof.
  intros H.
  destruct (validate_head _ _ _ H) as (name & ty & nullable & Hname & Hty & Hnull).
  simpl in H. rewrite Hname in H; simpl in H. rewrite Hty in H; simpl in H.
  rewrite Hnull in H; simpl in H. rewrite andb_false_r in H.
  destruct ty; simpl in H; try discriminate.
  destruct (check_int schema "minProps" _ true) as [s1| | |]; simpl in H; try discriminate.
  destruct (check_int schema "maxProps" _ s1) as [s2| | |]; simpl in H; try discriminate.
  destruct (at_obj schema "props") as [props| | |]; simpl in H; try discriminate.
  destruct (object_loop validate props o s2 []) as [[s3 ck]| | |] eqn:El;
    simpl in H; try discriminate.
  destruct (negb _) eqn:Elen; [discriminate|].
  inversion H; subst.
  destruct (object_loop_true _ _ _ _ _ _ _ El eq_refl) as (_ & Hck & Hall).
  exists props. split; [reflexivity|]. split; [exact Hall|].
  apply negb_false_iff, Nat.eqb_eq in Elen.
  rewrite Hck in Elen. simpl in Elen. now rewrite length_map in Elen.
Qed.

Lemma validate_object_accepted_witness :
  exists props,
    at_obj (obj_t object_a_b) "props" = Returns props
    /\ (forall k v, In (k, v) [("a", int_t 1); ("b", int_t 2)] ->
          exists sub, find k props = Some sub /\ validate v sub = Returns true)
    /\ List.length [("a", int_t 1); ("b", int_t 2)] = List.length props.
Proof.
  exact (validate_object_accepted [("a", int_t 1); ("b", int_t 2)]
           (obj_t object_a_b) eq_refl).
Defined.


(** *** The loops do not stop at a failure *)

Lemma array_loop_throws f itemsSchema l1 v l2 e :
  forall status,
    (forall x, In x l1 -> exists b, f x itemsSchema = Returns b) ->
    f v itemsSchema = Throws e ->
    array_loop f itemsSchema (l1 ++ v :: l2) status = Throws e.
Proof.
  induction l1 as [|x l1 IH]; intros status Hret Hthrow; simpl.
  - now rewrite Hthrow.
  - destruct (Hret x (or_introl eq_refl)) as [b Hb]. rewrite Hb. simpl.
    apply IH; [|exact Hthrow]. intros y Hy. apply Hret. now right.
Qed.

(** X6: [status &= validate(...)] has no short circuit: once the head of an
    array schema is read, an element whose validation throws makes the
    whole call throw, also when an earlier element or a size bound has
    already failed. *)
Theorem validate_array_keeps_going_after_failure
        (l1 l2 : list jon) (v schema itemsSchema : jon)
        (nullable s1 s2 : bool) (e : exn) :
  at_str schema "type" = Returns "array" ->
  nullable_of schema = Returns nullable ->
  check_int schema "minSize" (size_ge (List.length (l1 ++ v :: l2))) true
  = Returns s1 ->
  check_int schema "maxSize" (size_le (List.length (l1 ++ v :: l2))) s1
  = Returns s2 ->
  at_ schema "items" = Returns itemsSchema ->
  (forall x, In x l1 -> exists b, validate x itemsSchema = Returns b) ->
  validate v itemsSchema = Throws e ->
  validate (arr_t (l1 ++ v :: l2)) schema = Throws e.
Proof.
  intros Hty Hnull Hmin Hmax Hitems Hret Hthrow.
  simpl. rewrite Hty; simpl. rewrite Hnull; simpl. rewrite andb_false_r. simpl.
  rewrite Hmin; simpl. rewrite Hmax; simpl. rewrite Hitems; simpl.
  now rewrite (array_loop_throws validate itemsSchema l1 v l2 e s2 Hret Hthrow).
Qed.

Lemma validate_array_keeps_going_after_failure_witness :
  validate (arr_t ([str_t "a"] ++ int_t 1 :: []))
           (obj_t [("type", str_t "array");
                   ("items", obj_t [("type", str_t "int"); ("mini", str_t "0")])])
  = Throws (type_error "int").
Proof.
  apply (validate_array_keeps_going_after_failure
           [str_t "a"] [] (int_t 1) _
           (obj_t [("type", str_t "int"); ("mini", str_t "0")])
           false true true (type_error "int"));
    try reflexivity.
  intros x [<- | []]. exists false. reflexivity.
Defined.

(** *** Size bounds are compared as unsigned numbers *)

Lemma size_ge_negative n b :
  - 2 ^ 63 <= b < 0 -> Z.of_nat n < 2 ^ 63 -> size_ge n b = false.
Proof.
  intros Hb Hn. unfold size_ge, u64.
  replace (b mod 2 ^ 64) with (b + 2 ^ 64)
    by (apply Z.mod_unique with (q := -1); lia).
  rewrite Z.geb_leb. apply Z.leb_gt. lia.
Qed.

Lemma size_le_negative n b :
  - 2 ^ 63 <= b < 0 -> Z.of_nat n < 2 ^ 63 -> size_le n b = true.
Proof.
  intros Hb Hn. unfold size_le, u64.
  replace (b mod 2 ^ 64) with (b + 2 ^ 64)
    by (apply Z.mod_unique with (q := -1); lia).
  apply Z.leb_le. lia.
Qed.

(** X7: A negative [minLen] is converted to [size_t] for the comparison with
    [size()], so it rejects every string, the empty one included. *)
Theorem validate_negative_minLen_rejects_all
        (s : string) (schema : jon) (nullable r : bool) (b : Z) :
  at_str schema "type" = Returns "string" ->
  nullable_of schema = Returns nullable ->
  has schema "minLen" = Returns true ->
  at_int schema "minLen" = Returns b ->
  - 2 ^ 63 <= b < 0 ->
  Z.of_nat (String.length s) < 2 ^ 63 ->
  check_int schema "maxLen" (size_le (String.length s)) false = Returns r ->
  validate (str_t s) schema = Returns false.
Proof.
  intros Hty Hnull Hhas Hb Hneg Hlen Hmax.
  simpl. rewrite Hty; simpl. rewrite Hnull; simpl. rewrite andb_false_r. simpl.
  unfold check_int at 1. rewrite Hhas; simpl. rewrite Hb; simpl.
  rewrite (size_ge_negative _ _ Hneg Hlen).
  rewrite Hmax. simpl.
  unfold check_int in Hmax.
  destruct (has schema "maxLen") as [[]| | |]; simpl in Hmax; try discriminate.
  - destruct (at_int schema "maxLen"); simpl in Hmax; try discriminate.
    now inversion Hmax.
  - now inversion Hmax.
Qed.

Lemma validate_negative_minLen_rejects_all_witness :
  validate (str_t "abc") (obj_t [("type", str_t "string"); ("minLen", int_t (-1))])
  = Returns false.
Proof.
  apply (validate_negative_minLen_rejects_all
           "abc" (obj_t [("type", str_t "string"); ("minLen", int_t (-1))])
           false false (-1));
    try reflexivity; simpl; lia.
Defined.

(** X8: A negative [maxLen] bounds nothing: with no [minLen], every string is
    accepted. *)
Theorem validate_negative_maxLen_accepts_all
        (s : string) (schema : jon) (nullable : bool) (b : Z) :
  at_str schema "type" = Returns "string" ->
  nullable_of schema = Returns nullable ->
  has schema "minLen" = Returns false ->
  has schema "maxLen" = Returns true ->
  at_int schema "maxLen" = Returns b ->
  - 2 ^ 63 <= b < 0 ->
  Z.of_nat (String.length s) < 2 ^ 63 ->
  validate (str_t s) schema = Returns true.
Proof.
  intros Hty Hnull Hmin Hhas Hb Hneg Hlen.
  simpl. rewrite Hty; simpl. rewrite Hnull; simpl. rewrite andb_false_r. simpl.
  unfold check_int. rewrite Hmin; simpl. rewrite Hhas; simpl. rewrite Hb; simpl.
  now rewrite (size_le_negative _ _ Hneg Hlen).
Qed.

Lemma validate_negative_maxLen_accepts_all_witness :
  validate (str_t "abc") (obj_t [("type", str_t "string"); ("maxLen", int_t (-1))])
  = Returns true.
Proof.
  apply (validate_negative_maxLen_accepts_all
           "abc" (obj_t [("type", str_t "string"); ("maxLen", int_t (-1))])
           false (-1));
    try reflexivity; simpl; lia.
Defined.

(** *** The order of the entries *)

Lemma object_loop_checked f props o :
  forall status checked,
    object_loop f props o status checked
    = match object_loop f props o status [] with
      | Returns (s, c) => Returns (s, (checked ++ c)%list)
      | Throws e => Throws e
      | NoReturn => NoReturn
      | Diverges => Diverges
      end.
Proof.
  induction o as [|[k v] o IH]; intros status checked; simpl.
  - now rewrite app_nil_r.
  - destruct (find k props) as [sub|] eqn:Ek.
    + unfold map_at. rewrite Ek. simpl.
      destruct (f v sub) as [b| | |]; simpl; try reflexivity.
      rewrite (IH _ (checked ++ [k])%list), (IH _ [k]).
      destruct (object_loop f props o (status && b) []) as [[s c]| | |];
        try reflexivity.
      now rewrite <- app_assoc.
    + apply IH.
Qed.

Lemma object_loop_checked_length f props o status c1 c2 s c :
  object_loop f props o status c1 = Returns (s, c) ->
  List.length c1 = List.length c2 ->
  exists c', object_loop f props o status c2 = Returns (s, c')
             /\ List.length c' = List.length c.
Proof.
  intros H Hlen. rewrite object_loop_checked in H. rewrite object_loop_checked.
  destruct (object_loop f props o status []) as [[s0 c0]| | |]; try discriminate.
  inversion H; subst. eexists. split; [reflexivity|].
  rewrite !length_app. lia.
Qed.

Lemma object_loop_permutation f props o o' :
  Permutation o o' ->
  forall status checked s c,
    object_loop f props o status checked = Returns (s, c) ->
    exists c', object_loop f props o' status checked = Returns (s, c')
               /\ List.length c' = List.length c.
Proof.
  induction 1 as [| [k v] o o' Hp IH | [k1 v1] [k2 v2] o | o1 o2 o3 H1 IH1 H2 IH2];
    intros status checked s c H.
  - eauto.
  - simpl in *. destruct (find k props) as [sub|] eqn:Ek.
    + unfold map_at in *. rewrite Ek in *. simpl in *.
      destruct (f v sub) as [b| | |]; simpl in *; try discriminate.
      now apply IH.
    + now apply IH.
  - simpl in *. unfold map_at in *.
    destruct (find k1 props) as [sub1|] eqn:E1;
      destruct (find k2 props) as [sub2|] eqn:E2; simpl in *.
    + destruct (f v1 sub1) as [b1| | |]; simpl in *; try discriminate;
        destruct (f v2 sub2) as [b2| | |]; simpl in *; try discriminate.
      replace (status && b2 && b1)%bool with (status && b1 && b2)%bool in H
        by (destruct status, b1, b2; reflexivity).
      apply (object_loop_checked_length _ _ _ _ _ _ _ _ H).
      rewrite !length_app. simpl. lia.
    + destruct (f v1 sub1) as [b1| | |]; simpl in *; try discriminate.
      eauto.
    + destruct (f v2 sub2) as [b2| | |]; simpl in *; try discriminate.
      eauto.
    + eauto.
  - destruct (IH1 _ _ _ _ H) as (c1 & Hc1 & Hl1).
    destruct (IH2 _ _ _ _ Hc1) as (c2 & Hc2 & Hl2).
    exists c2. split; [exact Hc2 | congruence].
Qed.

(** X9: The verdict on an object does not depend on the order in which its
    entries are visited. *)
Theorem validate_object_order_irrelevant
        (o o' : list (string * jon)) (schema : jon) (b : bool) :
  Permutation o o' ->
  validate (obj_t o) schema = Returns b ->
  validate (obj_t o') schema = Returns b.
Proof.
  intros Hp H.
  destruct (validate_head _ _ _ H) as (name & ty & nullable & Hname & Hty & Hnull).
  simpl in *. rewrite Hname in *; simpl in *. rewrite Hty in *; simpl in *.
  rewrite Hnull in *; simpl in *. rewrite andb_false_r in *.
  destruct ty; simpl in *; try exact H.
  rewrite <- (Permutation_length Hp).
  destruct (check_int schema "minProps" _ true) as [s1| | |]; simpl in *; try discriminate.
  destruct (check_int schema "maxProps" _ s1) as [s2| | |]; simpl in *; try discriminate.
  destruct (at_obj schema "props") as [props| | |]; simpl in *; try discriminate.
  destruct (object_loop validate props o s2 []) as [[s3 ck]| | |] eqn:El;
    simpl in H; try discriminate.
  destruct (object_loop_permutation _ _ _ _ Hp _ _ _ _ El) as (ck' & El' & Hlen).
  rewrite El'. simpl. now rewrite Hlen.
Qed.

Lemma validate_object_order_irrelevant_witness :
  validate (obj_t [("b", int_t 2); ("a", int_t 1)]) (obj_t object_a_b) = Returns true.
Proof.
  apply (validate_object_order_irrelevant [("a", int_t 1); ("b", int_t 2)]).
  - apply perm_swap.
  - reflexivity.
Defined.


(** *** Properties that [props] does not cover *)

Lemma filter_all {A} (f : A -> bool) (l : list A) :
  (forall x, In x l -> f x = true) -> filter f l = l.
Proof.
  induction l as [|x l IH]; intros H; simpl; [reflexivity|].
  rewrite (H x (or_introl eq_refl)). f_equal. apply IH. intros y Hy. apply H. now right.
Qed.

(** C8, as the code has it: on an object schema whose own keys are well
    typed, when the data, with unique keys, holds a property that [props]
    does not declare, or lacks a declared property, [validate] never
    returns [true], and it returns [false] whenever the validation of
    every declared property's value returns. *)
Theorem object_props_closed_and_required
        (o objectValue props : list (string * jon)) :
  find "type" o = Some (str_t "object") ->
  optional is_bool "nullable" o = true ->
  optional is_int "minProps" o = true ->
  optional is_int "maxProps" o = true ->
  find "props" o = Some (obj_t props) ->
  nodupb (map fst objectValue) = true ->
  (exists k, In k (map fst objectValue) /\ find k props = None)
  \/ (exists k, In k (map fst props) /\ ~ In k (map fst objectValue)) ->
  validate (obj_t objectValue) (obj_t o) <> Returns true
  /\ ((forall k v sub, In (k, v) objectValue -> find k props = Some sub ->
                       exists b, validate v sub = Returns b) ->
      validate (obj_t objectValue) (obj_t o) = Returns false).
Proof.
  intros Hty Hnull Hmin Hmax Hprops Hnd Hbad. split.
  - intros H. remember (obj_t o) as schema eqn:Es.
    destruct (validate_head _ _ _ H) as (name & ty & nullable & Hname & Hty' & Hnull').
    simpl in H. rewrite Hname in H; simpl in H. rewrite Hty' in H; simpl in H.
    rewrite Hnull' in H; simpl in H. rewrite andb_false_r in H.
    destruct ty; simpl in H; try discriminate.
    destruct (check_int schema "minProps" _ true) as [s1| | |]; simpl in H;
      try discriminate.
    destruct (check_int schema "maxProps" _ s1) as [s2| | |]; simpl in H;
      try discriminate.
    destruct (at_obj schema "props") as [props'| | |] eqn:Ep; simpl in H;
      try discriminate.
    subst schema. rewrite (at_obj_obj _ _ _ Hprops) in Ep.
    inversion Ep; subst props'.
    destruct (object_loop validate props objectValue s2 []) as [[s3 ck]| | |] eqn:El;
      simpl in H; try discriminate.
    destruct (negb _) eqn:Elen; [discriminate|].
    inversion H; subst.
    destruct (object_loop_true _ _ _ _ _ _ _ El eq_refl) as (_ & Hck & Hall).
    assert (Hknown : forall k, In k (map fst objectValue) -> known props k = true).
    { intros k Hk. apply in_map_iff in Hk as [[k' v] [Hk' Hin]]. simpl in Hk'; subst k'.
      destruct (Hall k v Hin) as (sub & Hsub & _). unfold known. now rewrite Hsub. }
    destruct Hbad as [[k [Hin Hnone]] | [k [Hin Hnot]]].
    + specialize (Hknown k Hin). unfold known in Hknown. rewrite Hnone in Hknown.
      discriminate.
    + pose proof (checked_short props _ k (nodupb_NoDup _ Hnd) Hin Hnot) as Hlt.
      rewrite (filter_all _ _ Hknown) in Hlt.
      apply negb_false_iff, Nat.eqb_eq in Elen. rewrite Hck in Elen. simpl in Elen.
      lia.
  - intros Hsub.
    exact (validate_object_not_covered o objectValue props
             Hty Hnull Hmin Hmax Hprops Hnd Hsub Hbad).
Qed.

Lemma object_props_closed_and_required_witness :
  validate (obj_t [("a", int_t 1); ("z", int_t 2)]) (obj_t object_a_b) <> Returns true
  /\ validate (obj_t [("a", int_t 1); ("z", int_t 2)]) (obj_t object_a_b)
     = Returns false.
Proof.
  destruct (object_props_closed_and_required object_a_b
              [("a", int_t 1); ("z", int_t 2)]
              [("a", obj_t [("type", str_t "int")]); ("b", obj_t [("type", str_t "int")])]
              eq_refl eq_refl eq_refl eq_refl eq_refl eq_refl
              (or_introl (ex_intro _ "z" (conj (or_intror (or_introl eq_refl)) eq_refl))))
    as [Hnot Hfalse].
  split; [exact Hnot|]. apply Hfalse.
  intros k v sub [H | [H | []]] Hf; inversion H; subst; simpl in Hf;
    inversion Hf; subst; eexists; reflexivity.
Defined.

(** C8, as stated, fails.  The data with one and with two undeclared
    properties have one and two violations under the rules of the
    specification, yet [validate] returns the same [false] for both: no
    violation is recorded for an undeclared property.  And next to a
    declared property of type bool, an undeclared property does not make
    validation fail: the call on the bool value reaches the end of
    [validate], and so does the whole call. *)
Lemma undeclared_property_records_no_violation :
  Spec.violations one_undeclared (obj_t object_a_b) = [Spec.unknown_property "y"]
  /\ Spec.violations two_undeclared (obj_t object_a_b)
     = [Spec.unknown_property "y"; Spec.unknown_property "z"]
  /\ validate one_undeclared (obj_t object_a_b) = Returns false
  /\ validate two_undeclared (obj_t object_a_b) = Returns false
  /\ ~ (exists result : outcome bool -> ValidationResult,
          List.length (errors (result (validate one_undeclared (obj_t object_a_b))))
          = List.length (Spec.violations one_undeclared (obj_t object_a_b))
          /\ List.length (errors (result (validate two_undeclared (obj_t object_a_b))))
             = List.length (Spec.violations two_undeclared (obj_t object_a_b)))
  /\ validate extra_and_flag flag_schema = NoReturn.
Proof.
  repeat split; try reflexivity.
  intros [result [H1 H2]].
  change (validate two_undeclared (obj_t object_a_b))
    with (validate one_undeclared (obj_t object_a_b)) in H2.
  rewrite H1 in H2. discriminate.
Qed.

End SchemaMore.

(* ================================================================== *)
(** * Further properties of the scanner *)

Module LexerMore.
Import Lexer Cases Steps LexerFacts.
Local Open Scope lexer_scope.

(** *** The three ways the scanner changes its members *)

Lemma advance_step_get st c :
  String.get (index st) (source st) = Some c ->
  advance_step st = Returns (tt, stepped c st).
Proof.
  intros Hc. unfold advance_step. step (isNL_get _ _ Hc).
  unfold bind, get, put, stepped, bump. now destruct (Ascii.eqb c NL).
Qed.

Lemma advance_step_returns st u st' :
  advance_step st = Returns (u, st') ->
  exists c, String.get (index st) (source st) = Some c /\ st' = stepped c st.
Proof.
  intros H. destruct (String.get (index st) (source st)) as [c|] eqn:Hc.
  - rewrite (advance_step_get _ _ Hc) in H. inversion H. eauto.
  - unfold advance_step, bind, isNL, bind, peek, string_at in H.
    rewrite Hc in H. discriminate.
Qed.

Section Preservation.
Variable I : state -> Prop.
Hypothesis I_stepped :
  forall st c, I st -> String.get (index st) (source st) = Some c -> I (stepped c st).
Hypothesis I_token :
  forall st k v l, I st -> In k scanned_kinds ->
                   I (with_token (mkToken k v (mkSpan (tokenPos st) l)) st).
Hypothesis I_at_token : forall st, I st -> I (at_token st).

Lemma keeps_ret {A} (a : A) (Q : A -> Prop) : Q a -> keeps I (ret a) Q.
Proof. intros H st a' st' E Hi. inversion E; subst. auto. Qed.

Lemma keeps_bind {A B} (m : M A) (k : A -> M B) (Q : A -> Prop) (R : B -> Prop) :
  keeps I m Q -> (forall a, Q a -> keeps I (k a) R) -> keeps I (bind m k) R.
Proof.
  intros Hm Hk st b st' E Hi. unfold bind in E.
  destruct (m st) as [[a st1]| | |] eqn:Em; try discriminate.
  destruct (Hm _ _ _ Em Hi) as [Hi1 Ha]. exact (Hk a Ha _ _ _ E Hi1).
Qed.

Lemma keeps_throw {A} (e : exn) (Q : A -> Prop) : keeps I (throw e) Q.
Proof. intros st a st' E. discriminate. Qed.

Lemma keeps_spin {A} (Q : A -> Prop) : keeps I spin Q.
Proof. intros st a st' E. discriminate. Qed.

(** A call that leaves the members as they are. *)
Lemma keeps_same_state {A} (m : M A) :
  (forall st a st', m st = Returns (a, st') -> st' = st) ->
  keeps I m (fun _ => True).
Proof. intros H st a st' E Hi. rewrite (H _ _ _ E). auto. Qed.

Lemma keeps_peek : keeps I peek (fun _ => True).
Proof.
  apply keeps_same_state. intros st a st' E. unfold peek in E.
  destruct (string_at _ _); inversion E; reflexivity.
Qed.

Lemma keeps_eof : keeps I eof (fun _ => True).
Proof. apply keeps_same_state. intros st a st' E. inversion E; reflexivity. Qed.

Lemma keeps_lookup d : keeps I (lookup d) (fun _ => True).
Proof.
  apply keeps_same_state. intros st a st' E. unfold lookup in E.
  destruct (_ <? _); [destruct (string_at _ _)|]; inversion E; reflexivity.
Qed.

Ltac keeps_step :=
  first
    [ apply keeps_ret
    | apply keeps_throw
    | apply keeps_spin
    | eapply keeps_bind with (Q := fun _ => True); [| intros ? _]
    | match goal with
      | |- keeps _ (if ?b then _ else _) _ => destruct b
      | |- keeps _ (let '(_, _) := ?r in _) _ => destruct r
      | |- keeps _ (match ?r with (_, _) => _ end) _ => destruct r
      end ].

Ltac keeps_auto lemmas := repeat (first [ lemmas | keeps_step ]); simpl in *; auto.

Ltac same_state_calls :=
  first [ apply keeps_peek | apply keeps_eof | apply keeps_lookup ].

Lemma keeps_isNL : keeps I isNL (fun _ => True).
Proof. unfold isNL. keeps_auto same_state_calls. Qed.

Lemma keeps_is c : keeps I (is_ c) (fun _ => True).
Proof. unfold is_. keeps_auto same_state_calls. Qed.

Lemma keeps_isAnyOf l : keeps I (isAnyOf l) (fun _ => True).
Proof. unfold isAnyOf. keeps_auto same_state_calls. Qed.

Lemma keeps_isDigit : keeps I isDigit (fun _ => True).
Proof. unfold isDigit. keeps_auto same_state_calls. Qed.

Lemma keeps_isHexDigit : keeps I isHexDigit (fun _ => True).
Proof. unfold isHexDigit. keeps_auto ltac:(first [apply keeps_isDigit | same_state_calls]). Qed.

Lemma keeps_isOctDigit : keeps I isOctDigit (fun _ => True).
Proof. unfold isOctDigit. keeps_auto same_state_calls. Qed.

Lemma keeps_isSeq a b c : keeps I (isSeq a b c) (fun _ => True).
Proof. unfold isSeq. keeps_auto same_state_calls. Qed.

Lemma keeps_peek_then_lookup a b : keeps I (peek_then_lookup a b) (fun _ => True).
Proof. unfold peek_then_lookup. keeps_auto same_state_calls. Qed.

Lemma keeps_advance_step : keeps I advance_step (fun _ => True).
Proof.
  intros st u st' E Hi. destruct (advance_step_returns _ _ _ E) as (c & Hc & ->).
  split; [now apply I_stepped | exact Logic.I].
Qed.

Lemma keeps_advance_steps d : keeps I (advance_steps d) (fun _ => True).
Proof.
  induction d; simpl; keeps_auto ltac:(first [apply keeps_advance_step | apply IHd]).
Qed.

Lemma keeps_advance d : keeps I (advance d) (fun _ => True).
Proof.
  unfold advance. keeps_auto ltac:(first [apply keeps_advance_steps | same_state_calls]).
Qed.

Lemma keeps_addToken k v : In k scanned_kinds -> keeps I (addToken k v) (fun _ => True).
Proof.
  intros Hk st u st' E Hi. inversion E; subst. split; [|exact Logic.I].
  now apply (I_token st k v (String.length v)).
Qed.

Lemma keeps_addToken_len k l :
  In k scanned_kinds -> keeps I (addToken_len k l) (fun _ => True).
Proof.
  intros Hk st u st' E Hi. inversion E; subst. split; [|exact Logic.I].
  now apply (I_token st k "" l).
Qed.

Lemma keeps_addTokenAdvance k l :
  In k scanned_kinds -> keeps I (addTokenAdvance k l) (fun _ => True).
Proof.
  intros Hk. unfold addTokenAdvance.
  eapply keeps_bind; [apply keeps_advance|]. intros _ _. now apply keeps_addToken_len.
Qed.

Lemma keeps_set_tokenPos : keeps I set_tokenPos (fun _ => True).
Proof.
  intros st u st' E Hi. inversion E; subst. split; [|exact Logic.I].
  now apply I_at_token.
Qed.

Lemma keeps_error {A} fuel msg (Q : A -> Prop) : keeps I (error fuel msg) Q.
Proof. intros st a st' E. now apply error_no_return in E. Qed.

Lemma keeps_expectedError {A} fuel expected (Q : A -> Prop) :
  keeps I (expectedError fuel expected) Q.
Proof.
  unfold expectedError.
  keeps_auto ltac:(first [apply keeps_error | apply keeps_isNL | same_state_calls]).
Qed.

Ltac scanned := unfold scanned_kinds; simpl; tauto.

Ltac member_calls :=
  first [ apply keeps_error | apply keeps_expectedError | apply keeps_advance
        | apply keeps_isNL | apply keeps_is | apply keeps_isAnyOf | apply keeps_isDigit
        | apply keeps_isHexDigit | apply keeps_isOctDigit | apply keeps_isSeq
        | apply keeps_peek_then_lookup | apply keeps_set_tokenPos
        | apply keeps_addToken; scanned
        | apply keeps_addToken_len; scanned
        | apply keeps_addTokenAdvance; scanned
        | same_state_calls ].

Lemma keeps_skip fuel c : keeps I (skip fuel c) (fun _ => True).
Proof. unfold skip. keeps_auto member_calls. Qed.

Lemma keeps_skipOpt c : keeps I (skipOpt c) (fun _ => True).
Proof. unfold skipOpt. keeps_auto member_calls. Qed.

Lemma keeps_lexComment fuel : keeps I (lexComment fuel) (fun _ => True).
Proof.
  assert (Hblock : forall n d, keeps I (lexComment_block n d) (fun _ => True)).
  { induction n; intros d; simpl; keeps_auto ltac:(first [apply IHn | member_calls]). }
  assert (Hline : forall n, keeps I (lexComment_line n) (fun _ => True)).
  { induction n; simpl; keeps_auto ltac:(first [apply IHn | member_calls]). }
  unfold lexComment.
  keeps_auto ltac:(first [apply Hblock | apply Hline | member_calls]).
Qed.

Lemma keeps_lexString fuel : keeps I (lexString fuel) (fun _ => True).
Proof.
  assert (Hml : forall n q v, keeps I (lexMLString_loop n q v) (fun _ => True)).
  { induction n; intros q v; simpl; keeps_auto ltac:(first [apply IHn | member_calls]). }
  assert (Hnormal : forall n q v, keeps I (lexNormalString_loop n q v) (fun _ => True)).
  { induction n; intros q v; simpl; keeps_auto ltac:(first [apply IHn | member_calls]). }
  unfold lexString, lexMLString, lexNormalString.
  keeps_auto ltac:(first [apply Hml | apply Hnormal | apply keeps_skip | member_calls]).
Qed.

Lemma keeps_digits_loop fuel isD v :
  keeps I isD (fun _ => True) -> keeps I (digits_loop fuel isD v) (fun _ => True).
Proof.
  intros HD. revert v. induction fuel; intros v; simpl;
    keeps_auto ltac:(first [apply IHfuel | apply HD | apply keeps_skipOpt | member_calls]).
Qed.

Lemma keeps_based_block fuel sign lo up msg isD expected k locals :
  keeps I isD (fun _ => True) ->
  In k scanned_kinds ->
  In (fst (fst locals)) scanned_kinds ->
  keeps I (based_block fuel sign lo up msg isD expected k locals)
        (fun r => In (fst (fst r)) scanned_kinds).
Proof.
  intros HD Hk Hl. unfold based_block. destruct locals as [[k0 v] b].
  keeps_auto ltac:(first [apply (keeps_digits_loop fuel isD _ HD) | apply HD | member_calls]).
Qed.

Lemma keeps_lexNum fuel : keeps I (lexNum fuel) (fun _ => True).
Proof.
  unfold lexNum.
  eapply keeps_bind; [apply keeps_is|]. intros plus _.
  eapply keeps_bind with (Q := fun _ => True); [keeps_auto member_calls|].
  intros [v sign] _.
  eapply keeps_bind;
    [apply keeps_based_block; [apply keeps_isAnyOf | scanned | scanned]|].
  intros l1 H1.
  eapply keeps_bind; [apply keeps_based_block; [apply keeps_isHexDigit | scanned | exact H1]|].
  intros l2 H2.
  eapply keeps_bind; [apply keeps_based_block; [apply keeps_isOctDigit | scanned | exact H2]|].
  intros [[k v'] baseSpecific] H3. simpl in H3.
  destruct baseSpecific; [now apply keeps_addToken|].
  keeps_auto ltac:(first [apply (keeps_digits_loop fuel isDigit _ keeps_isDigit)
                         | member_calls]).
Qed.

Lemma keeps_lexMisc fuel : keeps I (lexMisc fuel) (fun _ => True).
Proof.
  assert (Hloop : forall n v, keeps I (lexMisc_loop n v) (fun _ => True)).
  { induction n; intros v; simpl; keeps_auto ltac:(first [apply IHn | member_calls]). }
  unfold lexMisc, isHidden.
  keeps_auto ltac:(first [apply Hloop | apply keeps_lexNum | member_calls]).
Qed.

Lemma keeps_lexCurrent fuel : keeps I (lexCurrent fuel) (fun _ => True).
Proof.
  unfold lexCurrent.
  keeps_auto ltac:(first [apply keeps_lexComment | apply keeps_lexString
                         | apply keeps_lexMisc | member_calls]).
Qed.

(** Every property of the members that survives one round of [advance],
    the addition of a token of a scanned kind at [tokenPos], and
    [tokenPos = index], survives the main loop of [lex]. *)
Lemma keeps_lex_loop fuel inner : keeps I (lex_loop fuel inner) (fun _ => True).
Proof.
  induction fuel; simpl;
    keeps_auto ltac:(first [apply IHfuel | apply keeps_lexCurrent | member_calls]).
Qed.


End Preservation.

(** *** The shape of every token stream *)

Lemma sorted_snoc (l : list nat) (x : nat) :
  Sorted le l -> Forall (fun y => (y <= x)%nat) l -> Sorted le (l ++ [x]).
Proof.
  induction l as [|y l IH]; intros Hs Hall; simpl.
  - repeat constructor.
  - inversion Hs; subst. inversion Hall; subst. constructor; [auto|].
    destruct l as [|z l]; simpl; constructor; [assumption|].
    inversion H2; assumption.
Qed.

Lemma scanning_stepped src st c :
  scanning src st -> String.get (index st) (source st) = Some c ->
  scanning src (stepped c st).
Proof.
  intros (Hsrc & Hnl & Hidx & Hpos & Htok & Hsort) Hc.
  pose proof (get_lt _ _ _ Hc) as Hlt. rewrite Hsrc in Hlt.
  unfold scanning, stepped, bump. destruct (Ascii.eqb c NL); simpl;
    repeat split; auto; try lia;
    (eapply Forall_impl; [|exact Htok]); simpl; intros t [? ?]; split; auto.
Qed.

Lemma scanning_token src st k v l :
  scanning src st -> In k scanned_kinds ->
  scanning src (with_token (mkToken k v (mkSpan (tokenPos st) l)) st).
Proof.
  intros (Hsrc & Hnl & Hidx & Hpos & Htok & Hsort) Hk.
  unfold scanning, with_token; simpl. repeat split; auto.
  - apply Forall_app. split; [assumption|]. constructor; [|constructor].
    simpl. split; [assumption | lia].
  - unfold offsets. rewrite map_app. simpl. apply sorted_snoc; [assumption|].
    apply Forall_map. eapply Forall_impl; [|exact Htok]. simpl. tauto.
Qed.

Lemma scanning_at_token src st : scanning src st -> scanning src (at_token st).
Proof.
  intros (Hsrc & Hnl & Hidx & Hpos & Htok & Hsort).
  unfold scanning, at_token; simpl. repeat split; auto.
  eapply Forall_impl; [|exact Htok]. simpl. intros t [? ?]. split; [assumption | lia].
Qed.

(** The main loop returns only at the end of the source. *)
Lemma lex_loop_returns_at_end fuel inner st u st' :
  lex_loop fuel inner st = Returns (u, st') -> (size st' <= index st')%nat.
Proof.
  revert st. induction fuel as [|fuel IH]; intros st H; simpl in H; [discriminate|].
  unfold bind at 1 in H. unfold eof at 1 in H.
  destruct (Nat.leb (size st) (index st)) eqn:E.
  - inversion H; subst. now apply Nat.leb_le.
  - unfold bind at 1 in H. destruct (set_tokenPos st) as [[? st1]| | |]; try discriminate.
    unfold bind at 1 in H.
    destruct (lexCurrent inner st1) as [[? st2]| | |]; try discriminate.
    exact (IH _ H).
Qed.

(** What [lex] returns, in terms of the members when the main loop ends. *)
Lemma lex_returns fuel src toks :
  lex fuel src = Returns toks ->
  exists st,
    scanning src st /\ index st = String.length src
    /\ toks = (tokens st ++ [mkToken TokenKind.Eof "" (mkSpan (String.length src) 0)])%list.
Proof.
  unfold lex. intros H.
  unfold bind at 1 in H.
  destruct (lex_loop fuel fuel (mkState src 0 0 0 0 [])) as [[u st]| | |] eqn:Eloop;
    try discriminate.
  assert (Hinit : scanning src (mkState src 0 0 0 0 [])).
  { unfold scanning; simpl. repeat split; auto; try lia; constructor. }
  destruct (keeps_lex_loop (scanning src) (scanning_stepped src) (scanning_token src)
              (scanning_at_token src) fuel fuel _ _ _ Eloop Hinit) as [Hst _].
  pose proof (lex_loop_returns_at_end _ _ _ _ _ Eloop) as Hend.
  destruct Hst as (Hsrc & Hnl & Hidx & Hpos & Htok & Hsort).
  assert (Hi : index st = String.length src).
  { unfold size in Hend. rewrite Hsrc in Hend. lia. }
  exists st. split; [repeat split; assumption|]. split; [assumption|].
  simpl in H. inversion H; subst. simpl. now rewrite Hi.
Qed.

(** X10: Every token stream [lex] returns is a run of tokens of the scanned
    kinds followed by one [Eof] token of length 0 placed at the length of
    the source; [Eof] occurs nowhere else. *)
Theorem lex_ends_with_single_Eof (fuel : nat) (src : string) (toks : TokenStream) :
  lex fuel src = Returns toks ->
  exists body,
    toks = (body ++ [mkToken TokenKind.Eof "" (mkSpan (String.length src) 0)])%list
    /\ Forall (fun t => kind t <> TokenKind.Eof) body.
Proof.
  intros H. destruct (lex_returns _ _ _ H) as (st & Hst & Hi & ->).
  exists (tokens st). split; [reflexivity|].
  destruct Hst as (_ & _ & _ & _ & Htok & _).
  eapply Forall_impl; [|exact Htok]. simpl. intros t [Hk _] E. rewrite E in Hk.
  unfold scanned_kinds in Hk. simpl in Hk.
  repeat destruct Hk as [Hk | Hk]; try discriminate Hk. exact Hk.
Qed.

Lemma lex_ends_with_single_Eof_witness :
  exists body,
    [mkToken TokenKind.False "" (mkSpan 0 4);
     mkToken TokenKind.NL "" (mkSpan 4 1);
     mkToken TokenKind.Eof "" (mkSpan 5 0)]
    = (body ++ [mkToken TokenKind.Eof "" (mkSpan (String.length true_line) 0)])%list
    /\ Forall (fun t => kind t <> TokenKind.Eof) body.
Proof.
  exact (lex_ends_with_single_Eof 5 true_line
           [mkToken TokenKind.False "" (mkSpan 0 4);
            mkToken TokenKind.NL "" (mkSpan 4 1);
            mkToken TokenKind.Eof "" (mkSpan 5 0)]
           eq_refl).
Defined.

(** X11: The tokens of every stream [lex] returns start at non-decreasing
    offsets, none past the end of the source. *)
Theorem lex_offsets_sorted (fuel : nat) (src : string) (toks : TokenStream) :
  lex fuel src = Returns toks ->
  Sorted le (offsets toks)
  /\ Forall (fun t => (pos (span t) <= String.length src)%nat) toks.
Proof.
  intros H. destruct (lex_returns _ _ _ H) as (st & Hst & Hi & ->).
  destruct Hst as (_ & _ & _ & Hpos & Htok & Hsort). split.
  - unfold offsets. rewrite map_app. simpl. apply sorted_snoc; [assumption|].
    apply Forall_map. eapply Forall_impl; [|exact Htok]. simpl. intros t [_ ?]. lia.
  - apply Forall_app. split.
    + eapply Forall_impl; [|exact Htok]. simpl. intros t [_ ?]. lia.
    + constructor; [simpl; lia | constructor].
Qed.

Lemma lex_offsets_sorted_witness :
  Sorted le (offsets [mkToken TokenKind.False "" (mkSpan 0 4);
                      mkToken TokenKind.NL "" (mkSpan 4 1);
                      mkToken TokenKind.Eof "" (mkSpan 5 0)])
  /\ Forall (fun t => (pos (span t) <= String.length true_line)%nat)
            [mkToken TokenKind.False "" (mkSpan 0 4);
             mkToken TokenKind.NL "" (mkSpan 4 1);
             mkToken TokenKind.Eof "" (mkSpan 5 0)].
Proof.
  exact (lex_offsets_sorted 5 true_line
           [mkToken TokenKind.False "" (mkSpan 0 4);
            mkToken TokenKind.NL "" (mkSpan 4 1);
            mkToken TokenKind.Eof "" (mkSpan 5 0)]
           eq_refl).
Defined.

(** X12: A [Bool] node can only be built from a token of kind [True] or
    [False], and [lex] returns no token of kind [True]: every [Bool] node
    built from a scanned token holds [false]. *)
Theorem Bool_of_scanned_token_is_false
        (fuel : nat) (src : string) (toks : TokenStream) (t : Token) (b : bool) :
  lex fuel src = Returns toks ->
  In t toks ->
  Bool_ctor t = Returns b ->
  b = false.
Proof.
  intros H Hin Hb.
  pose proof (lex_tokens_clean fuel src toks H) as Hclean.
  unfold clean in Hclean. rewrite Forall_forall in Hclean. specialize (Hclean t Hin).
  unfold Bool_ctor in Hb. destruct (kind t); try discriminate; now inversion Hb.
Qed.

Lemma Bool_of_scanned_token_is_false_witness : false = false.
Proof.
  exact (Bool_of_scanned_token_is_false 5 true_line
           [mkToken TokenKind.False "" (mkSpan 0 4);
            mkToken TokenKind.NL "" (mkSpan 4 1);
            mkToken TokenKind.Eof "" (mkSpan 5 0)]
           (mkToken TokenKind.False "" (mkSpan 0 4)) false
           eq_refl (or_introl eq_refl) eq_refl).
Defined.

(** *** Reading characters *)

Lemma advance_one st c :
  String.get (index st) (source st) = Some c ->
  advance 1 st
  = Returns (if Nat.leb (size st) (S (index st)) then NUL else c, stepped c st).
Proof.
  intros Hc. unfold advance. step (peek_get _ _ Hc).
  assert (Hs : advance_steps 1 st = Returns (tt, stepped c st)).
  { simpl. now step (advance_step_get _ _ Hc). }
  step Hs. unfold bind, eof.
  replace (size (stepped c st)) with (size st)
    by (unfold stepped, bump; destruct (Ascii.eqb c NL); reflexivity).
  replace (index (stepped c st)) with (S (index st))
    by (unfold stepped, bump; destruct (Ascii.eqb c NL); reflexivity).
  now destruct (Nat.leb _ _).
Qed.

Lemma stepped_plain c st : c <> NL -> stepped c st = bump st.
Proof. intros H. unfold stepped. apply Ascii.eqb_neq in H. now rewrite H. Qed.

(** [advance(2)] over two characters that are not newlines. *)
Lemma advance_two_plain st c1 c2 :
  String.get (index st) (source st) = Some c1 ->
  String.get (S (index st)) (source st) = Some c2 ->
  c1 <> NL -> c2 <> NL ->
  exists r, advance 2 st = Returns (r, bump (bump st)).
Proof.
  intros H1 H2 N1 N2. unfold advance. step (peek_get _ _ H1).
  assert (Hs : advance_steps 2 st = Returns (tt, bump (bump st))).
  { simpl. step (advance_step_get _ _ H1). rewrite (stepped_plain _ _ N1).
    assert (H2' : String.get (index (bump st)) (source (bump st)) = Some c2) by exact H2.
    step (advance_step_get _ _ H2'). now rewrite (stepped_plain _ _ N2). }
  step Hs. unfold bind, eof. destruct (Nat.leb _ _); eexists; reflexivity.
Qed.

(** The character [lookup(1)] returns: the next one, or NUL at the end. *)
Lemma lookup_next st :
  (index st < size st)%nat -> Z.of_nat (size st) < 2 ^ 64 ->
  lookup 1 st
  = Returns (match String.get (S (index st)) (source st) with
             | Some c => c
             | None => NUL
             end, st).
Proof.
  intros Hin Hsize.
  destruct (String.get (S (index st)) (source st)) as [c|] eqn:Hc.
  - apply lookup_inside; [assumption|].
    now replace (index st + 1)%nat with (S (index st)) by lia.
  - apply lookup_past_end; try lia.
    destruct (Nat.le_gt_cases (size st) (index st + 1)) as [H|H]; [assumption|].
    destruct (get_in_range (source st) (S (index st))) as [c' Hc'];
      [unfold size in H; lia | congruence].
Qed.

Lemma iter_bump_tokens n st : tokens (Nat.iter n bump st) = tokens st.
Proof. induction n; simpl; auto. Qed.

Lemma iter_bump_tokenPos n st : tokenPos (Nat.iter n bump st) = tokenPos st.
Proof. induction n; simpl; auto. Qed.

(** *** Comments *)

(** X13: A [/] that starts a token and is followed by neither [*] nor [/] is
    left where it is by [lexComment], so the main loop of [lex] meets it
    again and again: scanning does not terminate. *)
Theorem lone_slash_never_terminates (fuel inner : nat) (st : state) :
  String.get (index st) (source st) = Some "/"%char ->
  (forall c, String.get (S (index st)) (source st) = Some c ->
             c <> "*"%char /\ c <> "/"%char) ->
  Z.of_nat (size st) < 2 ^ 64 ->
  lex_loop fuel inner st = Diverges.
Proof.
  revert st. induction fuel as [|fuel IH]; intros st Hslash Hnext Hsize; [reflexivity|].
  pose proof (get_lt _ _ _ Hslash) as Hin. fold (size st) in Hin.
  simpl lex_loop. step (eof_inside _ Hin).
  step (eq_refl : set_tokenPos st = Returns (tt, at_token st)).
  assert (Hcur : lexCurrent inner (at_token st) = Returns (tt, at_token st)).
  { unfold lexCurrent.
    step (peek_get (at_token st) _ Hslash). simpl.
    unfold lexComment. step (peek_get (at_token st) _ Hslash). simpl.
    step (lookup_next (at_token st) Hin Hsize). simpl.
    destruct (String.get (S (index st)) (source st)) as [c|] eqn:Hc.
    - destruct (Hnext c eq_refl) as [H1 H2].
      apply Ascii.eqb_neq in H1, H2. now rewrite H1, H2.
    - reflexivity. }
  step Hcur. apply (IH (at_token st)); assumption.
Qed.

Lemma lone_slash_never_terminates_witness :
  lex_loop 7 7 (mkState "/ 2" 0 0 0 0 []) = Diverges.
Proof.
  apply (lone_slash_never_terminates 7 7 (mkState "/ 2" 0 0 0 0 []) eq_refl).
  - simpl. intros c H. inversion H; subst. split; discriminate.
  - vm_compute; reflexivity.
Defined.

(** X14: After the opener of a block comment, a character that is neither [/]
    nor [*] stops the scanner for good: the loop of [lexComment] does not
    advance, whatever follows in the source. *)
Theorem block_comment_never_terminates (fuel inner : nat) (st : state) (c : ascii) :
  String.get (index st) (source st) = Some "/"%char ->
  String.get (S (index st)) (source st) = Some "*"%char ->
  String.get (S (S (index st))) (source st) = Some c ->
  c <> "/"%char -> c <> "*"%char ->
  Z.of_nat (size st) < 2 ^ 64 ->
  lex_loop fuel inner st = Diverges.
Proof.
  intros Hslash Hstar Hc Hc1 Hc2 Hsize.
  destruct fuel as [|fuel]; [reflexivity|].
  pose proof (get_lt _ _ _ Hslash) as Hin. fold (size st) in Hin.
  simpl lex_loop. step (eof_inside _ Hin).
  step (eq_refl : set_tokenPos st = Returns (tt, at_token st)).
  apply bind_Diverges.
  unfold lexCurrent. step (peek_get (at_token st) _ Hslash). simpl.
  unfold lexComment. step (peek_get (at_token st) _ Hslash). simpl.
  step (lookup_next (at_token st) Hin Hsize). simpl. rewrite Hstar. simpl.
  destruct (advance_two_plain (at_token st) "/" "*" Hslash Hstar) as [r Hr];
    [discriminate | discriminate |].
  step Hr.
  now apply (lexComment_block_spins inner 1 (bump (bump (at_token st))) c).
Qed.

Lemma block_comment_never_terminates_witness :
  lex_loop 3 3 (mkState "/* x */" 0 0 0 0 []) = Diverges.
Proof.
  apply (block_comment_never_terminates 3 3 (mkState "/* x */" 0 0 0 0 []) " "%char
           eq_refl eq_refl eq_refl); try discriminate. vm_compute; reflexivity.
Defined.

Lemma peek_then_lookup_get st a b x :
  String.get (index st) (source st) = Some x ->
  Z.of_nat (size st) < 2 ^ 64 ->
  peek_then_lookup a b st
  = Returns ((Ascii.eqb x a
              && Ascii.eqb (match String.get (S (index st)) (source st) with
                            | Some c => c
                            | None => NUL
                            end) b)%bool, st).
Proof.
  intros Hx Hsize. pose proof (get_lt _ _ _ Hx) as Hin. fold (size st) in Hin.
  unfold peek_then_lookup. step (peek_get _ _ Hx).
  destruct (Ascii.eqb x a); [|reflexivity].
  now step (lookup_next st Hin Hsize).
Qed.

(** On a nested opener the loop of [lexComment] counts [depth] up, round
    after round without advancing, until the 8-bit counter wraps to 0. *)
Lemma lexComment_block_wraps (st : state) (m : nat) :
  String.get (index st) (source st) = Some "/"%char ->
  String.get (S (index st)) (source st) = Some "*"%char ->
  Z.of_nat (size st) < 2 ^ 64 ->
  forall (fuel : nat) (depth : Z),
    0 < depth < 256 -> depth + Z.of_nat m = 256 -> (m <= fuel)%nat ->
    lexComment_block fuel depth st = Returns (tt, st).
Proof.
  intros Hslash Hstar Hsize.
  pose proof (get_lt _ _ _ Hslash) as Hin. fold (size st) in Hin.
  induction m as [|m IH]; intros fuel depth Hpos Hsum Hfuel; [lia|].
  destruct fuel as [|fuel]; [lia|]. simpl.
  step (eof_inside _ Hin).
  step (peek_then_lookup_get st "/" "*" _ Hslash Hsize). rewrite Hstar. simpl.
  step (peek_then_lookup_get st "*" "/" _ Hslash Hsize). simpl.
  destruct m as [|m].
  - replace (depth + 1) with 256 by lia. reflexivity.
  - unfold u8. rewrite Z.mod_small by lia.
    replace (depth + 1 =? 0) with false by (symmetry; apply Z.eqb_neq; lia).
    apply IH; lia.
Qed.

(** X15: When the body of a block comment starts with a closer or with another
    opener, [lexComment] consumes the two characters of the opener and
    nothing else: a closer brings [depth] to 0 at once and stays in the
    input, and a nested opener ends the loop when [depth] wraps to 0 after
    255 rounds. *)
Theorem block_comment_consumes_opener_only (inner : nat) (st : state) (a b : ascii) :
  String.get (index st) (source st) = Some "/"%char ->
  String.get (S (index st)) (source st) = Some "*"%char ->
  String.get (S (S (index st))) (source st) = Some a ->
  String.get (S (S (S (index st)))) (source st) = Some b ->
  (a = "*"%char /\ b = "/"%char) \/ (a = "/"%char /\ b = "*"%char) ->
  (255 <= inner)%nat ->
  Z.of_nat (size st) < 2 ^ 64 ->
  lexCurrent inner st = Returns (tt, bump (bump st)).
Proof.
  intros Hslash Hstar Ha Hb Hab Hfuel Hsize.
  pose proof (get_lt _ _ _ Hslash) as Hin. fold (size st) in Hin.
  unfold lexCurrent. step (peek_get st _ Hslash). simpl.
  unfold lexComment. step (peek_get st _ Hslash). simpl.
  step (lookup_next st Hin Hsize). rewrite Hstar. simpl.
  destruct (advance_two_plain st "/" "*" Hslash Hstar) as [r Hr];
    [discriminate | discriminate |].
  step Hr.
  set (st2 := bump (bump st)).
  assert (Ha2 : String.get (index st2) (source st2) = Some a) by exact Ha.
  assert (Hb2 : String.get (S (index st2)) (source st2) = Some b) by exact Hb.
  destruct Hab as [[-> ->] | [-> ->]].
  - destruct inner as [|inner]; [lia|]. simpl.
    step (eof_inside st2 (get_lt _ _ _ Ha2)).
    step (peek_then_lookup_get st2 "/" "*" _ Ha2 Hsize). simpl.
    step (peek_then_lookup_get st2 "*" "/" _ Ha2 Hsize). rewrite Hb2. reflexivity.
  - apply (lexComment_block_wraps st2 255 Ha2 Hb2 Hsize); lia.
Qed.

Lemma block_comment_consumes_opener_only_witness :
  lexCurrent 255 (mkState "/**/" 0 0 0 0 []) = Returns (tt, mkState "/**/" 2 0 2 0 []).
Proof.
  apply (block_comment_consumes_opener_only 255 (mkState "/**/" 0 0 0 0 [])
           "*"%char "/"%char eq_refl eq_refl eq_refl eq_refl
           (or_introl (conj eq_refl eq_refl)) (le_n 255)).
  vm_compute; reflexivity.
Defined.

(** The loop of a line comment over characters that are not newlines, up
    to a newline or to the end of the source. *)
Lemma lexComment_line_runs (n : nat) :
  forall (fuel : nat) (st : state),
    (n < fuel)%nat ->
    (forall i, (i <= n)%nat ->
       exists c, String.get (index st + i) (source st) = Some c /\ c <> NL) ->
    (String.get (index st + S n) (source st) = Some NL ->
     lexComment_line fuel st = Returns (tt, Nat.iter (S n) bump st))
    /\ (size st = (index st + S n)%nat ->
        lexComment_line fuel st = Throws out_of_range).
Proof.
  induction n as [|n IH]; intros fuel st Hfuel Hbody;
    (destruct fuel as [|fuel]; [lia|]);
    destruct (Hbody 0%nat ltac:(lia)) as (c & Hc & Hcnl);
    rewrite Nat.add_0_r in Hc;
    pose proof (get_lt _ _ _ Hc) as Hin; fold (size st) in Hin;
    simpl lexComment_line; step (eof_inside _ Hin);
    step (advance_one _ _ Hc); rewrite (stepped_plain _ _ Hcnl).
  - split.
    + intros Hnl. replace (index st + 1)%nat with (S (index st)) in Hnl by lia.
      assert (Hnl' : String.get (index (bump st)) (source (bump st)) = Some NL)
        by exact Hnl.
      step (isNL_get _ _ Hnl'). reflexivity.
    + intros Hend. apply bind_Throws. unfold isNL. apply bind_Throws.
      apply peek_past_end. simpl. change (size (bump st)) with (size st). lia.
  - destruct (Hbody 1%nat ltac:(lia)) as (c1 & Hc1 & Hc1nl).
    replace (index st + 1)%nat with (S (index st)) in Hc1 by lia.
    assert (Hc1' : String.get (index (bump st)) (source (bump st)) = Some c1)
      by exact Hc1.
    step (isNL_get _ _ Hc1').
    replace (Ascii.eqb c1 NL) with false by (symmetry; now apply Ascii.eqb_neq).
    destruct (IH fuel (bump st)) as [Hto_nl Hto_end].
    + lia.
    + intros i Hi. destruct (Hbody (S i) ltac:(lia)) as (c' & Hc' & ?).
      exists c'. simpl. rewrite <- Nat.add_succ_r. auto.
    + split.
      * intros Hnl. rewrite iter_bump_shift in Hto_nl. apply Hto_nl.
        simpl. now rewrite <- Nat.add_succ_r.
      * intros Hend. apply Hto_end. simpl. change (size (bump st)) with (size st). lia.
Qed.

Lemma lexCurrent_line_comment inner st :
  String.get (index st) (source st) = Some "/"%char ->
  String.get (S (index st)) (source st) = Some "/"%char ->
  Z.of_nat (size st) < 2 ^ 64 ->
  lexCurrent inner st = lexComment_line inner st.
Proof.
  intros H1 H2 Hsize. pose proof (get_lt _ _ _ H1) as Hin. fold (size st) in Hin.
  unfold lexCurrent. step (peek_get st _ H1). simpl.
  unfold lexComment. step (peek_get st _ H1). simpl.
  step (lookup_next st Hin Hsize). rewrite H2. reflexivity.
Qed.

(** X16: A line comment is consumed up to the newline that ends it, which stays
    in the input; no token is added and [lastNl] is unchanged. *)
Theorem line_comment_skipped (inner : nat) (st : state) (nlpos : nat) :
  String.get (index st) (source st) = Some "/"%char ->
  String.get (S (index st)) (source st) = Some "/"%char ->
  (S (index st) < nlpos)%nat ->
  String.get nlpos (source st) = Some NL ->
  (forall i, (index st < i < nlpos)%nat -> String.get i (source st) <> Some NL) ->
  (nlpos - index st <= inner)%nat ->
  Z.of_nat (size st) < 2 ^ 64 ->
  exists st',
    lexCurrent inner st = Returns (tt, st')
    /\ source st' = source st /\ index st' = nlpos
    /\ tokens st' = tokens st /\ lastNl st' = lastNl st.
Proof.
  intros H1 H2 Hlt Hnl Hbody Hfuel Hsize.
  pose proof (get_lt _ _ _ Hnl) as Hnlsize.
  set (n := (nlpos - index st - 1)%nat).
  destruct (lexComment_line_runs n inner st) as [Hrun _].
  { lia. }
  { intros i Hi. destruct i as [|i].
    - exists "/"%char. rewrite Nat.add_0_r. split; [assumption | discriminate].
    - destruct (get_in_range (source st) (index st + S i)) as [c Hc]; [lia|].
      exists c. split; [assumption|]. intros ->. apply (Hbody (index st + S i)%nat); [lia|].
      assumption. }
  exists (Nat.iter (S n) bump st).
  rewrite (lexCurrent_line_comment inner st H1 H2 Hsize).
  split; [apply Hrun; now replace (index st + S n)%nat with nlpos by lia|].
  rewrite iter_bump_source, iter_bump_index, iter_bump_tokens, iter_bump_lastNl.
  repeat split; lia.
Qed.

Lemma line_comment_skipped_witness :
  exists st',
    lexCurrent 5 (mkState ("// x" ++ str1 NL ++ "1") 0 0 0 0 []) = Returns (tt, st')
    /\ source st' = "// x" ++ str1 NL ++ "1" /\ index st' = 4%nat
    /\ tokens st' = [] /\ lastNl st' = 0%nat.
Proof.
  apply (line_comment_skipped 5 (mkState ("// x" ++ str1 NL ++ "1") 0 0 0 0 []) 4
           eq_refl eq_refl).
  - simpl; lia.
  - reflexivity.
  - simpl. intros i Hi. destruct i as [|[|[|[|i]]]]; try lia; discriminate.
  - simpl; lia.
  - vm_compute; reflexivity.
Defined.

(** X17: A line comment that runs to the end of the source, with no newline
    after it, makes [isNL] read past the end: [lex] exits by the
    [std::out_of_range] of [source.at]. *)
Theorem line_comment_at_end_out_of_range (outer inner : nat) (st : state) :
  String.get (index st) (source st) = Some "/"%char ->
  String.get (S (index st)) (source st) = Some "/"%char ->
  (forall i, (index st < i < size st)%nat -> String.get i (source st) <> Some NL) ->
  (size st - index st <= inner)%nat ->
  Z.of_nat (size st) < 2 ^ 64 ->
  lex_loop (S outer) inner st = Throws out_of_range.
Proof.
  intros H1 H2 Hbody Hfuel Hsize.
  pose proof (get_lt _ _ _ H1) as Hin. fold (size st) in Hin.
  pose proof (get_lt _ _ _ H2) as Hin2. fold (size st) in Hin2.
  simpl lex_loop. step (eof_inside _ Hin).
  step (eq_refl : set_tokenPos st = Returns (tt, at_token st)).
  apply bind_Throws.
  rewrite (lexCurrent_line_comment inner (at_token st) H1 H2 Hsize).
  set (n := (size st - index st - 1)%nat).
  destruct (lexComment_line_runs n inner (at_token st)) as [_ Hend].
  { lia. }
  { intros i Hi. simpl. destruct i as [|i].
    - exists "/"%char. rewrite Nat.add_0_r. split; [assumption | discriminate].
    - destruct (get_in_range (source st) (index st + S i)) as [c Hc];
        [unfold size in *; lia|].
      exists c. split; [assumption|]. intros ->.
      apply (Hbody (index st + S i)%nat); [lia | assumption]. }
  apply Hend. simpl. change (size (at_token st)) with (size st). lia.
Qed.

Lemma line_comment_at_end_out_of_range_witness :
  lex_loop 1 4 (mkState "// x" 0 0 0 0 []) = Throws out_of_range.
Proof.
  apply (line_comment_at_end_out_of_range 0 4 (mkState "// x" 0 0 0 0 []) eq_refl eq_refl).
  - unfold size; simpl. intros i Hi. destruct i as [|[|[|[|i]]]]; try lia; discriminate.
  - unfold size; simpl; lia.
  - vm_compute; reflexivity.
Defined.

(** *** Strings *)

Lemma append_assoc_str (a b c : string) : (a ++ b) ++ c = a ++ (b ++ c).
Proof. induction a as [|x a IH]; simpl; [reflexivity | now rewrite IH]. Qed.

Lemma append_nil_r (a : string) : a ++ "" = a.
Proof. induction a as [|x a IH]; simpl; [reflexivity | now rewrite IH]. Qed.

Lemma substring_get (s : string) :
  forall (i n : nat) (c : ascii),
    String.get i s = Some c ->
    String.substring i (S n) s = String c (String.substring (S i) n s).
Proof.
  induction s as [|a s IH]; intros i n c H; simpl in H; [discriminate|].
  destruct i as [|i].
  - inversion H; subst. reflexivity.
  - simpl. apply IH. exact H.
Qed.

Lemma substring_zero (s : string) (i : nat) : String.substring i 0 s = "".
Proof.
  revert i. induction s as [|a s IH]; intros [|i]; simpl; auto.
Qed.

Lemma substring_length (s : string) :
  forall i n, (i + n <= String.length s)%nat ->
              String.length (String.substring i n s) = n.
Proof.
  induction s as [|a s IH]; intros i n H; simpl in H.
  - assert (i = 0%nat) by lia. assert (n = 0%nat) by lia. subst. reflexivity.
  - destruct i as [|i]; simpl.
    + destruct n as [|n]; simpl; [reflexivity|]. f_equal. apply (IH 0%nat). lia.
    + apply IH. lia.
Qed.

(** [lookup(dist)] when the source is at least [dist] long. *)
Lemma lookup_get st dist :
  (dist <= size st)%nat -> Z.of_nat (size st) < 2 ^ 64 ->
  lookup dist st
  = Returns (match String.get (index st + dist) (source st) with
             | Some c => c
             | None => NUL
             end, st).
Proof.
  intros Hd Hsize.
  destruct (String.get (index st + dist) (source st)) as [c|] eqn:Hc.
  - now apply lookup_inside.
  - unfold lookup, u64. rewrite Z.mod_small by lia.
    replace (_ <? _) with false; [reflexivity|].
    symmetry. apply Z.ltb_ge.
    destruct (Nat.le_gt_cases (size st) (index st + dist)) as [H|H]; [lia|].
    destruct (get_in_range (source st) (index st + dist)) as [c' Hc'];
      [unfold size in H; lia | congruence].
Qed.

(** [isSeq(quote, quote, quote)] for a quote character. *)
Lemma isSeq_triple st q :
  q <> NUL -> (index st < size st)%nat -> Z.of_nat (size st) < 2 ^ 64 ->
  isSeq q q q st = Returns (triple_at q (source st) (index st), st).
Proof.
  intros Hq Hin Hsize. unfold isSeq, triple_at, char_at.
  step (lookup_get st 0 ltac:(lia) Hsize). rewrite Nat.add_0_r.
  destruct (String.get (index st) (source st)) as [c0|] eqn:H0;
    [| pose proof (get_ge (source st) (index st)) as Hn;
       destruct (get_in_range (source st) (index st)) as [? ?];
       [exact Hin | congruence] ].
  destruct (Ascii.eqb c0 q) eqn:E0; simpl; [|reflexivity].
  step (lookup_get st 1 ltac:(lia) Hsize).
  replace (index st + 1)%nat with (S (index st)) by lia.
  destruct (String.get (S (index st)) (source st)) as [c1|] eqn:H1.
  - destruct (Ascii.eqb c1 q) eqn:E1; simpl; [|reflexivity].
    pose proof (get_lt _ _ _ H1) as Hlt. fold (size st) in Hlt.
    step (lookup_get st 2 ltac:(lia) Hsize).
    replace (index st + 2)%nat with (S (S (index st))) by lia. reflexivity.
  - replace (Ascii.eqb NUL q) with false; [reflexivity|].
    symmetry. apply Ascii.eqb_neq. congruence.
Qed.

(** [lexCurrent] on a quote that does not open a triple quote. *)
Lemma lexCurrent_not_triple fuel st q :
  q = "'"%char \/ q = DQUOTE ->
  String.get (index st) (source st) = Some q ->
  triple_at q (source st) (index st) = false ->
  Z.of_nat (size st) < 2 ^ 64 ->
  lexCurrent fuel st = lexNormalString fuel st.
Proof.
  intros Hquote Hq Hno Hsize.
  pose proof (get_lt _ _ _ Hq) as Hin. fold (size st) in Hin.
  assert (Hnul : q <> NUL) by (destruct Hquote; subst; discriminate).
  unfold lexCurrent. step (peek_get _ _ Hq).
  replace (Ascii.eqb q "/") with false by (destruct Hquote; subst; reflexivity).
  replace (Ascii.eqb q "'" || Ascii.eqb q DQUOTE)%bool with true
    by (destruct Hquote; subst; reflexivity).
  unfold lexString. step (peek_get _ _ Hq).
  step (isSeq_triple st q Hnul Hin Hsize). now rewrite Hno.
Qed.

(** The loop of [lexNormalString] collects the characters it passes. *)
Lemma lexNormalString_loop_collects (n : nat) :
  forall (fuel : nat) (quote : ascii) (v : string) (st : state),
    (n < fuel)%nat ->
    (forall i, (i < n)%nat ->
       exists c, String.get (index st + i) (source st) = Some c
                 /\ c <> NL /\ c <> quote) ->
    (exists t, String.get (index st + n) (source st) = Some t
               /\ (t = NL \/ t = quote)) ->
    lexNormalString_loop fuel quote v st
    = Returns (v ++ String.substring (index st) n (source st), Nat.iter n bump st).
Proof.
  induction n as [|n IH]; intros fuel quote v st Hfuel Hbody (t & Ht & Hstop);
    (destruct fuel as [|fuel]; [lia|]); simpl lexNormalString_loop.
  - rewrite Nat.add_0_r in Ht.
    step (eof_inside _ (get_lt _ _ _ Ht)). step (isNL_get _ _ Ht).
    rewrite substring_zero, append_nil_r.
    destruct (Ascii.eqb t NL) eqn:E; [reflexivity|].
    step (is_get _ _ quote Ht).
    destruct Hstop as [-> | ->]; [discriminate E | now rewrite Ascii.eqb_refl].
  - destruct (Hbody 0%nat ltac:(lia)) as (c & Hc & Hcnl & Hcq).
    rewrite Nat.add_0_r in Hc.
    pose proof (get_lt _ _ _ Ht) as Hlt. fold (size st) in Hlt.
    step (eof_inside _ (get_lt _ _ _ Hc)). step (isNL_get _ _ Hc).
    replace (Ascii.eqb c NL) with false by (symmetry; now apply Ascii.eqb_neq).
    step (is_get _ _ quote Hc).
    replace (Ascii.eqb c quote) with false by (symmetry; now apply Ascii.eqb_neq).
    step (advance_plain _ _ Hc Hcnl).
    replace (Nat.leb (size st) (S (index st))) with false
      by (symmetry; apply Nat.leb_gt; lia).
    rewrite (IH fuel quote (v ++ str1 c) (bump st)).
    + rewrite iter_bump_shift, append_assoc_str. simpl.
      now rewrite (substring_get _ _ n _ Hc).
    + lia.
    + intros i Hi. destruct (Hbody (S i) ltac:(lia)) as (c' & Hc' & ? & ?).
      exists c'. simpl. rewrite <- Nat.add_succ_r. auto.
    + exists t. simpl. rewrite <- Nat.add_succ_r. auto.
Qed.

(** X18: A single-quoted or double-quoted string closed on its line becomes one
    [String] token whose text is exactly the characters between the
    quotes, with the span length that text has; [index] ends after the
    closing quote. *)
Theorem single_line_string_token (inner : nat) (st : state) (q : ascii) (n : nat) :
  q = "'"%char \/ q = DQUOTE ->
  String.get (index st) (source st) = Some q ->
  (forall i, (i < n)%nat ->
     exists c, String.get (S (index st) + i) (source st) = Some c
               /\ c <> NL /\ c <> q) ->
  String.get (S (index st) + n) (source st) = Some q ->
  triple_at q (source st) (index st) = false ->
  (n < inner)%nat ->
  Z.of_nat (size st) < 2 ^ 64 ->
  lexCurrent inner st
  = Returns (tt, with_token
                   (mkToken TokenKind.String
                            (String.substring (S (index st)) n (source st))
                            (mkSpan (tokenPos st) n))
                   (Nat.iter (n + 2) bump st)).
Proof.
  intros Hquote Hq Hbody Hclose Hno Hfuel Hsize.
  assert (Hqnl : q <> NL) by (destruct Hquote; subst; discriminate).
  pose proof (get_lt _ _ _ Hclose) as Hlt. fold (size st) in Hlt.
  rewrite (lexCurrent_not_triple inner st q Hquote Hq Hno Hsize).
  unfold lexNormalString.
  step (advance_plain _ _ Hq Hqnl).
  replace (Nat.leb (size st) (S (index st))) with false
    by (symmetry; apply Nat.leb_gt; lia).
  step (lexNormalString_loop_collects n inner q "" (bump st) Hfuel Hbody
          (ex_intro _ q (conj Hclose (or_intror eq_refl)))).
  simpl append. change (index (bump st)) with (S (index st)).
  change (source (bump st)) with (source st).
  rewrite iter_bump_shift.
  set (st' := Nat.iter (S n) bump st).
  assert (Hq' : String.get (index st') (source st') = Some q).
  { unfold st'. rewrite iter_bump_source, iter_bump_index.
    now replace (index st + S n)%nat with (S (index st) + n)%nat by lia. }
  assert (Hskip : skip inner q st' = Returns (tt, bump st')).
  { unfold skip. step (peek_get _ _ Hq'). rewrite Ascii.eqb_refl.
    cbv beta iota delta [negb].
    step (eq_refl : ret tt st' = Returns (tt, st')).
    now step (advance_plain _ _ Hq' Hqnl). }
  step Hskip. unfold addToken, bind, get, put, with_token.
  replace (bump st') with (Nat.iter (n + 2) bump st)
    by (unfold st'; replace (n + 2)%nat with (S (S n)) by lia; reflexivity).
  rewrite iter_bump_source, iter_bump_index, iter_bump_lastNl, iter_bump_tokenPos,
    iter_bump_tokens.
  rewrite substring_length; [reflexivity|]. unfold size in Hlt. lia.
Qed.

Lemma single_line_string_token_witness :
  lexCurrent 4 (mkState "'ab',1" 0 0 0 0 [])
  = Returns (tt, mkState "'ab',1" 4 0 4 0
                         [mkToken TokenKind.String "ab" (mkSpan 0 2)]).
Proof.
  apply (single_line_string_token 4 (mkState "'ab',1" 0 0 0 0 []) "'"%char 2
           (or_introl eq_refl) eq_refl).
  - simpl. intros i Hi. destruct i as [|[|i]]; try lia;
      eexists; (split; [reflexivity|]); split; discriminate.
  - reflexivity.
  - reflexivity.
  - lia.
  - vm_compute; reflexivity.
Defined.

(** *** Triple-quoted strings *)

Lemma stepped_source c st : source (stepped c st) = source st.
Proof. unfold stepped, bump. now destruct (Ascii.eqb c NL). Qed.

Lemma stepped_index c st : index (stepped c st) = S (index st).
Proof. unfold stepped, bump. now destruct (Ascii.eqb c NL). Qed.

Lemma stepped_tokens c st : tokens (stepped c st) = tokens st.
Proof. unfold stepped, bump. now destruct (Ascii.eqb c NL). Qed.

Lemma stepped_tokenPos c st : tokenPos (stepped c st) = tokenPos st.
Proof. unfold stepped, bump. now destruct (Ascii.eqb c NL). Qed.

Lemma advanced_source n : forall st, source (advanced n st) = source st.
Proof.
  induction n as [|n IH]; intros st; simpl; [reflexivity|].
  now rewrite IH, stepped_source.
Qed.

Lemma advanced_index n : forall st, index (advanced n st) = (index st + n)%nat.
Proof.
  induction n as [|n IH]; intros st; simpl; [lia|].
  rewrite IH, stepped_index. lia.
Qed.

Lemma advanced_tokens n : forall st, tokens (advanced n st) = tokens st.
Proof.
  induction n as [|n IH]; intros st; simpl; [reflexivity|].
  now rewrite IH, stepped_tokens.
Qed.

Lemma advanced_tokenPos n : forall st, tokenPos (advanced n st) = tokenPos st.
Proof.
  induction n as [|n IH]; intros st; simpl; [reflexivity|].
  now rewrite IH, stepped_tokenPos.
Qed.

Lemma advanced_add n m : forall st, advanced (n + m) st = advanced m (advanced n st).
Proof. induction n as [|n IH]; intros st; simpl; [reflexivity | apply IH]. Qed.

Lemma char_at_get s i c : c <> NUL -> char_at s i = c -> String.get i s = Some c.
Proof.
  unfold char_at. destruct (String.get i s); intros Hc H; congruence.
Qed.

Lemma get_char_at s i c : String.get i s = Some c -> char_at s i = c.
Proof. unfold char_at. now intros ->. Qed.

Lemma triple_at_get q s i :
  q <> NUL -> triple_at q s i = true ->
  String.get i s = Some q /\ String.get (S i) s = Some q
  /\ String.get (S (S i)) s = Some q.
Proof.
  intros Hq H. unfold triple_at in H.
  apply andb_prop in H. destruct H as [H0 H]. apply andb_prop in H.
  destruct H as [H1 H2].
  apply Ascii.eqb_eq in H0, H1, H2. auto using char_at_get.
Qed.

(** [advance(dist)] when the source holds at least [dist] more characters. *)
Lemma advance_steps_run n :
  forall st, (index st + n <= size st)%nat ->
             advance_steps n st = Returns (tt, advanced n st).
Proof.
  induction n as [|n IH]; intros st H; simpl; [reflexivity|].
  destruct (get_in_range (source st) (index st)) as [c Hc];
    [unfold size in H; lia|].
  step (advance_step_get _ _ Hc). rewrite (get_char_at _ _ _ Hc).
  apply IH. rewrite stepped_index. unfold size in *. rewrite stepped_source. lia.
Qed.

Lemma advance_run n st :
  (0 < n)%nat -> (index st + n <= size st)%nat ->
  exists r, advance n st = Returns (r, advanced n st).
Proof.
  intros Hn H. unfold advance.
  destruct (get_in_range (source st) (index st)) as [c Hc];
    [unfold size in H; lia|].
  step (peek_get _ _ Hc). step (advance_steps_run n st H).
  unfold bind, eof. destruct (Nat.leb _ _); eexists; reflexivity.
Qed.

(** The loop of [lexMLString] collects every character up to the closing
    triple quote, newlines included. *)
Lemma lexMLString_loop_collects (n : nat) :
  forall (fuel : nat) (q : ascii) (v : string) (st : state),
    (n < fuel)%nat -> q <> NUL -> Z.of_nat (size st) < 2 ^ 64 ->
    (forall i, (i < n)%nat -> triple_at q (source st) (index st + i) = false) ->
    triple_at q (source st) (index st + n) = true ->
    lexMLString_loop fuel q v st
    = Returns ((true, v ++ String.substring (index st) n (source st)),
               advanced n st).
Proof.
  induction n as [|n IH]; intros fuel q v st Hfuel Hq Hsize Hbody Hclose;
    (destruct fuel as [|fuel]; [lia|]); simpl lexMLString_loop;
    destruct (triple_at_get _ _ _ Hq Hclose) as (_ & _ & Hlast);
    pose proof (get_lt _ _ _ Hlast) as Hlt; fold (size st) in Hlt.
  - rewrite Nat.add_0_r in Hclose.
    step (eof_inside st ltac:(unfold size in *; lia)).
    step (isSeq_triple st q Hq ltac:(lia) Hsize). rewrite Hclose.
    now rewrite substring_zero, append_nil_r.
  - step (eof_inside st ltac:(unfold size in *; lia)).
    assert (H0 : triple_at q (source st) (index st) = false)
      by (rewrite <- (Nat.add_0_r (index st)); apply Hbody; lia).
    step (isSeq_triple st q Hq ltac:(lia) Hsize). rewrite H0.
    destruct (get_in_range (source st) (index st)) as [c Hc];
      [unfold size in Hlt; lia|].
    step (advance_one _ _ Hc).
    replace (Nat.leb (size st) (S (index st))) with false
      by (symmetry; apply Nat.leb_gt; lia).
    simpl advanced. rewrite (get_char_at _ _ _ Hc).
    rewrite (IH fuel q (v ++ str1 c) (stepped c st)).
    + rewrite stepped_index, stepped_source, append_assoc_str. simpl.
      now rewrite (substring_get _ _ n _ Hc).
    + lia.
    + exact Hq.
    + unfold size in *. now rewrite stepped_source.
    + intros i Hi. rewrite stepped_index, stepped_source.
      replace (S (index st) + i)%nat with (index st + S i)%nat by lia.
      apply Hbody. lia.
    + rewrite stepped_index, stepped_source.
      now replace (S (index st) + n)%nat with (index st + S n)%nat by lia.
Qed.

(** Without a closing triple quote the loop runs to the end of the source. *)
Lemma lexMLString_loop_unclosed (n : nat) :
  forall (fuel : nat) (q : ascii) (v : string) (st : state),
    (n < fuel)%nat -> q <> NUL -> Z.of_nat (size st) < 2 ^ 64 ->
    (forall i, (i < n)%nat -> triple_at q (source st) (index st + i) = false) ->
    (index st + n)%nat = size st ->
    exists v', lexMLString_loop fuel q v st = Returns ((false, v'), advanced n st).
Proof.
  induction n as [|n IH]; intros fuel q v st Hfuel Hq Hsize Hbody Hend;
    (destruct fuel as [|fuel]; [lia|]); simpl lexMLString_loop.
  - step (eof_past_end st ltac:(lia)). eexists; reflexivity.
  - step (eof_inside st ltac:(unfold size in *; lia)).
    assert (H0 : triple_at q (source st) (index st) = false)
      by (rewrite <- (Nat.add_0_r (index st)); apply Hbody; lia).
    step (isSeq_triple st q Hq ltac:(lia) Hsize). rewrite H0.
    destruct (get_in_range (source st) (index st)) as [c Hc];
      [unfold size in Hend; lia|].
    step (advance_one _ _ Hc).
    simpl advanced. rewrite (get_char_at _ _ _ Hc).
    apply IH.
    + lia.
    + exact Hq.
    + unfold size in *. now rewrite stepped_source.
    + intros i Hi. rewrite stepped_index, stepped_source.
      replace (S (index st) + i)%nat with (index st + S i)%nat by lia.
      apply Hbody. lia.
    + rewrite stepped_index. unfold size in *. rewrite stepped_source. lia.
Qed.

(** [lexCurrent] on a quote that opens a triple quote. *)
Lemma lexCurrent_triple fuel st q :
  q = "'"%char \/ q = DQUOTE ->
  triple_at q (source st) (index st) = true ->
  Z.of_nat (size st) < 2 ^ 64 ->
  lexCurrent fuel st
  = (r <- lexMLString_loop fuel q "" ;;
     let '(closed, v) := r in
     (if negb closed
      then expectedError fuel (str1 q ++ str1 q ++ str1 q)
      else ret tt) ;;
     advance 3 ;;
     addToken TokenKind.String v) (advanced 3 st).
Proof.
  intros Hquote Hopen Hsize.
  assert (Hnul : q <> NUL) by (destruct Hquote; subst; discriminate).
  destruct (triple_at_get _ _ _ Hnul Hopen) as (Hq & _ & Hlast).
  pose proof (get_lt _ _ _ Hlast) as Hlt. fold (size st) in Hlt.
  unfold lexCurrent. step (peek_get _ _ Hq).
  replace (Ascii.eqb q "/") with false by (destruct Hquote; subst; reflexivity).
  replace (Ascii.eqb q "'" || Ascii.eqb q DQUOTE)%bool with true
    by (destruct Hquote; subst; reflexivity).
  unfold lexString. step (peek_get _ _ Hq).
  step (isSeq_triple st q Hnul ltac:(lia) Hsize). rewrite Hopen.
  unfold lexMLString. step (peek_get _ _ Hq).
  destruct (advance_run 3 st ltac:(lia) ltac:(lia)) as [r Hr].
  now step Hr.
Qed.

(** X19: A triple-quoted string that is closed becomes one [String] token whose
    text is exactly the characters between the triple quotes, newlines
    included; [index] ends after the closing triple quote. *)
Theorem multi_line_string_token (inner : nat) (st : state) (q : ascii) (n : nat) :
  q = "'"%char \/ q = DQUOTE ->
  triple_at q (source st) (index st) = true ->
  (forall i, (i < n)%nat -> triple_at q (source st) (index st + 3 + i) = false) ->
  triple_at q (source st) (index st + 3 + n) = true ->
  (n < inner)%nat ->
  Z.of_nat (size st) < 2 ^ 64 ->
  lexCurrent inner st
  = Returns (tt, with_token
                   (mkToken TokenKind.String
                            (String.substring (index st + 3) n (source st))
                            (mkSpan (tokenPos st) n))
                   (advanced (n + 6) st)).
Proof.
  intros Hquote Hopen Hbody Hclose Hfuel Hsize.
  assert (Hnul : q <> NUL) by (destruct Hquote; subst; discriminate).
  destruct (triple_at_get _ _ _ Hnul Hclose) as (_ & _ & Hlast).
  pose proof (get_lt _ _ _ Hlast) as Hlt. fold (size st) in Hlt.
  rewrite (lexCurrent_triple inner st q Hquote Hopen Hsize).
  set (st3 := advanced 3 st).
  assert (Hsrc3 : source st3 = source st) by apply advanced_source.
  assert (Hidx3 : index st3 = (index st + 3)%nat) by apply advanced_index.
  assert (Hloop : lexMLString_loop inner q "" st3
                  = Returns ((true, String.substring (index st3) n (source st3)),
                             advanced n st3)).
  { apply (lexMLString_loop_collects n inner q "" st3 Hfuel Hnul).
    - unfold size. now rewrite Hsrc3.
    - intros i Hi. rewrite Hsrc3, Hidx3. now apply Hbody.
    - now rewrite Hsrc3, Hidx3. }
  step Hloop. cbv beta iota delta [negb].
  set (stn := advanced n st3).
  step (eq_refl : ret tt stn = Returns (tt, stn)).
  assert (Hsrcn : source stn = source st)
    by (unfold stn; now rewrite advanced_source).
  assert (Hidxn : index stn = (index st + 3 + n)%nat)
    by (unfold stn; rewrite advanced_index; lia).
  destruct (advance_run 3 stn ltac:(lia)) as [r Hr].
  { unfold size. rewrite Hsrcn, Hidxn. unfold size in Hlt. lia. }
  step Hr. unfold addToken, bind, get, put, with_token.
  replace (advanced 3 stn) with (advanced (n + 6) st).
  2:{ unfold stn, st3. rewrite <- !advanced_add. f_equal. lia. }
  rewrite advanced_tokenPos, advanced_tokens, Hsrc3, Hidx3.
  rewrite substring_length; [reflexivity|]. unfold size in Hlt. lia.
Qed.

Lemma multi_line_string_token_witness :
  lexCurrent 4 (mkState "'''a
b'''" 0 0 0 0 [])
  = Returns (tt, mkState "'''a
b'''" 9 4 4 0 [mkToken TokenKind.String "a
b" (mkSpan 0 3)]).
Proof.
  apply (multi_line_string_token 4 (mkState "'''a
b'''" 0 0 0 0 []) "'"%char 3 (or_introl eq_refl) eq_refl).
  - simpl. intros i Hi. destruct i as [|[|[|i]]]; try lia; reflexivity.
  - reflexivity.
  - lia.
  - vm_compute; reflexivity.
Defined.

(** X20: A triple-quoted string that is never closed does not get the
    [Expected ..., got ...] diagnostic: [expectedError] calls [isNL] with
    [index] at the end of the source and [source.at] throws
    [std::out_of_range]. *)
Theorem multi_line_string_unclosed_out_of_range
  (inner : nat) (st : state) (q : ascii) (n : nat) :
  q = "'"%char \/ q = DQUOTE ->
  triple_at q (source st) (index st) = true ->
  (forall i, (i < n)%nat -> triple_at q (source st) (index st + 3 + i) = false) ->
  (index st + 3 + n)%nat = size st ->
  (n < inner)%nat ->
  Z.of_nat (size st) < 2 ^ 64 ->
  lexCurrent inner st = Throws out_of_range.
Proof.
  intros Hquote Hopen Hbody Hend Hfuel Hsize.
  assert (Hnul : q <> NUL) by (destruct Hquote; subst; discriminate).
  rewrite (lexCurrent_triple inner st q Hquote Hopen Hsize).
  set (st3 := advanced 3 st).
  assert (Hsrc3 : source st3 = source st) by apply advanced_source.
  assert (Hidx3 : index st3 = (index st + 3)%nat) by apply advanced_index.
  destruct (lexMLString_loop_unclosed n inner q "" st3 Hfuel Hnul) as [v' Hloop].
  - unfold size. now rewrite Hsrc3.
  - intros i Hi. rewrite Hsrc3, Hidx3. now apply Hbody.
  - unfold size. rewrite Hsrc3, Hidx3. exact Hend.
  - step Hloop. cbv beta iota delta [negb].
    set (stn := advanced n st3).
    assert (Hpast : (size stn <= index stn)%nat).
    { unfold stn, size. rewrite advanced_source, advanced_index, Hsrc3, Hidx3.
      unfold size in Hend. lia. }
    unfold expectedError.
    assert (HNL : isNL stn = Throws out_of_range).
    { unfold isNL. now rewrite (bind_Throws _ _ _ _ (peek_past_end _ Hpast)). }
    apply bind_Throws. now apply bind_Throws.
Qed.

Lemma multi_line_string_unclosed_out_of_range_witness :
  lexCurrent 3 (mkState "'''ab" 0 0 0 0 []) = Throws out_of_range.
Proof.
  apply (multi_line_string_unclosed_out_of_range 3 (mkState "'''ab" 0 0 0 0 [])
           "'"%char 2 (or_introl eq_refl) eq_refl).
  - simpl. intros i Hi. destruct i as [|[|i]]; try lia; reflexivity.
  - reflexivity.
  - lia.
  - vm_compute; reflexivity.
Defined.

(** *** Numbers *)

Lemma digit_neq c x :
  isDigit_c c = true -> isDigit_c x = false -> Ascii.eqb c x = false.
Proof.
  intros Hc Hx. destruct (Ascii.eqb c x) eqn:E; [|reflexivity].
  apply Ascii.eqb_eq in E. congruence.
Qed.

Lemma skipOpt_other st c x :
  String.get (index st) (source st) = Some c -> c <> x ->
  skipOpt x st = Returns (false, st).
Proof.
  intros Hc Hne. unfold skipOpt. step (is_get _ _ x Hc).
  now replace (Ascii.eqb c x) with false by (symmetry; now apply Ascii.eqb_neq).
Qed.

Lemma isDigit_get st c :
  String.get (index st) (source st) = Some c ->
  isDigit st = Returns (isDigit_c c, st).
Proof. intros H. unfold isDigit. now step (peek_get _ _ H). Qed.

Lemma isAnyOf_get st c chars :
  String.get (index st) (source st) = Some c ->
  isAnyOf chars st = Returns (isCharAnyOf c chars, st).
Proof. intros H. unfold isAnyOf. now step (peek_get _ _ H). Qed.

(** The digit loops of [lexNum] over [n] digits with no underscore, up to a
    character that is neither a digit nor an underscore. *)
Lemma digits_loop_collects (isD : M bool) (d : ascii -> bool) (n : nat) :
  (forall st c, String.get (index st) (source st) = Some c ->
                isD st = Returns (d c, st)) ->
  forall (fuel : nat) (v : string) (st : state),
    (n < fuel)%nat ->
    (forall i, (i < n)%nat ->
       exists c, String.get (index st + i) (source st) = Some c
                 /\ d c = true /\ c <> NL /\ c <> "_"%char) ->
    (exists t, String.get (index st + n) (source st) = Some t
               /\ d t = false /\ t <> "_"%char) ->
    digits_loop fuel isD v st
    = Returns (v ++ String.substring (index st) n (source st), Nat.iter n bump st).
Proof.
  intros HisD.
  induction n as [|n IH]; intros fuel v st Hfuel Hbody (t & Ht & Hdt & Htu);
    (destruct fuel as [|fuel]; [lia|]); simpl digits_loop.
  - rewrite Nat.add_0_r in Ht.
    step (eof_inside _ (get_lt _ _ _ Ht)).
    step (skipOpt_other _ _ _ Ht Htu). step (HisD _ _ Ht). rewrite Hdt.
    cbv beta iota delta [negb].
    now rewrite substring_zero, append_nil_r.
  - destruct (Hbody 0%nat ltac:(lia)) as (c & Hc & Hdc & Hcnl & Hcu).
    rewrite Nat.add_0_r in Hc.
    pose proof (get_lt _ _ _ Ht) as Hlt. fold (size st) in Hlt.
    step (eof_inside _ (get_lt _ _ _ Hc)).
    step (skipOpt_other _ _ _ Hc Hcu). step (HisD _ _ Hc). rewrite Hdc.
    cbv beta iota delta [negb].
    step (advance_plain _ _ Hc Hcnl).
    replace (Nat.leb (size st) (S (index st))) with false
      by (symmetry; apply Nat.leb_gt; lia).
    rewrite (IH fuel (v ++ str1 c) (bump st)).
    + rewrite iter_bump_shift, append_assoc_str. simpl.
      now rewrite (substring_get _ _ n _ Hc).
    + lia.
    + intros i Hi. destruct (Hbody (S i) ltac:(lia)) as (c' & Hc' & ?).
      exists c'. simpl. rewrite <- Nat.add_succ_r. auto.
    + exists t. simpl. rewrite <- Nat.add_succ_r. auto.
Qed.

(** The same loop over digits that reach the end of the source. *)
Lemma digits_loop_to_end (isD : M bool) (d : ascii -> bool) (n : nat) :
  (forall st c, String.get (index st) (source st) = Some c ->
                isD st = Returns (d c, st)) ->
  forall (fuel : nat) (v : string) (st : state),
    (n < fuel)%nat ->
    (forall i, (i < n)%nat ->
       exists c, String.get (index st + i) (source st) = Some c
                 /\ d c = true /\ c <> NL /\ c <> "_"%char) ->
    (index st + n)%nat = size st ->
    exists v', digits_loop fuel isD v st = Returns (v', Nat.iter n bump st).
Proof.
  intros HisD.
  induction n as [|n IH]; intros fuel v st Hfuel Hbody Hend;
    (destruct fuel as [|fuel]; [lia|]); simpl digits_loop.
  - step (eof_past_end st ltac:(lia)). eexists; reflexivity.
  - destruct (Hbody 0%nat ltac:(lia)) as (c & Hc & Hdc & Hcnl & Hcu).
    rewrite Nat.add_0_r in Hc.
    step (eof_inside _ (get_lt _ _ _ Hc)).
    step (skipOpt_other _ _ _ Hc Hcu). step (HisD _ _ Hc). rewrite Hdc.
    cbv beta iota delta [negb].
    step (advance_plain _ _ Hc Hcnl).
    destruct (IH fuel (v ++ str1 (if Nat.leb (size st) (S (index st)) then NUL else c))
                 (bump st)) as [v' Hv'].
    + lia.
    + intros i Hi. destruct (Hbody (S i) ltac:(lia)) as (c' & Hc' & ?).
      exists c'. simpl. rewrite <- Nat.add_succ_r. auto.
    + change (size (bump st)) with (size st). simpl. lia.
    + exists v'. now rewrite Hv', iter_bump_shift.
Qed.

Lemma digit_not_NL c : isDigit_c c = true -> c <> NL.
Proof. intros H ->. discriminate H. Qed.

Lemma digit_not_underscore c : isDigit_c c = true -> c <> "_"%char.
Proof. intros H ->. discriminate H. Qed.

(** [lexCurrent] on a digit that does not open a base prefix: the sign and
    the three prefix tests of [lexNum] fail. *)
Lemma lexCurrent_digit fuel st c :
  String.get (index st) (source st) = Some c ->
  isDigit_c c = true ->
  isCharAnyOf (char_at (source st) (S (index st)))
              ["b"; "B"; "x"; "X"; "o"; "O"]%char = false ->
  Z.of_nat (size st) < 2 ^ 64 ->
  lexCurrent fuel st
  = (v <- digits_loop fuel isDigit "" ;;
     dot <- is_ "." ;;
     if dot then
       c <- advance 1 ;;
       let v := v ++ str1 c in
       d <- isDigit ;;
       (if negb d then expectedError fuel "fractional part of number" else ret tt) ;;
       v <- digits_loop fuel isDigit v ;;
       addToken TokenKind.Float v
     else addToken TokenKind.DecInt v) st.
Proof.
  intros Hc Hd Hletters Hsize.
  pose proof (get_lt _ _ _ Hc) as Hin. fold (size st) in Hin.
  assert (Hlook : lookup 1 st = Returns (char_at (source st) (S (index st)), st)).
  { rewrite (lookup_get st 1 ltac:(lia) Hsize).
    now replace (index st + 1)%nat with (S (index st)) by lia. }
  assert (Hblock : forall lower upper msg isD expected assigned,
             isCharAnyOf (char_at (source st) (S (index st))) [lower; upper] = false ->
             based_block fuel false lower upper msg isD expected assigned
                         (TokenKind.DecInt, "", false) st
             = Returns ((TokenKind.DecInt, "", false), st)).
  { intros lower upper msg isD expected assigned Hl. unfold based_block, bind.
    rewrite (peek_get _ _ Hc). destruct (Ascii.eqb c "0"); [|reflexivity].
    rewrite Hlook. unfold isCharAnyOf in Hl. simpl in Hl.
    rewrite orb_false_r in Hl. unfold ret. now rewrite Hl. }
  assert (Hpre : isCharAnyOf (char_at (source st) (S (index st))) ["b"; "B"]%char = false
                 /\ isCharAnyOf (char_at (source st) (S (index st))) ["x"; "X"]%char = false
                 /\ isCharAnyOf (char_at (source st) (S (index st))) ["o"; "O"]%char = false).
  { revert Hletters. unfold isCharAnyOf. cbn [existsb].
    generalize (char_at (source st) (S (index st))). intros x.
    destruct (Ascii.eqb x "b"), (Ascii.eqb x "B"), (Ascii.eqb x "x"),
      (Ascii.eqb x "X"), (Ascii.eqb x "o"), (Ascii.eqb x "O");
      simpl; intros H; try discriminate H; auto. }
  destruct Hpre as (Hb & Hx & Ho).
  unfold lexCurrent. step (peek_get _ _ Hc).
  repeat rewrite (digit_neq c) by first [exact Hd | reflexivity].
  cbv beta iota delta [orb].
  unfold lexMisc. step (isNL_get _ _ Hc).
  rewrite (digit_neq c) by first [exact Hd | reflexivity].
  unfold isHidden. step (isAnyOf_get _ _ [" "%char; TAB; CR] Hc).
  unfold isCharAnyOf. cbn [existsb].
  repeat rewrite (digit_neq c) by first [exact Hd | reflexivity].
  cbv beta iota delta [orb].
  step (isDigit_get _ _ Hc). rewrite Hd.
  step (eq_refl : ret true st = Returns (true, st)).
  unfold lexNum. step (is_get _ _ "+"%char Hc).
  rewrite (digit_neq c) by first [exact Hd | reflexivity].
  assert (Hsign : (minus <- is_ "-" ;;
                   if minus then advance 1 ;; ret ("-", true)
                   else ret ("", false)) st
                  = Returns (("", false), st)).
  { unfold bind. rewrite (is_get _ _ "-"%char Hc).
    now rewrite (digit_neq c) by first [exact Hd | reflexivity]. }
  cbv beta iota. step Hsign.
  step (Hblock _ _ "Signed binary numbers are not allowed"
               (isAnyOf ["0"%char; "1"%char]) "binary digit" TokenKind.OctoInt Hb).
  step (Hblock _ _ "Signed hexadecimal numbers are not allowed"
               isHexDigit "hexadecimal digit" TokenKind.HexInt Hx).
  step (Hblock _ _ "Signed octal numbers are not allowed"
               isOctDigit "octal digit" TokenKind.OctoInt Ho).
  reflexivity.
Qed.

Lemma digits_body st n :
  (forall i, (i < n)%nat ->
     exists c, String.get (index st + i) (source st) = Some c
               /\ isDigit_c c = true) ->
  forall i, (i < n)%nat ->
    exists c, String.get (index st + i) (source st) = Some c
              /\ isDigit_c c = true /\ c <> NL /\ c <> "_"%char.
Proof.
  intros H i Hi. destruct (H i Hi) as (c & Hc & Hd). exists c.
  auto using digit_not_NL, digit_not_underscore.
Qed.

(** X21: A run of decimal digits followed by a character that is neither a
    digit, an underscore nor a dot becomes one [DecInt] token whose text is
    the digits. *)
Theorem decimal_literal_token (inner : nat) (st : state) (n : nat) (t : ascii) :
  (0 < n)%nat ->
  (forall i, (i < n)%nat ->
     exists c, String.get (index st + i) (source st) = Some c
               /\ isDigit_c c = true) ->
  String.get (index st + n) (source st) = Some t ->
  isDigit_c t = false -> t <> "_"%char -> t <> "."%char ->
  isCharAnyOf (char_at (source st) (S (index st)))
              ["b"; "B"; "x"; "X"; "o"; "O"]%char = false ->
  (n < inner)%nat ->
  Z.of_nat (size st) < 2 ^ 64 ->
  lexCurrent inner st
  = Returns (tt, with_token
                   (mkToken TokenKind.DecInt
                            (String.substring (index st) n (source st))
                            (mkSpan (tokenPos st) n))
                   (Nat.iter n bump st)).
Proof.
  intros Hn Hbody Ht Hdt Htu Htd Hletters Hfuel Hsize.
  destruct (Hbody 0%nat Hn) as (c & Hc & Hd). rewrite Nat.add_0_r in Hc.
  pose proof (get_lt _ _ _ Ht) as Hlt.
  rewrite (lexCurrent_digit inner st c Hc Hd Hletters Hsize).
  step (digits_loop_collects isDigit isDigit_c n isDigit_get inner "" st Hfuel
          (digits_body st n Hbody)
          (ex_intro _ t (conj Ht (conj Hdt Htu)))).
  simpl append. set (st' := Nat.iter n bump st).
  assert (Ht' : String.get (index st') (source st') = Some t)
    by (unfold st'; now rewrite iter_bump_source, iter_bump_index).
  step (is_get _ _ "."%char Ht').
  replace (Ascii.eqb t ".") with false by (symmetry; now apply Ascii.eqb_neq).
  unfold addToken, bind, get, put, with_token, st'.
  rewrite iter_bump_tokenPos, iter_bump_tokens.
  now rewrite substring_length by lia.
Qed.

Lemma decimal_literal_token_witness :
  lexCurrent 3 (mkState "[42]" 1 0 1 1 [mkToken TokenKind.LBracket "" (mkSpan 0 1)])
  = Returns (tt, mkState "[42]" 3 0 3 1
                         [mkToken TokenKind.LBracket "" (mkSpan 0 1);
                          mkToken TokenKind.DecInt "42" (mkSpan 1 2)]).
Proof.
  apply (decimal_literal_token
           3 (mkState "[42]" 1 0 1 1 [mkToken TokenKind.LBracket "" (mkSpan 0 1)])
           2 "]"%char).
  - lia.
  - simpl. intros i Hi. destruct i as [|[|i]]; try lia;
      eexists; (split; reflexivity).
  - reflexivity.
  - reflexivity.
  - discriminate.
  - discriminate.
  - reflexivity.
  - lia.
  - vm_compute; reflexivity.
Defined.

(** X22: Digits, a dot and digits, followed by a character that is neither a
    digit nor an underscore, become one [Float] token whose text is the
    literal as written. *)
Theorem float_literal_token (inner : nat) (st : state) (n m : nat) (t : ascii) :
  (0 < n)%nat -> (0 < m)%nat ->
  (forall i, (i < n)%nat ->
     exists c, String.get (index st + i) (source st) = Some c
               /\ isDigit_c c = true) ->
  String.get (index st + n) (source st) = Some "."%char ->
  (forall i, (i < m)%nat ->
     exists c, String.get (index st + n + 1 + i) (source st) = Some c
               /\ isDigit_c c = true) ->
  String.get (index st + n + 1 + m) (source st) = Some t ->
  isDigit_c t = false -> t <> "_"%char ->
  isCharAnyOf (char_at (source st) (S (index st)))
              ["b"; "B"; "x"; "X"; "o"; "O"]%char = false ->
  (n < inner)%nat -> (m < inner)%nat ->
  Z.of_nat (size st) < 2 ^ 64 ->
  lexCurrent inner st
  = Returns (tt, with_token
                   (mkToken TokenKind.Float
                            (String.substring (index st) (n + 1 + m) (source st))
                            (mkSpan (tokenPos st) (n + 1 + m)))
                   (Nat.iter (n + 1 + m) bump st)).
Proof.
  intros Hn Hm Hint Hdot Hfrac Ht Hdt Htu Hletters Hfn Hfm Hsize.
  destruct (Hint 0%nat Hn) as (c & Hc & Hd). rewrite Nat.add_0_r in Hc.
  pose proof (get_lt _ _ _ Ht) as Hlt.
  rewrite (lexCurrent_digit inner st c Hc Hd Hletters Hsize).
  assert (Hstop : exists t, String.get (index st + n) (source st) = Some t
                            /\ isDigit_c t = false /\ t <> "_"%char).
  { exists "."%char. split; [exact Hdot|]. split; [reflexivity | discriminate]. }
  step (digits_loop_collects isDigit isDigit_c n isDigit_get inner "" st Hfn
          (digits_body st n Hint) Hstop).
  simpl append. set (st1 := Nat.iter n bump st).
  assert (Hsrc1 : source st1 = source st) by apply iter_bump_source.
  assert (Hidx1 : index st1 = (index st + n)%nat) by apply iter_bump_index.
  assert (Hdot1 : String.get (index st1) (source st1) = Some "."%char)
    by now rewrite Hsrc1, Hidx1.
  step (is_get _ _ "."%char Hdot1). rewrite Ascii.eqb_refl.
  step (advance_plain _ _ Hdot1 ltac:(discriminate)).
  replace (Nat.leb (size st1) (S (index st1))) with false
    by (symmetry; apply Nat.leb_gt; unfold size; rewrite Hsrc1, Hidx1; lia).
  set (st2 := bump st1).
  assert (Hsrc2 : source st2 = source st) by exact Hsrc1.
  assert (Hidx2 : index st2 = (index st + n + 1)%nat)
    by (unfold st2; simpl; rewrite Hidx1; lia).
  destruct (Hfrac 0%nat Hm) as (c2 & Hc2 & Hd2). rewrite Nat.add_0_r in Hc2.
  assert (Hc2' : String.get (index st2) (source st2) = Some c2)
    by now rewrite Hsrc2, Hidx2.
  step (isDigit_get _ _ Hc2'). rewrite Hd2. cbv beta iota delta [negb].
  step (eq_refl : ret tt st2 = Returns (tt, st2)).
  assert (Hloop : digits_loop inner isDigit
                    (String.substring (index st) n (source st) ++ str1 ".") st2
                  = Returns ((String.substring (index st) n (source st) ++ str1 ".")
                             ++ String.substring (index st2) m (source st2),
                             Nat.iter m bump st2)).
  { apply (digits_loop_collects isDigit isDigit_c m isDigit_get inner _ st2 Hfm).
    - rewrite Hsrc2, Hidx2. apply (digits_body (mkState (source st) (index st + n + 1)
                                                    0 0 0 []) m Hfrac).
    - exists t. rewrite Hsrc2, Hidx2. auto. }
  step Hloop.
  assert (Htext : (String.substring (index st) n (source st) ++ str1 ".")
                  ++ String.substring (index st2) m (source st2)
                  = String.substring (index st) (n + 1 + m) (source st)).
  { rewrite Hsrc2, Hidx2, !substring_app.
    rewrite (substring_get _ _ 0 _ Hdot), substring_zero.
    now rewrite Nat.add_assoc. }
  rewrite Htext.
  unfold addToken, bind, get, put, with_token.
  replace (Nat.iter m bump st2) with (Nat.iter (n + 1 + m) bump st).
  2:{ unfold st2, st1. replace (n + 1 + m)%nat with (m + S n)%nat by lia.
      rewrite Nat.iter_add. reflexivity. }
  rewrite iter_bump_tokenPos, iter_bump_tokens.
  now rewrite substring_length by lia.
Qed.

Lemma float_literal_token_witness :
  lexCurrent 3 (mkState "1.50," 0 0 0 0 [])
  = Returns (tt, mkState "1.50," 4 0 4 0
                         [mkToken TokenKind.Float "1.50" (mkSpan 0 4)]).
Proof.
  apply (float_literal_token 3 (mkState "1.50," 0 0 0 0 []) 1 2 ","%char).
  - lia.
  - lia.
  - simpl. intros i Hi. destruct i as [|i]; try lia.
    eexists; (split; reflexivity).
  - reflexivity.
  - simpl. intros i Hi. destruct i as [|[|i]]; try lia;
      eexists; (split; reflexivity).
  - reflexivity.
  - reflexivity.
  - discriminate.
  - reflexivity.
  - lia.
  - lia.
  - vm_compute; reflexivity.
Defined.

(** X23: An integer literal that ends the source is not turned into a token:
    after the digit loop has reached the end, [is('.')] calls [peek] and
    [source.at] throws [std::out_of_range]. *)
Theorem integer_at_end_out_of_range (inner : nat) (st : state) (n : nat) :
  (0 < n)%nat ->
  (forall i, (i < n)%nat ->
     exists c, String.get (index st + i) (source st) = Some c
               /\ isDigit_c c = true) ->
  (index st + n)%nat = size st ->
  (n < inner)%nat ->
  Z.of_nat (size st) < 2 ^ 64 ->
  lexCurrent inner st = Throws out_of_range.
Proof.
  intros Hn Hbody Hend Hfuel Hsize.
  destruct (Hbody 0%nat Hn) as (c & Hc & Hd). rewrite Nat.add_0_r in Hc.
  assert (Hletters : isCharAnyOf (char_at (source st) (S (index st)))
                                 ["b"; "B"; "x"; "X"; "o"; "O"]%char = false).
  { unfold char_at.
    destruct (String.get (S (index st)) (source st)) as [c1|] eqn:E1; [|reflexivity].
    destruct n as [|[|n]]; [lia | |].
    - pose proof (get_lt _ _ _ E1). unfold size in Hend. lia.
    - destruct (Hbody 1%nat ltac:(lia)) as (c1' & Hc1 & Hd1).
      replace (index st + 1)%nat with (S (index st)) in Hc1 by lia.
      assert (c1' = c1) by congruence. subst c1'.
      unfold isCharAnyOf. cbn [existsb].
      repeat rewrite (digit_neq c1) by first [exact Hd1 | reflexivity].
      reflexivity. }
  rewrite (lexCurrent_digit inner st c Hc Hd Hletters Hsize).
  destruct (digits_loop_to_end isDigit isDigit_c n isDigit_get inner "" st Hfuel
              (digits_body st n Hbody) Hend) as [v' Hv'].
  step Hv'. apply bind_Throws. unfold is_. apply bind_Throws.
  apply peek_past_end. rewrite iter_bump_size, iter_bump_index. lia.
Qed.

Lemma integer_at_end_out_of_range_witness :
  lexCurrent 3 (mkState "42" 0 0 0 0 []) = Throws out_of_range.
Proof.
  apply (integer_at_end_out_of_range 3 (mkState "42" 0 0 0 0 []) 2).
  - lia.
  - simpl. intros i Hi. destruct i as [|[|i]]; try lia;
      eexists; (split; reflexivity).
  - reflexivity.
  - lia.
  - vm_compute; reflexivity.
Defined.

(** *** Bare words *)

Lemma isCharAnyOf_false c chars x :
  isCharAnyOf c chars = false -> In x chars -> Ascii.eqb c x = false.
Proof.
  unfold isCharAnyOf. induction chars as [|y chars IH]; simpl; intros H Hx;
    [contradiction|].
  apply orb_false_elim in H. destruct H as [Hy Hrest].
  destruct Hx as [<- | Hx]; [exact Hy | now apply IH].
Qed.

Lemma isCharAnyOf_incl c chars chars' :
  isCharAnyOf c chars = false -> incl chars' chars -> isCharAnyOf c chars' = false.
Proof.
  intros H Hincl. unfold isCharAnyOf.
  destruct (existsb (Ascii.eqb c) chars') eqn:E; [|reflexivity].
  apply existsb_exists in E. destruct E as (x & Hx & Hcx).
  now rewrite (isCharAnyOf_false c chars x H (Hincl x Hx)) in Hcx.
Qed.

(** The loop of [lexMisc] collects the characters up to the one that ends
    the word. *)
Lemma lexMisc_loop_collects (n : nat) :
  forall (fuel : nat) (v : string) (st : state),
    (n < fuel)%nat ->
    (forall i, (i < n)%nat ->
       exists c, String.get (index st + i) (source st) = Some c
                 /\ isCharAnyOf c word_ends = false /\ c <> NL) ->
    (exists t, String.get (index st + n) (source st) = Some t
               /\ (isCharAnyOf t word_ends = true \/ t = NL)) ->
    lexMisc_loop fuel v st
    = Returns (v ++ String.substring (index st) n (source st), Nat.iter n bump st).
Proof.
  induction n as [|n IH]; intros fuel v st Hfuel Hbody (t & Ht & Hstop);
    (destruct fuel as [|fuel]; [lia|]); simpl lexMisc_loop.
  - rewrite Nat.add_0_r in Ht.
    step (eof_inside _ (get_lt _ _ _ Ht)).
    step (isAnyOf_get _ _ word_ends Ht).
    rewrite substring_zero, append_nil_r.
    destruct (isCharAnyOf t word_ends) eqn:E; [reflexivity|].
    step (isNL_get _ _ Ht).
    destruct Hstop as [? | ->]; [discriminate | reflexivity].
  - destruct (Hbody 0%nat ltac:(lia)) as (c & Hc & Hce & Hcnl).
    rewrite Nat.add_0_r in Hc.
    pose proof (get_lt _ _ _ Ht) as Hlt. fold (size st) in Hlt.
    step (eof_inside _ (get_lt _ _ _ Hc)).
    step (isAnyOf_get _ _ word_ends Hc). rewrite Hce.
    step (isNL_get _ _ Hc).
    replace (Ascii.eqb c NL) with false by (symmetry; now apply Ascii.eqb_neq).
    step (advance_plain _ _ Hc Hcnl).
    replace (Nat.leb (size st) (S (index st))) with false
      by (symmetry; apply Nat.leb_gt; lia).
    rewrite (IH fuel (v ++ str1 c) (bump st)).
    + rewrite iter_bump_shift, append_assoc_str. simpl.
      now rewrite (substring_get _ _ n _ Hc).
    + lia.
    + intros i Hi. destruct (Hbody (S i) ltac:(lia)) as (c' & Hc' & ?).
      exists c'. simpl. rewrite <- Nat.add_succ_r. auto.
    + exists t. simpl. rewrite <- Nat.add_succ_r. auto.
Qed.

(** The same loop on a word that reaches the end of the source: [advance]
    returns NUL for the last character. *)
Lemma lexMisc_loop_to_end (n : nat) :
  forall (fuel : nat) (v : string) (st : state),
    (S n < fuel)%nat ->
    (forall i, (i <= n)%nat ->
       exists c, String.get (index st + i) (source st) = Some c
                 /\ isCharAnyOf c word_ends = false /\ c <> NL) ->
    (index st + S n)%nat = size st ->
    lexMisc_loop fuel v st
    = Returns (v ++ String.substring (index st) n (source st) ++ str1 NUL,
               Nat.iter (S n) bump st).
Proof.
  induction n as [|n IH]; intros fuel v st Hfuel Hbody Hend;
    (destruct fuel as [|fuel]; [lia|]); simpl lexMisc_loop;
    destruct (Hbody 0%nat ltac:(lia)) as (c & Hc & Hce & Hcnl);
    rewrite Nat.add_0_r in Hc;
    step (eof_inside _ (get_lt _ _ _ Hc));
    step (isAnyOf_get _ _ word_ends Hc); rewrite Hce;
    step (isNL_get _ _ Hc);
    replace (Ascii.eqb c NL) with false by (symmetry; now apply Ascii.eqb_neq);
    step (advance_plain _ _ Hc Hcnl).
  - replace (Nat.leb (size st) (S (index st))) with true
      by (symmetry; apply Nat.leb_le; lia).
    destruct fuel as [|fuel]; [lia|]. simpl lexMisc_loop.
    step (eof_past_end (bump st) ltac:(change (size (bump st)) with (size st);
                                      simpl; lia)).
    now rewrite substring_zero.
  - replace (Nat.leb (size st) (S (index st))) with false
      by (symmetry; apply Nat.leb_gt; lia).
    rewrite (IH fuel (v ++ str1 c) (bump st)).
    + rewrite iter_bump_shift, append_assoc_str. simpl.
      now rewrite (substring_get _ _ n _ Hc).
    + lia.
    + intros i Hi. destruct (Hbody (S i) ltac:(lia)) as (c' & Hc' & ?).
      exists c'. simpl. rewrite <- Nat.add_succ_r. auto.
    + change (size (bump st)) with (size st). simpl. lia.
Qed.

(** [lexCurrent] on a character that starts a bare word. *)
Lemma lexCurrent_word fuel st c :
  String.get (index st) (source st) = Some c ->
  isCharAnyOf c not_word_start = false ->
  isDigit_c c = false ->
  (c = "-"%char \/ c = "+"%char ->
   isDigit_c (char_at (source st) (S (index st))) = false) ->
  Z.of_nat (size st) < 2 ^ 64 ->
  lexCurrent fuel st
  = (v <- lexMisc_loop fuel "" ;;
     let trimmed := rtrim v in
     if String.eqb trimmed "null" then addToken_len TokenKind.Null 4
     else if String.eqb trimmed "false" then addToken_len TokenKind.False 5
     else if String.eqb trimmed "true" then addToken_len TokenKind.False 4
     else if String.eqb trimmed "nan" then addToken_len TokenKind.NaN 3
     else if String.eqb trimmed "inf" then addToken_len TokenKind.Inf 3
     else if String.eqb trimmed "-inf" then addToken_len TokenKind.NegInf 3
     else addToken TokenKind.String v) st.
Proof.
  intros Hc Hstart Hd Hsign Hsize.
  pose proof (get_lt _ _ _ Hc) as Hin. fold (size st) in Hin.
  assert (Hne : forall x, In x not_word_start -> Ascii.eqb c x = false)
    by (intros x; apply isCharAnyOf_false; exact Hstart).
  unfold lexCurrent. step (peek_get _ _ Hc).
  rewrite (Hne "/"%char), (Hne "'"%char), (Hne DQUOTE), (Hne ","%char),
    (Hne ":"%char), (Hne "{"%char), (Hne "}"%char), (Hne "["%char),
    (Hne "]"%char) by (simpl; tauto).
  cbv beta iota delta [orb].
  unfold lexMisc. step (isNL_get _ _ Hc). rewrite (Hne NL) by (simpl; tauto).
  unfold isHidden. step (isAnyOf_get _ _ [" "%char; TAB; CR] Hc).
  rewrite (isCharAnyOf_incl c not_word_start [" "%char; TAB; CR] Hstart)
    by (intros x Hx; simpl in *; tauto).
  step (isDigit_get _ _ Hc). rewrite Hd.
  assert (Hnum : (minus <- is_ "-" ;;
                  signed <- (if minus then ret true else is_ "+") ;;
                  if signed then l <- lookup 1 ;; ret (isDigit_c l)
                  else ret false) st
                 = Returns (false, st)).
  { unfold bind. rewrite (is_get _ _ "-"%char Hc).
    assert (Hlook : lookup 1 st = Returns (char_at (source st) (S (index st)), st)).
    { rewrite (lookup_get st 1 ltac:(lia) Hsize).
      now replace (index st + 1)%nat with (S (index st)) by lia. }
    destruct (Ascii.eqb c "-") eqn:Eminus.
    - apply Ascii.eqb_eq in Eminus. unfold ret. rewrite Hlook.
      now rewrite (Hsign (or_introl Eminus)).
    - rewrite (is_get _ _ "+"%char Hc).
      destruct (Ascii.eqb c "+") eqn:Eplus; [|reflexivity].
      apply Ascii.eqb_eq in Eplus. rewrite Hlook.
      unfold ret. now rewrite (Hsign (or_intror Eplus)). }
  step Hnum. reflexivity.
Qed.

Lemma rtrim_keeps_NUL (v : string) : rtrim (v ++ str1 NUL) = v ++ str1 NUL.
Proof.
  induction v as [|c v IH]; [reflexivity|].
  simpl. simpl in IH. rewrite IH. now destruct v.
Qed.

Lemma ends_in_NUL_not_keyword (v : string) :
  let w := v ++ str1 NUL in
  (String.eqb w "null" || String.eqb w "false" || String.eqb w "true"
   || String.eqb w "nan" || String.eqb w "inf" || String.eqb w "-inf")%bool = false.
Proof.
  intros w.
  assert (H : forall k, In k ["null"; "false"; "true"; "nan"; "inf"; "-inf"] ->
                        String.eqb w k = false).
  { intros k Hk. apply String.eqb_neq. intros Heq. unfold w in Heq.
    simpl in Hk.
    destruct Hk as [<- | [<- | [<- | [<- | [<- | [<- | []]]]]]];
      destruct v as [|? [|? [|? [|? [|? [|? ?]]]]]]; discriminate Heq. }
  rewrite !H by (simpl; tauto). reflexivity.
Qed.

(** X24: A bare word followed by a character that ends it, and whose text
    without its trailing blanks is none of [null], [false], [true], [nan],
    [inf] and [-inf], becomes one [String] token whose text is the word as
    written, trailing blanks included. *)
Theorem bare_word_token (inner : nat) (st : state) (n : nat) (c : ascii) :
  let word := String.substring (index st) n (source st) in
  String.get (index st) (source st) = Some c ->
  isCharAnyOf c not_word_start = false ->
  isDigit_c c = false ->
  (c = "-"%char \/ c = "+"%char ->
   isDigit_c (char_at (source st) (S (index st))) = false) ->
  (forall i, (i < n)%nat ->
     exists c, String.get (index st + i) (source st) = Some c
               /\ isCharAnyOf c word_ends = false /\ c <> NL) ->
  (exists t, String.get (index st + n) (source st) = Some t
             /\ (isCharAnyOf t word_ends = true \/ t = NL)) ->
  ~ In (rtrim word) ["null"; "false"; "true"; "nan"; "inf"; "-inf"]%string ->
  (n < inner)%nat ->
  Z.of_nat (size st) < 2 ^ 64 ->
  lexCurrent inner st
  = Returns (tt, with_token
                   (mkToken TokenKind.String word (mkSpan (tokenPos st) n))
                   (Nat.iter n bump st)).
Proof.
  intros word Hc Hstart Hd Hsign Hbody Hstop Hkw Hfuel Hsize.
  rewrite (lexCurrent_word inner st c Hc Hstart Hd Hsign Hsize).
  step (lexMisc_loop_collects n inner "" st Hfuel Hbody Hstop).
  simpl append. fold word.
  assert (H : forall k, In k ["null"; "false"; "true"; "nan"; "inf"; "-inf"]%string ->
                        String.eqb (rtrim word) k = false).
  { intros k Hk. apply String.eqb_neq. intros Heq. apply Hkw. now rewrite Heq. }
  cbv zeta. rewrite !H by (simpl; tauto).
  unfold addToken, bind, get, put, with_token.
  rewrite iter_bump_tokenPos, iter_bump_tokens.
  destruct Hstop as (t & Ht & _). pose proof (get_lt _ _ _ Ht) as Hlt.
  unfold word. cbn [append]. now rewrite substring_length by lia.
Qed.

Lemma bare_word_token_witness :
  lexCurrent 5 (mkState "key : 1" 0 0 0 0 [])
  = Returns (tt, mkState "key : 1" 4 0 4 0
                         [mkToken TokenKind.String "key " (mkSpan 0 4)]).
Proof.
  apply (bare_word_token 5 (mkState "key : 1" 0 0 0 0 []) 4 "k"%char).
  - reflexivity.
  - reflexivity.
  - reflexivity.
  - intros [H | H]; discriminate H.
  - simpl. intros i Hi. destruct i as [|[|[|[|i]]]]; try lia;
      eexists; (split; [reflexivity|]); (split; [reflexivity | discriminate]).
  - exists ":"%char. split; [reflexivity | left; reflexivity].
  - simpl. intros H. repeat destruct H as [H | H]; try discriminate H. exact H.
  - lia.
  - vm_compute; reflexivity.
Defined.

(** X25: A bare word that ends the source becomes a [String] token whose last
    character is NUL, whatever the word: also [null], [false], [nan] and
    the like are not recognised there. *)
Theorem word_at_end_of_source (inner : nat) (st : state) (n : nat) (c : ascii) :
  String.get (index st) (source st) = Some c ->
  isCharAnyOf c not_word_start = false ->
  isDigit_c c = false ->
  (c = "-"%char \/ c = "+"%char ->
   isDigit_c (char_at (source st) (S (index st))) = false) ->
  (forall i, (i <= n)%nat ->
     exists c, String.get (index st + i) (source st) = Some c
               /\ isCharAnyOf c word_ends = false /\ c <> NL) ->
  (index st + S n)%nat = size st ->
  (S n < inner)%nat ->
  Z.of_nat (size st) < 2 ^ 64 ->
  lexCurrent inner st
  = Returns (tt, with_token
                   (mkToken TokenKind.String
                            (String.substring (index st) n (source st) ++ str1 NUL)
                            (mkSpan (tokenPos st) (S n)))
                   (Nat.iter (S n) bump st)).
Proof.
  intros Hc Hstart Hd Hsign Hbody Hend Hfuel Hsize.
  rewrite (lexCurrent_word inner st c Hc Hstart Hd Hsign Hsize).
  step (lexMisc_loop_to_end n inner "" st Hfuel Hbody Hend).
  cbn [append]. cbv zeta. rewrite rtrim_keeps_NUL.
  pose proof (ends_in_NUL_not_keyword
                (String.substring (index st) n (source st))) as Hkw.
  cbv zeta in Hkw.
  repeat (apply orb_false_elim in Hkw; destruct Hkw as [Hkw ?]).
  repeat match goal with H : String.eqb _ _ = false |- _ => rewrite H; clear H end.
  unfold addToken, bind, get, put, with_token.
  change (Nat.iter (S n) bump st) with (bump (Nat.iter n bump st)).
  cbn [tokenPos tokens source index lastNl col bump].
  rewrite iter_bump_tokenPos, iter_bump_tokens.
  repeat f_equal.
  assert (Hlen : forall a b, String.length (a ++ b) = (String.length a + String.length b)%nat)
    by (induction a; simpl; auto).
  rewrite Hlen, substring_length by (unfold size in Hend; lia). simpl. lia.
Qed.

Lemma word_at_end_of_source_witness :
  lexCurrent 5 (mkState "null" 0 0 0 0 [])
  = Returns (tt, mkState "null" 4 0 4 0
                         [mkToken TokenKind.String ("nul" ++ str1 NUL) (mkSpan 0 4)]).
Proof.
  apply (word_at_end_of_source 5 (mkState "null" 0 0 0 0 []) 3 "n"%char).
  - reflexivity.
  - reflexivity.
  - reflexivity.
  - intros [H | H]; discriminate H.
  - simpl. intros i Hi. destruct i as [|[|[|[|i]]]]; try lia;
      eexists; (split; [reflexivity|]); (split; [reflexivity | discriminate]).
  - reflexivity.
  - lia.
  - vm_compute; reflexivity.
Defined.

(** *** Punctuation, newlines and blanks *)

Lemma isCharAnyOf_true c chars : isCharAnyOf c chars = true -> In c chars.
Proof.
  unfold isCharAnyOf. intros H. apply existsb_exists in H.
  destruct H as (x & Hx & Hcx). apply Ascii.eqb_eq in Hcx. now subst.
Qed.

(** [lexCurrent] on a punctuation character, a newline or a hidden
    character: at most one token, of length 1, and one character passed. *)
Lemma lexCurrent_structural inner st c :
  String.get (index st) (source st) = Some c ->
  isCharAnyOf c structural_chars = true ->
  lexCurrent inner st
  = Returns (tt, match punct_kind c with
                 | Some k => with_token (mkToken k "" (mkSpan (tokenPos st) 1))
                                        (stepped c st)
                 | None => stepped c st
                 end).
Proof.
  intros Hc Hs. apply isCharAnyOf_true in Hs.
  pose proof (advance_one _ _ Hc) as Hadv.
  assert (Hadd : forall k,
             addTokenAdvance k 1 st
             = Returns (tt, with_token (mkToken k "" (mkSpan (tokenPos st) 1))
                                       (stepped c st))).
  { intros k. unfold addTokenAdvance. step Hadv.
    unfold addToken_len, bind, get, put, with_token.
    now rewrite stepped_tokenPos, stepped_tokens. }
  unfold lexCurrent. step (peek_get _ _ Hc).
  simpl in Hs.
  destruct Hs as [<- | [<- | [<- | [<- | [<- | [<- | Hs]]]]]];
    try (cbv beta iota delta [Ascii.eqb Bool.eqb orb DQUOTE punct_kind NL];
         apply Hadd).
  unfold lexMisc.
  destruct Hs as [<- | Hs].
  - cbv beta iota delta [Ascii.eqb Bool.eqb orb DQUOTE punct_kind NL].
    step (isNL_get _ _ Hc).
    cbv beta iota delta [Ascii.eqb Bool.eqb NL]. apply Hadd.
  - assert (Hhid : isHidden st = Returns (true, st)).
    { unfold isHidden. rewrite (isAnyOf_get _ _ _ Hc).
      destruct Hs as [<- | [<- | [<- | []]]]; reflexivity. }
    assert (Hp : punct_kind c = None)
      by (destruct Hs as [<- | [<- | [<- | []]]]; reflexivity).
    rewrite Hp.
    replace (Ascii.eqb c "/") with false
      by (destruct Hs as [<- | [<- | [<- | []]]]; reflexivity).
    replace (Ascii.eqb c "'" || Ascii.eqb c DQUOTE)%bool with false
      by (destruct Hs as [<- | [<- | [<- | []]]]; reflexivity).
    replace (Ascii.eqb c ",") with false
      by (destruct Hs as [<- | [<- | [<- | []]]]; reflexivity).
    replace (Ascii.eqb c ":") with false
      by (destruct Hs as [<- | [<- | [<- | []]]]; reflexivity).
    replace (Ascii.eqb c "{") with false
      by (destruct Hs as [<- | [<- | [<- | []]]]; reflexivity).
    replace (Ascii.eqb c "}") with false
      by (destruct Hs as [<- | [<- | [<- | []]]]; reflexivity).
    replace (Ascii.eqb c "[") with false
      by (destruct Hs as [<- | [<- | [<- | []]]]; reflexivity).
    replace (Ascii.eqb c "]") with false
      by (destruct Hs as [<- | [<- | [<- | []]]]; reflexivity).
    step (isNL_get _ _ Hc).
    replace (Ascii.eqb c NL) with false
      by (destruct Hs as [<- | [<- | [<- | []]]]; reflexivity).
    step Hhid. now step Hadv.
Qed.

Lemma lex_loop_structural (n : nat) :
  forall (fuel inner : nat) (st : state),
    (n < fuel)%nat ->
    (index st + n)%nat = size st ->
    (forall i c, String.get i (source st) = Some c ->
                 isCharAnyOf c structural_chars = true) ->
    exists st',
      lex_loop fuel inner st = Returns (tt, st')
      /\ source st' = source st /\ index st' = size st
      /\ tokens st'
         = (tokens st
            ++ structural_tokens (String.substring (index st) n (source st))
                                 (index st))%list.
Proof.
  induction n as [|n IH]; intros fuel inner st Hfuel Hend Hall;
    (destruct fuel as [|fuel]; [lia|]); simpl lex_loop.
  - step (eof_past_end st ltac:(lia)). exists st.
    rewrite substring_zero. simpl. rewrite app_nil_r.
    repeat split; auto. lia.
  - step (eof_inside st ltac:(lia)).
    step (eq_refl : set_tokenPos st = Returns (tt, at_token st)).
    destruct (get_in_range (source st) (index st)) as [c Hc];
      [unfold size in Hend; lia|].
    assert (Hc' : String.get (index (at_token st)) (source (at_token st)) = Some c)
      by exact Hc.
    step (lexCurrent_structural inner (at_token st) c Hc' (Hall _ _ Hc)).
    rewrite (substring_get _ _ n _ Hc). cbn [structural_tokens].
    set (st1 := match punct_kind c with
                | Some k => with_token _ (stepped c (at_token st))
                | None => stepped c (at_token st)
                end).
    assert (Hsrc1 : source st1 = source st)
      by (unfold st1; destruct (punct_kind c); simpl; now rewrite stepped_source).
    assert (Hidx1 : index st1 = S (index st))
      by (unfold st1; destruct (punct_kind c); simpl; now rewrite stepped_index).
    destruct (IH fuel inner st1) as (st' & Hrun & Hsrc & Hidx & Htok).
    + lia.
    + unfold size. rewrite Hsrc1, Hidx1. unfold size in Hend. lia.
    + rewrite Hsrc1. exact Hall.
    + exists st'. split; [exact Hrun|]. split; [congruence|].
      split; [unfold size in *; rewrite Hidx, Hsrc1; reflexivity|].
      rewrite Htok, Hsrc1, Hidx1. unfold st1.
      destruct (punct_kind c); simpl; rewrite stepped_tokens; simpl;
        [now rewrite <- app_assoc | reflexivity].
Qed.

(** X26: A source made only of punctuation, newlines, blanks, tabs and carriage
    returns is lexed in full: one token of length 1 per punctuation
    character or newline, at its offset and in source order, then [Eof] at
    the length of the source. *)
Theorem lex_structural_source (fuel : nat) (src : string) :
  (forall i c, String.get i src = Some c ->
               isCharAnyOf c structural_chars = true) ->
  (String.length src < fuel)%nat ->
  lex fuel src
  = Returns (structural_tokens src 0
             ++ [mkToken TokenKind.Eof "" (mkSpan (String.length src) 0)])%list.
Proof.
  intros Hall Hfuel. unfold lex.
  destruct (lex_loop_structural (String.length src) fuel fuel
              (mkState src 0 0 0 0 []) Hfuel eq_refl Hall)
    as (st' & Hrun & Hsrc & Hidx & Htok).
  step Hrun. unfold set_tokenPos, addToken_len, bind, get, put. simpl.
  rewrite Htok, Hidx. simpl.
  assert (Hfull : forall s, String.substring 0 (String.length s) s = s)
    by (induction s as [|a s IHs]; simpl; [reflexivity | now rewrite IHs]).
  now rewrite Hfull.
Qed.

Lemma lex_structural_source_witness :
  lex 5 "{ }
"
  = Returns [mkToken TokenKind.LBrace "" (mkSpan 0 1);
             mkToken TokenKind.RBrace "" (mkSpan 2 1);
             mkToken TokenKind.NL "" (mkSpan 3 1);
             mkToken TokenKind.Eof "" (mkSpan 4 0)].
Proof.
  apply (lex_structural_source 5 "{ }
").
  - intros i c H. destruct i as [|[|[|[|i]]]]; simpl in H;
      try discriminate H; inversion H; reflexivity.
  - simpl. lia.
Defined.

(** *** Diagnostics *)

(** The loop of [error] walks to the newline that ends the current line. *)
Lemma error_loop_to_newline (n : nat) :
  forall (fuel sliceTo : nat) (st : state),
    (n < fuel)%nat ->
    (forall i, (i < n)%nat ->
       exists c, String.get (index st + i) (source st) = Some c /\ c <> NL) ->
    String.get (index st + n) (source st) = Some NL ->
    error_loop fuel sliceTo st = Returns ((index st + n)%nat, Nat.iter n bump st).
Proof.
  induction n as [|n IH]; intros fuel sliceTo st Hfuel Hbody Hnl;
    (destruct fuel as [|fuel]; [lia|]); simpl error_loop.
  - rewrite Nat.add_0_r in *.
    step (eof_inside _ (get_lt _ _ _ Hnl)).
    step (eq_refl : get st = Returns (st, st)).
    step (isNL_get _ _ Hnl). now rewrite Ascii.eqb_refl.
  - destruct (Hbody 0%nat ltac:(lia)) as (c & Hc & Hcnl).
    rewrite Nat.add_0_r in Hc.
    step (eof_inside _ (get_lt _ _ _ Hc)).
    step (eq_refl : get st = Returns (st, st)).
    step (isNL_get _ _ Hc).
    replace (Ascii.eqb c NL) with false by (symmetry; now apply Ascii.eqb_neq).
    step (advance_plain _ _ Hc Hcnl).
    rewrite (IH fuel (index st) (bump st)).
    + rewrite iter_bump_shift. simpl. now rewrite <- Nat.add_succ_r.
    + lia.
    + intros i Hi. destruct (Hbody (S i) ltac:(lia)) as (c' & Hc' & ?).
      exists c'. simpl. rewrite <- Nat.add_succ_r. auto.
    + simpl. now rewrite <- Nat.add_succ_r.
Qed.

(** The loop of [error] on a last line that no newline ends: [sliceTo] stops
    at the last character. *)
Lemma error_loop_to_end (n : nat) :
  forall (fuel sliceTo : nat) (st : state),
    (S n < fuel)%nat ->
    (forall i, (i <= n)%nat ->
       exists c, String.get (index st + i) (source st) = Some c /\ c <> NL) ->
    (index st + S n)%nat = size st ->
    error_loop fuel sliceTo st
    = Returns ((index st + n)%nat, Nat.iter (S n) bump st).
Proof.
  induction n as [|n IH]; intros fuel sliceTo st Hfuel Hbody Hend;
    (destruct fuel as [|fuel]; [lia|]); simpl error_loop;
    destruct (Hbody 0%nat ltac:(lia)) as (c & Hc & Hcnl);
    rewrite Nat.add_0_r in Hc;
    step (eof_inside _ (get_lt _ _ _ Hc));
    step (eq_refl : get st = Returns (st, st));
    step (isNL_get _ _ Hc);
    replace (Ascii.eqb c NL) with false by (symmetry; now apply Ascii.eqb_neq);
    step (advance_plain _ _ Hc Hcnl).
  - destruct fuel as [|fuel]; [lia|]. simpl error_loop.
    step (eof_past_end (bump st) ltac:(change (size (bump st)) with (size st);
                                      simpl; lia)).
    now rewrite Nat.add_0_r.
  - rewrite (IH fuel (index st) (bump st)).
    + rewrite iter_bump_shift. simpl. now rewrite <- Nat.add_succ_r.
    + lia.
    + intros i Hi. destruct (Hbody (S i) ltac:(lia)) as (c' & Hc' & ?).
      exists c'. simpl. rewrite <- Nat.add_succ_r. auto.
    + change (size (bump st)) with (size st). simpl. lia.
Qed.

Lemma error_after_loop {A} fuel msg st sliceTo st' :
  error_loop fuel (index st) st = Returns (sliceTo, st') ->
  (lastNl st' <= sliceTo)%nat ->
  (sliceTo <= String.length (source st'))%nat ->
  Z.of_nat (String.length (source st')) < 2 ^ 64 ->
  @error A fuel msg st
  = Throws (parse_error
      (str1 NL
       ++ String.substring (lastNl st') (sliceTo - lastNl st') (source st')
       ++ str1 NL ++ pointLine (col st') msg)).
Proof.
  intros Hloop Hlast Hin Hsize. unfold error.
  step (eq_refl : get st = Returns (st, st)).
  step Hloop.
  step (eq_refl : get st' = Returns (st', st')).
  unfold substr.
  replace (Nat.ltb (String.length (source st')) (lastNl st')) with false
    by (symmetry; apply Nat.ltb_ge; lia).
  unfold throw, u64. rewrite Z.mod_small by lia.
  now replace (Z.to_nat (Z.of_nat sliceTo - Z.of_nat (lastNl st')))
    with (sliceTo - lastNl st')%nat by lia.
Qed.

(** X27: [error] raised with [n] characters left on the current line reports the
    whole line, from the last newline to the next one, and puts the caret
    at the column of the end of the line, [n] columns after the place of
    the error. *)
Theorem error_reports_whole_line {A : Type}
        (fuel : nat) (msg : string) (st : state) (n : nat) :
  (forall i, (i < n)%nat ->
     exists c, String.get (index st + i) (source st) = Some c /\ c <> NL) ->
  String.get (index st + n) (source st) = Some NL ->
  (n < fuel)%nat ->
  (lastNl st <= index st)%nat ->
  Z.of_nat (size st) < 2 ^ 64 ->
  @error A fuel msg st
  = Throws (parse_error
      (str1 NL
       ++ String.substring (lastNl st) (index st + n - lastNl st) (source st)
       ++ str1 NL
       ++ pointLine (if Nat.eqb n 0 then col st else u16 (col st + Z.of_nat n)) msg)).
Proof.
  intros Hbody Hnl Hfuel Hlast Hsize.
  pose proof (get_lt _ _ _ Hnl) as Hin.
  rewrite (error_after_loop fuel msg st _ _
             (error_loop_to_newline n fuel (index st) st Hfuel Hbody Hnl)).
  - rewrite iter_bump_source, iter_bump_lastNl.
    destruct n as [|n]; [reflexivity|]. now rewrite iter_bump_col.
  - rewrite iter_bump_lastNl. lia.
  - rewrite iter_bump_source. lia.
  - rewrite iter_bump_source. exact Hsize.
Qed.

Lemma error_reports_whole_line_witness :
  @error unit 4 "Signed binary numbers are not allowed"
         (mkState "a:-0b1
" 3 0 3 2 [])
  = Throws (parse_error
      (str1 NL ++ "a:-0b1" ++ str1 NL
       ++ "      ^ Signed binary numbers are not allowed")).
Proof.
  apply (error_reports_whole_line 4 "Signed binary numbers are not allowed"
           (mkState "a:-0b1
" 3 0 3 2 []) 3).
  - simpl. intros i Hi. destruct i as [|[|[|i]]]; try lia;
      eexists; (split; [reflexivity | discriminate]).
  - reflexivity.
  - lia.
  - simpl. lia.
  - vm_compute; reflexivity.
Defined.

(** X28: On a last line that no newline ends, the line [error] reports lacks the
    last character of the source. *)
Theorem error_on_last_line_drops_last_character {A : Type}
        (fuel : nat) (msg : string) (st : state) (n : nat) :
  (forall i, (i <= n)%nat ->
     exists c, String.get (index st + i) (source st) = Some c /\ c <> NL) ->
  (index st + S n)%nat = size st ->
  (S n < fuel)%nat ->
  (lastNl st <= index st)%nat ->
  Z.of_nat (size st) < 2 ^ 64 ->
  @error A fuel msg st
  = Throws (parse_error
      (str1 NL
       ++ String.substring (lastNl st) (size st - 1 - lastNl st) (source st)
       ++ str1 NL
       ++ pointLine (u16 (col st + Z.of_nat (S n))) msg)).
Proof.
  intros Hbody Hend Hfuel Hlast Hsize.
  rewrite (error_after_loop fuel msg st _ _
             (error_loop_to_end n fuel (index st) st Hfuel Hbody Hend)).
  - rewrite iter_bump_source, iter_bump_lastNl, iter_bump_col.
    now replace (index st + n - lastNl st)%nat
      with (size st - 1 - lastNl st)%nat by lia.
  - rewrite iter_bump_lastNl. lia.
  - rewrite iter_bump_source. unfold size in Hend. lia.
  - rewrite iter_bump_source. exact Hsize.
Qed.

Lemma error_on_last_line_drops_last_character_witness :
  @error unit 5 "Signed binary numbers are not allowed"
         (mkState "-0b1" 1 0 1 0 [])
  = Throws (parse_error
      (str1 NL ++ "-0b" ++ str1 NL
       ++ "    ^ Signed binary numbers are not allowed")).
Proof.
  apply (error_on_last_line_drops_last_character
           5 "Signed binary numbers are not allowed" (mkState "-0b1" 1 0 1 0 []) 2).
  - simpl. intros i Hi. destruct i as [|[|[|i]]]; try lia;
      eexists; (split; [reflexivity | discriminate]).
  - reflexivity.
  - lia.
  - simpl. lia.
  - vm_compute; reflexivity.
Defined.

(** *** Underscores in numbers *)

Lemma skipOpt_underscore st :
  String.get (index st) (source st) = Some "_"%char ->
  skipOpt "_" st = Returns (true, bump st).
Proof.
  intros H. unfold skipOpt. step (is_get _ _ "_"%char H). simpl.
  now step (advance_plain _ _ H ltac:(discriminate)).
Qed.

(** The decimal digit loop of [lexNum] over digits with underscores. *)
Lemma digits_loop_grouped (n : nat) :
  forall (fuel : nat) (v : string) (st : state),
    (n < fuel)%nat ->
    grouped (String.substring (index st) n (source st)) = true ->
    (exists t, String.get (index st + n) (source st) = Some t
               /\ isDigit_c t = false /\ t <> "_"%char) ->
    digits_loop fuel isDigit v st
    = Returns (v ++ without_underscores
                      (String.substring (index st) n (source st)),
               Nat.iter n bump st).
Proof.
  induction n as [n IH] using lt_wf_ind.
  intros fuel v st Hfuel Hg (t & Ht & Hdt & Htu).
  pose proof (get_lt _ _ _ Ht) as Hlt. fold (size st) in Hlt.
  destruct fuel as [|fuel]; [lia|]. simpl digits_loop.
  destruct n as [|n].
  - rewrite Nat.add_0_r in Ht.
    step (eof_inside _ (get_lt _ _ _ Ht)).
    step (skipOpt_other _ _ _ Ht Htu). step (isDigit_get _ _ Ht). rewrite Hdt.
    cbv beta iota delta [negb].
    rewrite substring_zero. simpl. now rewrite append_nil_r.
  - destruct (get_in_range (source st) (index st)) as [c Hc];
      [unfold size in Hlt; lia|].
    rewrite (substring_get _ _ n _ Hc) in *. cbn [grouped] in Hg.
    step (eof_inside st ltac:(lia)).
    destruct (isDigit_c c) eqn:Hd.
    + step (skipOpt_other _ _ _ Hc (digit_not_underscore _ Hd)).
      step (isDigit_get _ _ Hc). rewrite Hd. cbv beta iota delta [negb].
      step (advance_plain _ _ Hc (digit_not_NL _ Hd)).
      replace (Nat.leb (size st) (S (index st))) with false
        by (symmetry; apply Nat.leb_gt; lia).
      rewrite (IH n ltac:(lia) fuel (v ++ str1 c) (bump st)).
      * rewrite iter_bump_shift, append_assoc_str. cbn [without_underscores].
        now rewrite (digit_neq c "_" Hd eq_refl).
      * lia.
      * exact Hg.
      * exists t. simpl. rewrite <- Nat.add_succ_r. auto.
    + destruct (Ascii.eqb c "_") eqn:Eu; [|discriminate].
      apply Ascii.eqb_eq in Eu. subst c.
      destruct n as [|n]; [rewrite substring_zero in Hg; discriminate|].
      destruct (get_in_range (source st) (S (index st))) as [d Hdg];
        [unfold size in Hlt; lia|].
      rewrite (substring_get _ _ n _ Hdg) in *.
      apply andb_prop in Hg. destruct Hg as [Hd2 Hg].
      step (skipOpt_underscore _ Hc).
      assert (Hdg' : String.get (index (bump st)) (source (bump st)) = Some d)
        by exact Hdg.
      step (isDigit_get _ _ Hdg'). rewrite Hd2. cbv beta iota delta [negb].
      step (advance_plain _ _ Hdg' (digit_not_NL _ Hd2)).
      replace (Nat.leb (size (bump st)) (S (index (bump st)))) with false
        by (symmetry; apply Nat.leb_gt; change (size (bump st)) with (size st);
            simpl; lia).
      rewrite (IH n ltac:(lia) fuel (v ++ str1 d) (bump (bump st))).
      * rewrite !iter_bump_shift, append_assoc_str. cbn [without_underscores].
        simpl (Ascii.eqb "_" "_").
        now rewrite (digit_neq d "_" Hd2 eq_refl).
      * lia.
      * exact Hg.
      * exists t. simpl. rewrite <- !Nat.add_succ_r. auto.
Qed.

(** X29: In a decimal literal a single underscore may stand before any digit but
    the first: the [DecInt] token holds the digits without the underscores,
    and its span has the length of that text, not of the literal. *)
Theorem decimal_literal_with_underscores
        (inner : nat) (st : state) (n : nat) (c t : ascii) :
  let literal := String.substring (index st) n (source st) in
  String.get (index st) (source st) = Some c ->
  isDigit_c c = true ->
  grouped literal = true ->
  String.get (index st + n) (source st) = Some t ->
  isDigit_c t = false -> t <> "_"%char -> t <> "."%char ->
  isCharAnyOf (char_at (source st) (S (index st)))
              ["b"; "B"; "x"; "X"; "o"; "O"]%char = false ->
  (n < inner)%nat ->
  Z.of_nat (size st) < 2 ^ 64 ->
  lexCurrent inner st
  = Returns (tt, with_token
                   (mkToken TokenKind.DecInt (without_underscores literal)
                            (mkSpan (tokenPos st)
                                    (String.length (without_underscores literal))))
                   (Nat.iter n bump st)).
Proof.
  intros literal Hc Hd Hg Ht Hdt Htu Htd Hletters Hfuel Hsize.
  rewrite (lexCurrent_digit inner st c Hc Hd Hletters Hsize).
  step (digits_loop_grouped n inner "" st Hfuel Hg
          (ex_intro _ t (conj Ht (conj Hdt Htu)))).
  cbn [append]. fold literal. set (st' := Nat.iter n bump st).
  assert (Ht' : String.get (index st') (source st') = Some t)
    by (unfold st'; now rewrite iter_bump_source, iter_bump_index).
  step (is_get _ _ "."%char Ht').
  replace (Ascii.eqb t ".") with false by (symmetry; now apply Ascii.eqb_neq).
  unfold addToken, bind, get, put, with_token, st'.
  now rewrite iter_bump_tokenPos, iter_bump_tokens.
Qed.

Lemma decimal_literal_with_underscores_witness :
  lexCurrent 8 (mkState "1_000," 0 0 0 0 [])
  = Returns (tt, mkState "1_000," 5 0 5 0
                         [mkToken TokenKind.DecInt "1000" (mkSpan 0 4)]).
Proof.
  apply (decimal_literal_with_underscores
           8 (mkState "1_000," 0 0 0 0 []) 5 "1"%char ","%char);
    try reflexivity; try discriminate; try (simpl; lia).
Defined.

(** *** A sign before a base prefix *)

(** [lexCurrent] on a minus sign followed by a base prefix: [lexNum] calls
    [error] right after the sign. *)
Lemma lexCurrent_signed_prefix inner st l :
  String.get (index st) (source st) = Some "-"%char ->
  String.get (S (index st)) (source st) = Some "0"%char ->
  String.get (S (S (index st))) (source st) = Some l ->
  isCharAnyOf l ["b"; "B"; "x"; "X"; "o"; "O"]%char = true ->
  Z.of_nat (size st) < 2 ^ 64 ->
  forall e,
    @error unit inner (signed_message l) (bump st) = Throws e ->
    lexCurrent inner st = Throws e.
Proof.
  intros Hm H0 Hl Hletter Hsize e Herr.
  pose proof (get_lt _ _ _ Hl) as Hlt. fold (size st) in Hlt.
  assert (Hlook : lookup 1 st = Returns ("0"%char, st)).
  { apply lookup_inside; [exact Hsize|].
    now replace (index st + 1)%nat with (S (index st)) by lia. }
  unfold lexCurrent. step (peek_get _ _ Hm).
  cbv beta iota delta [Ascii.eqb Bool.eqb orb DQUOTE].
  unfold lexMisc. step (isNL_get _ _ Hm).
  cbv beta iota delta [Ascii.eqb Bool.eqb NL].
  unfold isHidden. step (isAnyOf_get _ _ [" "%char; TAB; CR] Hm).
  change (isCharAnyOf "-" [" "%char; TAB; CR]) with false. cbv beta iota.
  step (isDigit_get _ _ Hm). change (isDigit_c "-") with false. cbv beta iota.
  assert (Hnum : (minus <- is_ "-" ;;
                  signed <- (if minus then ret true else is_ "+") ;;
                  if signed then l <- lookup 1 ;; ret (isDigit_c l)
                  else ret false) st
                 = Returns (true, st)).
  { unfold bind. rewrite (is_get _ _ "-"%char Hm).
    cbv beta iota delta [Ascii.eqb Bool.eqb]. unfold ret. now rewrite Hlook. }
  step Hnum.
  unfold lexNum. step (is_get _ _ "+"%char Hm).
  cbv beta iota delta [Ascii.eqb Bool.eqb].
  assert (Hsign : (minus <- is_ "-" ;;
                   if minus then advance 1 ;; ret ("-", true)
                   else ret ("", false)) st
                  = Returns (("-", true), bump st)).
  { unfold bind. rewrite (is_get _ _ "-"%char Hm).
    cbv beta iota delta [Ascii.eqb Bool.eqb].
    now rewrite (advance_plain _ _ Hm ltac:(discriminate)). }
  step Hsign.
  set (st1 := bump st).
  assert (H0' : String.get (index st1) (source st1) = Some "0"%char) by exact H0.
  assert (Hlook1 : lookup 1 st1 = Returns (l, st1)).
  { apply lookup_inside; [exact Hsize|]. unfold st1. simpl.
    now replace (S (index st + 1))%nat with (S (S (index st))) by lia. }
  assert (Hskip : forall lower upper msg isD expected assigned locals,
             isCharAnyOf l [lower; upper] = false ->
             based_block inner true lower upper msg isD expected assigned
                         (TokenKind.DecInt, locals, false) st1
             = Returns ((TokenKind.DecInt, locals, false), st1)).
  { intros lower upper msg isD expected assigned locals Hno.
    unfold based_block, bind. rewrite (peek_get _ _ H0'). simpl.
    rewrite Hlook1. unfold isCharAnyOf in Hno. simpl in Hno.
    rewrite orb_false_r in Hno. unfold ret. now rewrite Hno. }
  assert (Hhit : forall lower upper msg isD expected assigned locals,
             isCharAnyOf l [lower; upper] = true ->
             @error unit inner msg st1 = Throws e ->
             based_block inner true lower upper msg isD expected assigned
                         (TokenKind.DecInt, locals, false) st1
             = Throws e).
  { intros lower upper msg isD expected assigned locals Hyes Hthrow.
    unfold based_block, bind. rewrite (peek_get _ _ H0'). simpl.
    rewrite Hlook1. unfold isCharAnyOf in Hyes. simpl in Hyes.
    rewrite orb_false_r in Hyes. unfold ret. rewrite Hyes.
    now rewrite Hthrow. }
  assert (Herr' : forall msg, msg = signed_message l ->
                              @error unit inner msg st1 = Throws e).
  { intros msg ->. exact Herr. }
  unfold signed_message in Herr'.
  destruct (isCharAnyOf l ["b"%char; "B"%char]) eqn:Eb.
  { apply bind_Throws. apply Hhit; [exact Eb | now apply Herr']. }
  step (Hskip "b"%char "B"%char "Signed binary numbers are not allowed"
              (isAnyOf ["0"%char; "1"%char]) "binary digit" TokenKind.OctoInt "-" Eb).
  destruct (isCharAnyOf l ["x"%char; "X"%char]) eqn:Ex.
  { apply bind_Throws. apply Hhit; [exact Ex | now apply Herr']. }
  step (Hskip "x"%char "X"%char "Signed hexadecimal numbers are not allowed"
              isHexDigit "hexadecimal digit" TokenKind.HexInt "-" Ex).
  apply bind_Throws. apply Hhit; [| now apply Herr'].
  revert Hletter Eb Ex. unfold isCharAnyOf. cbn [existsb].
  destruct (Ascii.eqb l "b"), (Ascii.eqb l "B"), (Ascii.eqb l "x"),
    (Ascii.eqb l "X"), (Ascii.eqb l "o"), (Ascii.eqb l "O");
    simpl; intros; try discriminate; reflexivity.
Qed.

(** X30: A minus sign before [0b], [0x] or [0o] is refused: [lexNum] raises
    [parse_error] with the message for that base, the line of the literal
    and the caret at the column of the end of that line. *)
Theorem signed_prefix_refused (inner : nat) (st : state) (l : ascii) (n : nat) :
  String.get (index st) (source st) = Some "-"%char ->
  String.get (S (index st)) (source st) = Some "0"%char ->
  String.get (S (S (index st))) (source st) = Some l ->
  isCharAnyOf l ["b"; "B"; "x"; "X"; "o"; "O"]%char = true ->
  (forall i, (i < n)%nat ->
     exists c, String.get (S (index st) + i) (source st) = Some c /\ c <> NL) ->
  String.get (S (index st) + n) (source st) = Some NL ->
  (n < inner)%nat ->
  (lastNl st <= index st)%nat ->
  Z.of_nat (size st) < 2 ^ 64 ->
  lexCurrent inner st
  = Throws (parse_error
      (str1 NL
       ++ String.substring (lastNl st) (S (index st) + n - lastNl st) (source st)
       ++ str1 NL
       ++ pointLine (u16 (col st + Z.of_nat (S n))) (signed_message l))).
Proof.
  intros Hm H0 Hl Hletter Hbody Hnl Hfuel Hlast Hsize.
  apply (lexCurrent_signed_prefix inner st l Hm H0 Hl Hletter Hsize).
  rewrite (error_after_loop inner (signed_message l) (bump st) _ _
             (error_loop_to_newline n inner (index (bump st)) (bump st)
                Hfuel Hbody Hnl)).
  - rewrite iter_bump_shift, iter_bump_source, iter_bump_lastNl, iter_bump_col.
    reflexivity.
  - rewrite iter_bump_lastNl. simpl. lia.
  - rewrite iter_bump_source. pose proof (get_lt _ _ _ Hnl). simpl. lia.
  - rewrite iter_bump_source. exact Hsize.
Qed.

Lemma signed_prefix_refused_witness :
  lexCurrent 5 (mkState "-0x1F
" 0 0 0 0 [])
  = Throws (parse_error
      (str1 NL ++ "-0x1F" ++ str1 NL
       ++ "     ^ Signed hexadecimal numbers are not allowed")).
Proof.
  apply (signed_prefix_refused 5 (mkState "-0x1F
" 0 0 0 0 []) "x"%char 4); try reflexivity.
  - simpl. intros i Hi. destruct i as [|[|[|[|i]]]]; try lia;
      eexists; (split; [reflexivity | discriminate]).
  - simpl. lia.
Defined.

(** *** An unterminated string in a whole source *)



(** The example of the specification: [lex] on the source ['abc] followed
    by a newline. *)
Example lex_unterminated_line :
  lex 4 unterminated_line
  = Throws (parse_error
      (str1 NL ++ "'abc" ++ str1 NL ++ "    ^ Expected `'`, got new line")).
Proof. vm_compute. reflexivity. Qed.




End LexerMore.
